(** * UPE / GPS factorization scripts: a shallow embedding and its properties

    The repository ships three JavaScript programs:
    - the UPE calculator (prime near X, Goldbach pair, factor search around
      the square root), embedded in [Module UPE];
    - the FactoriX page (small-factor sweep, then rings around the square
      root), embedded in [Module FactoriX];
    - the recursive factorizer ([isPrime64], Fermat, Pollard rho in Brent's
      variant), embedded in [Module Solid].

    BigInt values are [Z]; [%] and [/] on BigInt truncate towards zero, so
    they are [Z.rem] and [Z.quot].  JavaScript numbers that the programs use
    as integers (offsets, ring indices, counters) are [Z] as well.  Loops
    whose trip count is known from their variables run on a fuel computed from
    those variables; loops that need not end return [OutOfFuel] when the fuel
    is spent. *)

From Stdlib Require Import ZArith Znumtheory Lia List Bool String Ascii Sorted.
From Stdlib Require Import Zmod.
Import ListNotations.
Local Open Scope Z_scope.

(** ** Outcomes of a call *)

Inductive result (A : Type) : Type :=
| Ok (a : A)            (* the call returned [a] *)
| Raise (msg : string)  (* the call threw an Error *)
| OutOfFuel.            (* the step budget of the model ran out *)

Arguments Ok {A} a.
Arguments Raise {A} msg.
Arguments OutOfFuel {A}.

Definition bind {A B} (c : result A) (k : A -> result B) : result B :=
  match c with
  | Ok a => k a
  | Raise msg => Raise msg
  | OutOfFuel => OutOfFuel
  end.

Declare Scope result_scope.
Delimit Scope result_scope with result.
Notation "x <- c ;; k" := (bind c (fun x => k))
  (at level 61, c at next level, right associativity) : result_scope.
Notation "' pat <- c ;; k" := (bind c (fun x => match x with pat => k end))
  (at level 61, pat pattern, c at next level, right associativity) : result_scope.

(** ** JavaScript primitives *)

Module JS.

(** [x | 0]: ToInt32 of an integral number. *)
Definition toInt32 (x : Z) : Z :=
  let m := x mod 2 ^ 32 in
  if m <? 2 ^ 31 then m else m - 2 ^ 32.

(** Truth value of a BigInt or an integral number. *)
Definition truthy (x : Z) : bool := negb (x =? 0).

(** [n.toString(2).length] of a BigInt [n >= 0]. *)
Definition binaryLength (n : Z) : Z := Z.log2 n + 1.

(** Round to nearest, ties to even, of a non-negative integer to binary64
    (53 significant bits); the values met here are far below overflow. *)
Definition round53 (v : Z) : Z :=
  if v <? 2 ^ 53 then v
  else
    let k := Z.log2 v - 52 in
    let q := Z.shiftr v k in
    let low := Z.land v (Z.ones k) in
    let half := Z.shiftl 1 (k - 1) in
    if (half <? low) || ((low =? half) && Z.odd q)
    then Z.shiftl (q + 1) k
    else Z.shiftl q k.

(** A binary64 value that is an integer or [Infinity]. *)
Inductive double : Type :=
| Finite (v : Z)
| Infinity.

(** [Number(k)] on a BigInt [k >= 0]: the nearest binary64, ties to even.
    The largest finite binary64 is [2^1024 - 2^971]; from half a unit in
    the last place above it, [2^1024 - 2^970], the result is [Infinity]. *)
Definition Number (k : Z) : double :=
  if k <? 2 ^ 1024 - 2 ^ 970 then Finite (round53 k) else Infinity.

(** Number of loop turns of [while (e > 0n) { ...; e >>= 1n }], plus the
    final test. *)
Definition bitFuel (e : Z) : nat := S (Z.to_nat (Z.log2 e + 1)).

End JS.

(** ** The UPE calculator *)

Module UPE.

(** [function powBI(a, e)] *)
Fixpoint powBI_loop (fuel : nat) (r base exp : Z) : Z :=
  match fuel with
  | O => r
  | S fuel' =>
      if 0 <? exp then
        let r' := if JS.truthy (Z.land exp 1) then r * base else r in
        powBI_loop fuel' r' (base * base) (Z.shiftr exp 1)
      else r
  end.

Definition powBI (a e : Z) : Z := powBI_loop (JS.bitFuel e) 1 a e.

(** [function isqrt(n)], bit by bit. *)
Fixpoint isqrt_loop (fuel : nat) (n x0 bit : Z) : Z :=
  match fuel with
  | O => x0
  | S fuel' =>
      if 0 <? bit then
        let y := x0 + bit in
        let x0' := if y * y <=? n then y else x0 in
        isqrt_loop fuel' n x0' (Z.shiftr bit 1)
      else x0
  end.

Definition isqrt (n : Z) : result Z :=
  if n <? 0 then Raise "isqrt of negative"
  else if n <? 2 then Ok n
  else
    let bit := Z.shiftl 1 (JS.binaryLength n - 1) in
    Ok (isqrt_loop (JS.bitFuel bit) n 1 bit).

(** [function modPow(base, exp, mod)], with [md] for [mod]; [md] is not
    zero at any call. *)
Fixpoint modPow_loop (fuel : nat) (md b e r : Z) : Z :=
  match fuel with
  | O => r
  | S fuel' =>
      if 0 <? e then
        let r' := if JS.truthy (Z.land e 1) then Z.rem (r * b) md else r in
        modPow_loop fuel' md (Z.rem (b * b) md) (Z.shiftr e 1) r'
      else r
  end.

Definition modPow (base exp md : Z) : Z :=
  modPow_loop (JS.bitFuel exp) md (Z.rem base md) exp 1.

(** [function primesUpTo(P)]: the sieve is a [Uint8Array] of [n + 1]
    cells, here a list of booleans. *)
Fixpoint setCell (sieve : list bool) (j : nat) : list bool :=
  match sieve, j with
  | [], _ => []
  | _ :: rest, O => true :: rest
  | c :: rest, S j' => c :: setCell rest j'
  end.

Definition getCell (sieve : list bool) (i : Z) : bool :=
  nth (Z.to_nat i) sieve false.

(** [for (let j = i*i; j <= n; j += i) sieve[j] = 1] *)
Fixpoint markMultiples (fuel : nat) (n i j : Z) (sieve : list bool) : list bool :=
  match fuel with
  | O => sieve
  | S fuel' =>
      if j <=? n then markMultiples fuel' n i (j + i) (setCell sieve (Z.to_nat j))
      else sieve
  end.

(** [for (let i = 2; i*i <= n; i++) if (!sieve[i]) ...] *)
Fixpoint sieveLoop (fuel : nat) (n i : Z) (sieve : list bool) : list bool :=
  match fuel with
  | O => sieve
  | S fuel' =>
      if i * i <=? n then
        let sieve' :=
          if negb (getCell sieve i)
          then markMultiples (Z.to_nat n) n i (i * i) sieve
          else sieve in
        sieveLoop fuel' n (i + 1) sieve'
      else sieve
  end.

(** [for (let i = 2; i <= n; i++) if (!sieve[i]) out.push(i)] *)
Fixpoint collect (fuel : nat) (n i : Z) (sieve : list bool) : list Z :=
  match fuel with
  | O => []
  | S fuel' =>
      if i <=? n then
        if negb (getCell sieve i) then i :: collect fuel' n (i + 1) sieve
        else collect fuel' n (i + 1) sieve
      else []
  end.

Definition primesUpTo (P : Z) : list Z :=
  let n := Z.max 2 (JS.toInt32 P) in
  let sieve := sieveLoop (Z.to_nat n) n 2 (repeat false (Z.to_nat (n + 1))) in
  collect (Z.to_nat n) n 2 sieve.

(** *** Miller-Rabin *)

Definition small : list Z := [2; 3; 5; 7; 11; 13; 17; 19; 23; 29; 31; 37].

(** [for (const p of small) { if (n === p) return true;
                              if (n % p === 0n) return n === p; }]:
    [Some v] when the loop returned [v], [None] when it fell through. *)
Fixpoint smallLoop (ps : list Z) (n : Z) : option bool :=
  match ps with
  | [] => None
  | p :: ps' =>
      if n =? p then Some true
      else if Z.rem n p =? 0 then Some (n =? p)
      else smallLoop ps' n
  end.

(** [let d = n-1n, s = 0n; while ((d & 1n) === 0n) { d >>= 1n; s++; }] *)
Fixpoint splitLoop (fuel : nat) (d s : Z) : Z * Z :=
  match fuel with
  | O => (d, s)
  | S fuel' =>
      if Z.land d 1 =? 0 then splitLoop fuel' (Z.shiftr d 1) (s + 1)
      else (d, s)
  end.

Definition split (n : Z) : Z * Z := splitLoop (JS.bitFuel (n - 1)) (n - 1) 0.

(** [for (let r = 1n; r < s; r++) { x = (x*x) % n;
                                    if (x === n-1n) return true; }
     return false] *)
Fixpoint trialLoop (fuel : nat) (n s r x : Z) : bool :=
  match fuel with
  | O => false
  | S fuel' =>
      if r <? s then
        let x' := Z.rem (x * x) n in
        if x' =? n - 1 then true else trialLoop fuel' n s (r + 1) x'
      else false
  end.

(** [function trial(a)], closed over [n], [d], [s]. *)
Definition trial (n d s a : Z) : bool :=
  if Z.rem a n =? 0 then true
  else
    let x := modPow a d n in
    if (x =? 1) || (x =? n - 1) then true
    else trialLoop (Z.to_nat s) n s 1 x.

Definition fixed : list Z := [2; 3; 5; 7; 11; 13; 17].

(** [for (const a of fixed) { if (!trial(a)) return false;
                              cnt++; if (cnt >= rounds) return true; }]:
    [inl v] when the loop returned [v], [inr cnt] when it fell through. *)
Fixpoint fixedLoop (bases : list Z) (n d s rounds cnt : Z) : bool + Z :=
  match bases with
  | [] => inr cnt
  | a :: bases' =>
      if negb (trial n d s a) then inl false
      else
        let cnt' := cnt + 1 in
        if cnt' >=? rounds then inl true
        else fixedLoop bases' n d s rounds cnt'
  end.

(** [seed = (1103515245 * seed + 12345) & 0x7fffffff]: the product and
    the sum are binary64 operations, [&] converts with ToInt32. *)
Definition rnd32 (seed : Z) : Z :=
  Z.land (JS.toInt32 (JS.round53 (JS.round53 (1103515245 * seed) + 12345)))
         2147483647.

(** [while (cnt < rounds) { ... }] *)
Fixpoint randomLoop (fuel : nat) (n d s rounds cnt seed : Z) : bool :=
  match fuel with
  | O => true
  | S fuel' =>
      if cnt <? rounds then
        let seed' := rnd32 seed in
        let span := n - 3 in
        let a := 2 + Z.rem seed' (if 0 <? span then span else 1) in
        let a := if a >=? n then Z.rem a (n - 2) + 2 else a in
        if negb (trial n d s a) then false
        else randomLoop fuel' n d s rounds (cnt + 1) seed'
      else true
  end.

Definition isProbablePrime (n rounds : Z) : bool :=
  if n <? 2 then false
  else
    match smallLoop small n with
    | Some v => v
    | None =>
        let '(d, s) := split n in
        match fixedLoop fixed n d s rounds 0 with
        | inl v => v
        | inr cnt =>
            randomLoop (S (Z.to_nat (rounds - cnt))) n d s rounds cnt 123456789
        end
    end.

(** *** Admissibility *)

(** [for (const s of S) { const sb = BigInt(s); if (Xu === sb) return true;
                          if (Xu % sb === 0n) return false; } return true] *)
Fixpoint singleLoop (S : list Z) (Xu : Z) : bool :=
  match S with
  | [] => true
  | sb :: S' =>
      if Xu =? sb then true
      else if Z.rem Xu sb =? 0 then false
      else singleLoop S' Xu
  end.

Definition admissibleSingle (X u : Z) (S : list Z) : bool :=
  let Xu := X + u in
  if Xu <? 2 then false
  else if Z.rem Xu 2 =? 0 then Xu =? 2
  else singleLoop S Xu.

(** [for (const s of S) { if (a === sb || b === sb) continue;
                          if (a % sb === 0n || b % sb === 0n) return false; }
     return true] *)
Fixpoint pairLoop (S : list Z) (a b : Z) : bool :=
  match S with
  | [] => true
  | sb :: S' =>
      if (a =? sb) || (b =? sb) then pairLoop S' a b
      else if (Z.rem a sb =? 0) || (Z.rem b sb =? 0) then false
      else pairLoop S' a b
  end.

Definition admissibleGoldbach (x t : Z) (S : list Z) : bool :=
  let a := x - t in
  let b := x + t in
  if (a <? 2) || (b <? 2) then false
  else if ((Z.rem a 2 =? 0) && negb (a =? 2)) || ((Z.rem b 2 =? 0) && negb (b =? 2))
  then false
  else pairLoop S a b.

(** [function* symmetricOffsets(T)]: the values the generator yields, in
    order. *)
Fixpoint offsetsFrom (fuel : nat) (d T : Z) : list Z :=
  match fuel with
  | O => []
  | S fuel' => if d <=? T then d :: - d :: offsetsFrom fuel' (d + 1) T else []
  end.

Definition symmetricOffsets (T : Z) : list Z :=
  0 :: offsetsFrom (Z.to_nat T) 1 T.

(** *** Input parser

    A JavaScript string is its sequence of UTF-16 code units. *)

Definition jsstring := list N.

(** The characters of [\s], which are also those [trim] removes. *)
Definition isWhite (c : N) : bool :=
  (existsb (N.eqb c)
     [9; 10; 11; 12; 13; 32; 160; 5760; 8232; 8233; 8239; 8287; 12288; 65279]%N
   || ((8192 <=? c) && (c <=? 8202))%N)%bool.

Fixpoint dropWhite (s : jsstring) : jsstring :=
  match s with
  | [] => []
  | c :: s' => if isWhite c then dropWhite s' else s
  end.

Definition trim (s : jsstring) : jsstring :=
  rev (dropWhite (rev (dropWhite s))).

(** [.replace(/\s+/g, "")] *)
Definition stripWhite (s : jsstring) : jsstring :=
  filter (fun c => negb (isWhite c)) s.

Definition isDigit (c : N) : bool := ((48 <=? c) && (c <=? 57))%N.

(** [/^[0-9]+$/.test(s)] *)
Definition isDigitsOnly (s : jsstring) : bool :=
  match s with
  | [] => false
  | _ => forallb isDigit s
  end.

(** [BigInt(s)] on a string of decimal digits. *)
Definition BigInt (s : jsstring) : Z :=
  fold_left (fun acc c => 10 * acc + Z.of_N (c - 48)) s 0.

(** The longest prefix of digits, and what follows it. *)
Fixpoint spanDigits (s : jsstring) : jsstring * jsstring :=
  match s with
  | [] => ([], [])
  | c :: s' =>
      if isDigit c then let '(k, rest) := spanDigits s' in (c :: k, rest)
      else ([], s)
  end.

(** [/^10\^([0-9]+)(?:([+\-])([0-9]+))?$/.exec(s)]: the groups [m[1]] and,
    when the optional part matched, [m[2]] and [m[3]]. *)
Definition matchPow10 (s : jsstring) : option (jsstring * option (N * jsstring)) :=
  match s with
  | c1 :: c2 :: c3 :: rest =>
      if ((c1 =? 49) && (c2 =? 48) && (c3 =? 94))%N then
        let '(k, tail) := spanDigits rest in
        match k, tail with
        | [], _ => None
        | _ :: _, [] => Some (k, None)
        | _ :: _, op :: ctext =>
            if ((op =? 43) || (op =? 45))%N && isDigitsOnly ctext
            then Some (k, Some (op, ctext))
            else None
        end
      else None
  | _ => None
  end.

(** The object [parseBigIntExpr] returns: [ok: false], or [mode: "big"],
    or [mode: "logonly"] with [adjust: { op, c }].  In mode "big"
    [approxLog10] is [s.length - 1] or [Number(k)] with [k <= 2000], an
    integer that binary64 holds exactly; in mode "logonly" it is
    [Number(k)] for a [k] of any size. *)
Inductive parsed : Type :=
| Failed (err : string)
| Big (big : Z) (approxLog10 : Z)
| LogOnly (approxLog10 : JS.double) (op : option N) (c : Z).

(** What follows the [s.length === 0] test, given the text of the last
    error. *)
Definition parseStripped (s : jsstring) (unsupported : string) : parsed :=
  if isDigitsOnly s then Big (BigInt s) (Z.of_nat (List.length s) - 1)
  else
    match matchPow10 s with
    | Some (m1, adj) =>
        let k := BigInt m1 in
        let op := option_map fst adj in
        let c := match adj with Some (_, m3) => BigInt m3 | None => 0 end in
        if k >? 2000 then LogOnly (JS.Number k) op c
        else
          let tenPow := powBI 10 k in
          let bi :=
            match op with
            | Some 43%N => tenPow + c
            | Some 45%N => tenPow - c
            | _ => tenPow
            end in
          Big bi k
    | None => Failed unsupported
    end.

Definition parseBigIntExpr (raw : jsstring) : parsed :=
  let s := stripWhite (trim raw) in
  match s with
  | [] => Failed "Empty input."
  | _ => parseStripped s "Unsupported input. Use digits or 10^k (+/- c)."
  end.

(** Code units of a text given as a literal. *)
Definition units (s : string) : jsstring :=
  map N_of_ascii (list_ascii_of_string s).

(** *** The three searches

    What a search writes to its output element, without the timing.  The
    natural logarithm and the values derived from it are binary64
    computations: the searches below take their integer results, [Pauto]
    and [Tauto], as inputs in place of [c1] and [c2]. *)
Inductive report : Type :=
| ErrorReport (err : string)          (* "Error: " + parsed.err *)
| LogPreview (approxLog10 : JS.double) (* "Log Mode Preview" *)
| SafetyPreview (P T : Z)             (* "Log Mode Preview (safety)" *)
| MustBeEven                          (* "E must be even." *)
| TooSmall                            (* "N must be >= 4." *)
| PrimeFound (u cand tested : Z)      (* "Prime near X" *)
| NoPrime (tested : Z)                (* "No prime within bounded correction." *)
| PairFound (t a b tested : Z)        (* "Goldbach Pair" *)
| NoPair (tested : Z)                 (* "No pair within bounded correction." *)
| FactorFound (u p q checked : Z)     (* "Factorization" *)
| BoundedRing0 (checked : Z)          (* "No factor within bounded correction at ring 0." *)
| NoFactor (checked : Z)              (* "No factor found within K rings." *)
| Unexpected (msg : string).          (* the [catch] branch *)

(** A confirmation test that was made: the ring, the offset, and the value
    that was tested (for a Goldbach pair, its member [x - t]).  The log of
    these tests is not in the program; it records what the loops do. *)
Definition event : Type := Z * Z * Z.

Definition T_LIMIT : Z := 100000.

(** The [for (const u of symmetricOffsets(T))] loop of [runPrimeNearX]. *)
Fixpoint scanPrime (offs : list Z) (X : Z) (S : list Z) (mrRounds tested : Z)
         (log : list event) : report * list event :=
  match offs with
  | [] => (NoPrime tested, log)
  | u :: offs' =>
      if negb (admissibleSingle X u S) then scanPrime offs' X S mrRounds tested log
      else
        let cand := X + u in
        let tested' := tested + 1 in
        let log' := log ++ [(0, u, cand)] in
        if isProbablePrime cand mrRounds then (PrimeFound u cand tested', log')
        else if tested' >=? 3 then (NoPrime tested', log')
        else scanPrime offs' X S mrRounds tested' log'
  end.

Definition runPrimeNearX (rawX : jsstring) (Pauto Tauto Poverride Toverride mrRounds : Z)
  : report * list event :=
  match parseBigIntExpr rawX with
  | Failed err => (ErrorReport err, [])
  | LogOnly approxLog10 _ _ => (LogPreview approxLog10, [])
  | Big X _ =>
      let P := if JS.truthy Poverride then Z.max 3 (JS.toInt32 Poverride) else Pauto in
      let T := if JS.truthy Toverride then Z.max 2 (JS.toInt32 Toverride) else Tauto in
      if negb (JS.truthy Toverride) && (T >? T_LIMIT) then (SafetyPreview P T, [])
      else
        let S := primesUpTo P in
        scanPrime (symmetricOffsets T) X S mrRounds 0 []
  end.

(** The [for (const t of symmetricOffsets(T))] loop of [runGoldbach]. *)
Fixpoint scanPair (offs : list Z) (x : Z) (S : list Z) (mrRounds tested : Z)
         (log : list event) : report * list event :=
  match offs with
  | [] => (NoPair tested, log)
  | t :: offs' =>
      if negb (admissibleGoldbach x t S) then scanPair offs' x S mrRounds tested log
      else
        let a := x - t in
        let b := x + t in
        let tested' := tested + 1 in
        let log' := log ++ [(0, t, a)] in
        if isProbablePrime a mrRounds && isProbablePrime b mrRounds
        then (PairFound t a b tested', log')
        else if tested' >=? 3 then (NoPair tested', log')
        else scanPair offs' x S mrRounds tested' log'
  end.

Definition runGoldbach (rawE : jsstring) (Pauto Tauto Poverride Toverride mrRounds : Z)
  : report * list event :=
  match parseBigIntExpr rawE with
  | Failed err => (ErrorReport err, [])
  | LogOnly approxLog10 _ _ => (LogPreview approxLog10, [])
  | Big E _ =>
      if negb (Z.rem E 2 =? 0) then (MustBeEven, [])
      else
        let x := Z.quot E 2 in
        let P := if JS.truthy Poverride then Z.max 3 (JS.toInt32 Poverride) else Pauto in
        let T := if JS.truthy Toverride then Z.max 2 (JS.toInt32 Toverride) else Tauto in
        if negb (JS.truthy Toverride) && (T >? T_LIMIT) then (SafetyPreview P T, [])
        else
          let S := primesUpTo P in
          scanPair (symmetricOffsets T) x S mrRounds 0 []
  end.

(** [function passesPrefilter(y)], closed over [usePrefilter] and [S]. *)
Definition passesPrefilter (usePrefilter : bool) (S : list Z) (y : Z) : bool :=
  if negb usePrefilter then true
  else if y <? 2 then false
  else singleLoop S y.

(** How a loop body ends: the loop goes on with its variables, or the
    function returns. *)
Inductive flow (A : Type) : Type :=
| Next (a : A)
| Return (r : report).
Arguments Next {A} a.
Arguments Return {A} r.

(** [if (passesPrefilter(y)) { checked++; if (N % y === 0n) { ...; return; } }],
    reporting the hit at offset [hit].  [N % 0n] throws a RangeError, which
    the [catch] of [runFactorization] turns into a report. *)
Definition probe (usePrefilter : bool) (S : list Z) (N ring u hit y checked : Z)
           (log : list event) : flow Z * list event :=
  if passesPrefilter usePrefilter S y then
    let checked' := checked + 1 in
    let log' := log ++ [(ring, u, y)] in
    if y =? 0 then (Return (Unexpected "Division by zero"), log')
    else if Z.rem N y =? 0 then (Return (FactorFound hit y (Z.quot N y) checked'), log')
    else (Next checked', log')
  else (Next checked, log).

(** The [for (const u of symmetricOffsets(R))] loop of [runFactorization]. *)
Fixpoint scanRing (offs : list Z) (usePrefilter : bool) (S : list Z)
         (N X T ring checked : Z) (log : list event) : flow Z * list event :=
  match offs with
  | [] => (Next checked, log)
  | u :: offs' =>
      if (ring >? 0) && (Z.abs u <? (ring - 1) * T)
      then scanRing offs' usePrefilter S N X T ring checked log
      else
        let a := X + u in
        match probe usePrefilter S N ring u u a checked log with
        | (Return r, log1) => (Return r, log1)
        | (Next checked1, log1) =>
            let after_b :=
              if negb (u =? 0)
              then probe usePrefilter S N ring u (- u) (X - u) checked1 log1
              else (Next checked1, log1) in
            match after_b with
            | (Return r, log2) => (Return r, log2)
            | (Next checked2, log2) =>
                if (ring =? 0) && (checked2 >=? 3)
                then (Return (BoundedRing0 checked2), log2)
                else scanRing offs' usePrefilter S N X T ring checked2 log2
            end
        end
  end.

(** [for (let ring = 0; ring <= K; ring++)], as the rings still to do. *)
Fixpoint scanRings (fuel : nat) (usePrefilter : bool) (S : list Z)
         (N X T K ring checked : Z) (log : list event) : report * list event :=
  match fuel with
  | O => (NoFactor checked, log)
  | S fuel' =>
      if ring <=? K then
        let R := ring * T in
        match scanRing (symmetricOffsets R) usePrefilter S N X T ring checked log with
        | (Return r, log') => (r, log')
        | (Next checked', log') =>
            scanRings fuel' usePrefilter S N X T K (ring + 1) checked' log'
        end
      else (NoFactor checked, log)
  end.

Definition runFactorization (rawN : jsstring) (P T K : Z) (usePrefilter : bool)
           (mrRounds : Z) : report * list event :=
  match parseBigIntExpr rawN with
  | Failed err => (ErrorReport err, [])
  | LogOnly approxLog10 _ _ => (LogPreview approxLog10, [])
  | Big N _ =>
      if N <? 4 then (TooSmall, [])
      else
        let S := primesUpTo P in
        match isqrt N with
        | Ok X => scanRings (Z.to_nat (K + 1)) usePrefilter S N X T K 0 0 []
        | Raise msg => (Unexpected msg, [])
        | OutOfFuel => (Unexpected "", [])
        end
  end.

End UPE.

(** ** The FactoriX page

    [powBI], [primesUpTo], [modPow], [isProbablePrime] and
    [symmetricOffsets] have the text of the calculator's functions, up to
    layout. *)

Module FactoriX.

Definition powBI := UPE.powBI.
Definition primesUpTo := UPE.primesUpTo.
Definition modPow := UPE.modPow.
Definition isProbablePrime := UPE.isProbablePrime.
Definition symmetricOffsets := UPE.symmetricOffsets.

Definition parseBigIntExpr (raw : UPE.jsstring) : UPE.parsed :=
  let s := UPE.stripWhite (UPE.trim raw) in
  match s with
  | [] => UPE.Failed "Entrée vide."
  | _ => UPE.parseStripped s "Format non supporté. Utiliser chiffres ou 10^k (+/- c)."
  end.

(** [function isqrt(n)], the same loop as the calculator's. *)
Definition isqrt (n : Z) : result Z :=
  if n <? 0 then Raise "isqrt negative"
  else if n <? 2 then Ok n
  else
    let bit := Z.shiftl 1 (JS.binaryLength n - 1) in
    Ok (UPE.isqrt_loop (JS.bitFuel bit) n 1 bit).

(** [function admissibleAroundSqrt(x, t, S)]; [abort] is [state.abort]
    when the function is called. *)
Definition admissibleAroundSqrt (abort : bool) (x t : Z) (S : list Z) : bool :=
  if abort then false
  else
    let a := x - t in
    let b := x + t in
    if (a <? 2) || (b <? 2) then false
    else if ((Z.rem a 2 =? 0) && negb (a =? 2)) || ((Z.rem b 2 =? 0) && negb (b =? 2))
    then false
    else UPE.pairLoop S a b.

(** [for (const p of smalls) { if (state.abort) break;
                               if (N % pb === 0n) return pb; } return null] *)
Fixpoint sweep (smalls : list Z) (abort : bool) (N : Z) : option Z :=
  match smalls with
  | [] => None
  | pb :: smalls' =>
      if abort then None
      else if Z.rem N pb =? 0 then Some pb
      else sweep smalls' abort N
  end.

Definition quickSmallFactor (abort : bool) (N bound : Z) : option Z :=
  sweep (primesUpTo bound) abort N.

(** The object [factorize] resolves to, without the timing. *)
Inductive outcome : Type :=
| Even (p q : Z)                       (* phase "even" *)
| SmallFactor (p q : Z)                (* phase "small" *)
| Window (p q ring u checked : Z)      (* phase "window" *)
| Aborted                              (* [{ ok: false, abort: true }] *)
| NotFound (checked : Z).              (* "Aucun facteur dans la portée définie." *)

Inductive flow (A : Type) : Type :=
| Next (a : A)
| Return (o : outcome)
| Throw (msg : string).
Arguments Next {A} a.
Arguments Return {A} o.
Arguments Throw {A} msg.

Section Factorize.

(** [state.abort] changes only while [factorize] is suspended in
    [await pause(0)]: [abort k] is the flag after [k] suspensions. *)
Variable abort : nat -> bool.

(** The [for (const u of symmetricOffsets(R))] loop. *)
Fixpoint scanRing (offs : list Z) (prefilter : bool) (S : list Z)
         (N x T ring checked steps : Z) (yields : nat) (log : list UPE.event)
  : flow (Z * nat) * list UPE.event :=
  match offs with
  | [] => (Next (checked, yields), log)
  | u :: offs' =>
      if abort yields then (Return Aborted, log)
      else if (ring >? 0) && (Z.abs u <? (ring - 1) * T)
      then scanRing offs' prefilter S N x T ring checked steps yields log
      else
        let a := x + u in
        if prefilter && negb (admissibleAroundSqrt (abort yields) x u S)
        then scanRing offs' prefilter S N x T ring checked steps yields log
        else
          let checked1 := checked + 1 in
          let log1 := log ++ [(ring, u, a)] in
          if a =? 0 then (Throw "Division by zero", log1)
          else if Z.rem N a =? 0
          then (Return (Window a (Z.quot N a) ring u checked1), log1)
          else
            let go (checked2 : Z) (log2 : list UPE.event) :=
              let steps' := steps + 1 in
              let yields' := if Z.rem steps' 5000 =? 0 then Datatypes.S yields else yields in
              scanRing offs' prefilter S N x T ring checked2 steps' yields' log2 in
            if negb (u =? 0) then
              let b := x - u in
              let checked2 := checked1 + 1 in
              let log2 := log1 ++ [(ring, u, b)] in
              if b =? 0 then (Throw "Division by zero", log2)
              else if Z.rem N b =? 0
              then (Return (Window b (Z.quot N b) ring (- u) checked2), log2)
              else go checked2 log2
            else go checked1 log1
  end.

(** [for (let ring = 0; ring <= K; ring++)] *)
Fixpoint scanRings (fuel : nat) (prefilter : bool) (S : list Z)
         (N x T K ring checked : Z) (yields : nat) (log : list UPE.event)
  : result outcome * list UPE.event :=
  match fuel with
  | O => (Ok (NotFound checked), log)
  | S fuel' =>
      if ring <=? K then
        if abort yields then (Ok Aborted, log)
        else
          let R := ring * T in
          match scanRing (symmetricOffsets R) prefilter S N x T ring checked 0 yields log with
          | (Return o, log') => (Ok o, log')
          | (Throw msg, log') => (Raise msg, log')
          | (Next (checked', yields'), log') =>
              scanRings fuel' prefilter S N x T K (ring + 1) checked' yields' log'
          end
      else (Ok (NotFound checked), log)
  end.

(** Step 2 of [factorize]; [P] is the integer result of the binary64
    computation [Math.max(5, Math.floor(1.6 * lnN))]. *)
Definition window (N T K : Z) (prefilter : bool) (P : Z) (yields : nat)
  : result outcome * list UPE.event :=
  let S := primesUpTo P in
  match isqrt N with
  | Ok x => scanRings (Z.to_nat (K + 1)) prefilter S N x T K 0 0 (Datatypes.S yields) []
  | Raise msg => (Raise msg, [])
  | OutOfFuel => (OutOfFuel, [])
  end.

(** [async function factorize(N, B, T, K, prefilter, mrRounds)], with the
    tests it made. *)
Definition factorize (N B T K : Z) (prefilter : bool) (mrRounds : Z) (P : Z)
  : result outcome * list UPE.event :=
  if Z.rem N 2 =? 0 then (Ok (Even 2 (Z.quot N 2)), [])
  else if B >? 0 then
    let sf := quickSmallFactor (abort 1) N (Z.max 3 (JS.toInt32 B)) in
    if abort 1 then (Ok Aborted, [])
    else
      match sf with
      | Some p => (Ok (SmallFactor p (Z.quot N p)), [])
      | None => window N T K prefilter P 1
      end
  else window N T K prefilter P 0.

End Factorize.

End FactoriX.

(** ** The recursive factorizer *)

Module Solid.

(** [function isqrt(n)], Newton's iteration. *)
Fixpoint isqrt_loop (fuel : nat) (n x y : Z) : result Z :=
  match fuel with
  | O => OutOfFuel
  | S fuel' =>
      if y <? x then isqrt_loop fuel' n y (Z.shiftr (y + Z.quot n y) 1)
      else Ok x
  end.

Definition isqrt (n : Z) : result Z :=
  if n <? 0 then Raise "sqrt négative"
  else if n <? 2 then Ok n
  else isqrt_loop (JS.bitFuel n) n n (Z.shiftr (n + 1) 1).

(** [function gcd(a, b) { while (b) { const t = a % b; a = b; b = t; } return a; }] *)
Fixpoint gcd (fuel : nat) (a b : Z) : result Z :=
  match fuel with
  | O => OutOfFuel
  | S fuel' => if JS.truthy b then gcd fuel' b (Z.rem a b) else Ok a
  end.

(** [function modPow(a, e, m)] *)
Fixpoint modPow_loop (fuel : nat) (m r x ee : Z) : Z :=
  match fuel with
  | O => r
  | S fuel' =>
      if 0 <? ee then
        let r' := if JS.truthy (Z.land ee 1) then Z.rem (r * x) m else r in
        modPow_loop fuel' m r' (Z.rem (x * x) m) (Z.shiftr ee 1)
      else r
  end.

Definition modPow (a e m : Z) : Z :=
  modPow_loop (JS.bitFuel e) m 1 (Z.rem a m) e.

Definition small : list Z := [2; 3; 5; 7; 11; 13; 17; 19; 23; 29].

(** [for (const p of small) { if (n % p === 0n) return n === p; }] *)
Fixpoint smallLoop (ps : list Z) (n : Z) : option bool :=
  match ps with
  | [] => None
  | p :: ps' => if Z.rem n p =? 0 then Some (n =? p) else smallLoop ps' n
  end.

Definition bases : list Z := [2; 3; 5; 7; 11; 13; 17].

(** [for (let r = 1n; r < s; r++) { x = (x*x) % n;
                                    if (x === n-1n) { ok = true; break; } }]:
    the final value of [ok]. *)
Fixpoint squareLoop (fuel : nat) (n s r x : Z) : bool :=
  match fuel with
  | O => false
  | S fuel' =>
      if r <? s then
        let x' := Z.rem (x * x) n in
        if x' =? n - 1 then true else squareLoop fuel' n s (r + 1) x'
      else false
  end.

(** One turn of [for (const a of bases)]: [true] when the turn ends in
    [continue] or with [ok], [false] when it ends in [return false]. *)
Definition passes (n d s a : Z) : bool :=
  if Z.rem a n =? 0 then true
  else
    let x := modPow a d n in
    if (x =? 1) || (x =? n - 1) then true
    else squareLoop (Z.to_nat s) n s 1 x.

Definition isPrime64 (n : Z) : bool :=
  if n <? 2 then false
  else
    match smallLoop small n with
    | Some v => v
    | None =>
        let '(d, s) := UPE.splitLoop (JS.bitFuel (n - 1)) (n - 1) 0 in
        forallb (passes n d s) bases
    end.

(** [for (let i = 0; i < maxSteps; i++)], as the turns still to do. *)
Fixpoint fermatLoop (turns : nat) (n a : Z) : result (option (Z * Z)) :=
  match turns with
  | O => Ok None
  | S turns' =>
      let b2 := a * a - n in
      (b <- isqrt b2 ;;
       if b * b =? b2 then
         let p := a - b in
         let q := a + b in
         if (p >? 1) && (q >? 1) && (p * q =? n) then Ok (Some (p, q))
         else fermatLoop turns' n (a + 1)
       else fermatLoop turns' n (a + 1))%result
  end.

Definition fermatFactor (n maxSteps : Z) : result (option (Z * Z)) :=
  (a <- isqrt n ;;
   let a := if a * a <? n then a + 1 else a in
   fermatLoop (Z.to_nat maxSteps) n a)%result.

Section Random.

(** [rnd k] is the value of [Math.floor(Math.random()*1e9)] at the
    [k]-th call of [Math.random]. *)
Variable rnd : nat -> Z.

(** [const rand = () => (BigInt(...) % (n-3n)) + 2n]; [n - 3] is not zero
    at any call. *)
Definition rand (n : Z) (k : nat) : Z := Z.rem (rnd k) (n - 3) + 2.

(** [for (let i = 0n; i < r; i++) y = (y*y + c) % n] *)
Fixpoint advance (turns : nat) (n c y : Z) : Z :=
  match turns with
  | O => y
  | S turns' => advance turns' n c (Z.rem (y * y + c) n)
  end.

(** [for (let i = 0n; i < lim; i++) { y = ...; q = (q * (diff % n)) % n; }] *)
Fixpoint accumulate (turns : nat) (n c x y q : Z) : Z * Z :=
  match turns with
  | O => (y, q)
  | S turns' =>
      let y' := Z.rem (y * y + c) n in
      let diff := if x >? y' then x - y' else y' - x in
      accumulate turns' n c x y' (Z.rem (q * Z.rem diff n) n)
  end.

(** [while (k < r && g === 1n) { ... }]: the final [y], [q], [g], [ys]. *)
Fixpoint inner (fuel : nat) (n c m x r k y q g ys : Z) : result (Z * Z * Z * Z) :=
  match fuel with
  | O => OutOfFuel
  | S fuel' =>
      if (k <? r) && (g =? 1) then
        let ys' := y in
        let lim := if m <? r - k then m else r - k in
        let '(y', q') := accumulate (Z.to_nat lim) n c x y q in
        (g' <- gcd fuel' q' n ;;
         inner fuel' n c m x r (k + m) y' q' g' ys')%result
      else Ok (y, q, g, ys)
  end.

(** [while (g === 1n) { ... }]: the final [g], [x], [ys]. *)
Fixpoint outer (fuel : nat) (n c m y g r q x ys : Z) : result (Z * Z * Z) :=
  match fuel with
  | O => OutOfFuel
  | S fuel' =>
      if g =? 1 then
        let x' := y in
        let y1 := advance (Z.to_nat r) n c y in
        ('(y2, q2, g2, ys2) <- inner fuel' n c m x' r 0 y1 q g ys ;;
         outer fuel' n c m y2 g2 (Z.shiftl r 1) q2 x' ys2)%result
      else Ok (g, x, ys)
  end.

(** [do { ... } while (g === 1n)] *)
Fixpoint backtrack (fuel : nat) (n c x ys : Z) : result Z :=
  match fuel with
  | O => OutOfFuel
  | S fuel' =>
      let ys' := Z.rem (ys * ys + c) n in
      let diff := if x >? ys' then x - ys' else ys' - x in
      (g <- gcd fuel' diff n ;;
       if g =? 1 then backtrack fuel' n c x ys' else Ok g)%result
  end.

(** [function rhoBrent(n)]; [k] counts the calls of [Math.random] made
    so far. *)
Definition rhoBrent (fuel : nat) (n : Z) (k : nat) : result (Z * nat) :=
  if Z.rem n 2 =? 0 then Ok (2, k)
  else
    let y := rand n k in
    let c := rand n (S k) in
    let m := Z.shiftl 1 6 in
    ('(g, x, ys) <- outer fuel n c m y 1 1 1 0 0 ;;
     if g =? n then
       (g' <- backtrack fuel n c x ys ;; Ok (g', S (S k)))
     else Ok (g, S (S k)))%result.

(** [let d = n; while (d === n) d = rhoBrent(n);] *)
Fixpoint split (fuel : nat) (n : Z) (k : nat) : result (Z * nat) :=
  match fuel with
  | O => OutOfFuel
  | S fuel' =>
      ('(d, k') <- rhoBrent fuel' n k ;;
       if d =? n then split fuel' n k' else Ok (d, k'))%result
  end.

Definition sieve47 : list Z :=
  [2; 3; 5; 7; 11; 13; 17; 19; 23; 29; 31; 37; 41; 43; 47].

(** [function factor(n, out)]: the array [out] and the count of random
    draws are threaded through the calls. *)
Fixpoint factor (fuel : nat) (n : Z) (out : list Z) (k : nat) : result (list Z * nat) :=
  match fuel with
  | O => OutOfFuel
  | S fuel' =>
      if n =? 1 then Ok (out, k)
      else if isPrime64 n then Ok (out ++ [n], k)
      else
        match find (fun p => Z.rem n p =? 0) sieve47 with
        | Some p =>
            ('(out1, k1) <- factor fuel' p out k ;;
             factor fuel' (Z.quot n p) out1 k1)%result
        | None =>
            (ff <- fermatFactor n 2000000 ;;
             match ff with
             | Some (p, q) =>
                 '(out1, k1) <- factor fuel' p out k ;;
                 factor fuel' q out1 k1
             | None =>
                 '(d, k0) <- split fuel' n k ;;
                 '(out1, k1) <- factor fuel' d out k0 ;;
                 factor fuel' (Z.quot n d) out1 k1
             end)%result
        end
  end.

Definition factorizeBigInt (fuel : nat) (N : Z) : result (list Z) :=
  ('(res, _) <- factor fuel N [] 0%nat ;; Ok res)%result.

End Random.

(** [fs.reduce((p, x) => p * x, 1n)] *)
Definition product (fs : list Z) : Z := fold_left Z.mul fs 1.

End Solid.

(** ** Vocabulary of the properties *)

(** A prime by trial division, for concrete instances. *)
Definition noDivisor (p : Z) : bool :=
  forallb (fun k => negb (p mod Z.of_nat k =? 0)) (seq 2 (Z.to_nat p - 2)).

(** What the callers of [gcd] keep: a positive divisor of [n]. *)
Definition divisorOf (n g : Z) : Prop := 0 < g /\ (g | n).

(** Every entry passes [isPrime64]. *)
Definition allPrime64 (l : list Z) : Prop := Forall (fun p => Solid.isPrime64 p = true) l.

(** The tests of a log that were made in ring 0. *)
Definition ring0 (log : list UPE.event) : list UPE.event :=
  filter (fun e => fst (fst e) =? 0) log.

(** The two accepted forms, in the words of the specification: a nonempty
    sequence of decimal digits; or [10^k], optionally followed by [+c] or
    [-c], with [k] and [c] sequences of decimal digits. *)
Definition isDecimal (s : UPE.jsstring) : Prop :=
  s <> [] /\ Forall (fun c => (48 <= c <= 57)%N) s.

Definition isPow10 (s : UPE.jsstring) : Prop :=
  exists k, isDecimal k /\
    (s = UPE.units "10^" ++ k \/
     exists sign c, (sign = 43 \/ sign = 45)%N /\ isDecimal c /\
                    s = UPE.units "10^" ++ k ++ sign :: c).

Definition acceptedForm (s : UPE.jsstring) : Prop := isDecimal s \/ isPow10 s.

(** A string is trimmed when [trim] leaves it as it is. *)
Definition trimmed (s : UPE.jsstring) : Prop := UPE.trim s = s.

(** The field [ok] of the parser's result. *)
Definition ok (p : UPE.parsed) : bool :=
  match p with
  | UPE.Failed _ => false
  | _ => true
  end.

(** A report other than the safety preview. *)
Definition notSafetyPreview (r : UPE.report) : Prop :=
  match r with
  | UPE.SafetyPreview _ _ => False
  | _ => True
  end.

(** ** Vocabulary of the further properties *)

(** A cell of the sieve is marked when its index has a divisor [d] below the
    loop variable with [d * d] at most the index. *)
Definition sieved (n i : Z) (sieve : list bool) : Prop :=
  Z.of_nat (List.length sieve) = n + 1 /\
  forall k, 0 <= k <= n ->
    (UPE.getCell sieve k = true <-> exists d, 2 <= d < i /\ d * d <= k /\ (d | k)).

(** The place of an offset in the order 0, +1, -1, +2, -2, ... *)
Definition offsetRank (u : Z) : Z := if u >? 0 then 2 * u - 1 else - 2 * u.

(** The cutoff and the radius a search uses: the override when there is
    one, the derived value otherwise. *)
Definition usedP (Pauto Poverride : Z) : Z :=
  if JS.truthy Poverride then Z.max 3 (JS.toInt32 Poverride) else Pauto.

Definition usedT (Tauto Toverride : Z) : Z :=
  if JS.truthy Toverride then Z.max 2 (JS.toInt32 Toverride) else Tauto.

(** Every prime divisor of [n] is at most [b]. *)
Definition smooth (b n : Z) : Prop := forall p, Z.prime p -> (p | n) -> p <= b.

(** * Properties *)

(** ** Arithmetic of the bit loops *)

Lemma land_1_truthy e : JS.truthy (Z.land e 1) = Z.odd e.
Proof.
  unfold JS.truthy.
  change 1 with (Z.ones 1) at 1.
  rewrite Z.land_ones by lia.
  change (2 ^ 1) with 2.
  rewrite Zmod_odd.
  destruct (Z.odd e); reflexivity.
Qed.

Lemma shiftr_1_half e : Z.shiftr e 1 = e / 2.
Proof. rewrite Z.shiftr_div_pow2 by lia. reflexivity. Qed.

Lemma pow2_S (k : nat) : 2 ^ Z.of_nat (S k) = 2 * 2 ^ Z.of_nat k.
Proof. rewrite Nat2Z.inj_succ, Z.pow_succ_r by lia. reflexivity. Qed.

Lemma half_lt_pow2 e (k : nat) : 0 <= e < 2 ^ Z.of_nat (S k) -> 0 <= e / 2 < 2 ^ Z.of_nat k.
Proof.
  rewrite pow2_S. intros H. split.
  - apply Z.div_pos; lia.
  - apply Z.div_lt_upper_bound; lia.
Qed.

Lemma bitFuel_enough e : 0 <= e -> e < 2 ^ Z.of_nat (Z.to_nat (Z.log2 e + 1)).
Proof.
  intros He. pose proof (Z.log2_nonneg e).
  rewrite Z2Nat.id by lia.
  destruct (Z.eq_dec e 0) as [->|Hne]; [reflexivity|].
  apply Z.log2_spec. lia.
Qed.

(** ** modPow *)

Lemma modPow_loop_S fuel md b e r :
  UPE.modPow_loop (S fuel) md b e r =
  if 0 <? e then
    UPE.modPow_loop fuel md (Z.rem (b * b) md) (Z.shiftr e 1)
      (if JS.truthy (Z.land e 1) then Z.rem (r * b) md else r)
  else r.
Proof. reflexivity. Qed.

(** The fuel of [modPow] is enough: more fuel gives the same result. *)
Lemma modPow_loop_fuel md :
  forall (fuel extra : nat) b e r,
    0 <= e < 2 ^ Z.of_nat fuel ->
    UPE.modPow_loop (S fuel + extra) md b e r = UPE.modPow_loop (S fuel) md b e r.
Proof.
  induction fuel as [|fuel IH]; intros extra b e r He.
  - simpl in He. assert (e = 0) by lia. subst e. reflexivity.
  - change (S (S fuel) + extra)%nat with (S (S fuel + extra)).
    rewrite !modPow_loop_S.
    destruct (0 <? e); [|reflexivity].
    rewrite shiftr_1_half. apply IH. apply half_lt_pow2. exact He.
Qed.

Lemma modPow_loop_range (md : Z) (Hmd : 1 <= md) :
  forall (fuel : nat) b e r,
    0 <= e < 2 ^ Z.of_nat fuel ->
    Z.abs b < md ->
    (Z.abs r < md \/ 1 <= e) ->
    Z.abs (UPE.modPow_loop (S fuel) md b e r) < md.
Proof.
  induction fuel as [|fuel IH]; intros b e r He Hb Hr.
  - simpl in He. assert (e = 0) by lia. subst e. simpl. lia.
  - rewrite modPow_loop_S.
    destruct (Z.ltb_spec 0 e) as [Hpos|Hle]; [|lia].
    rewrite land_1_truthy, shiftr_1_half.
    assert (Hb' : Z.abs (Z.rem (b * b) md) < md).
    { pose proof (Z.rem_bound_abs (b * b) md). lia. }
    assert (He' := half_lt_pow2 e fuel He).
    apply IH; auto.
    destruct (Z.odd e) eqn:Hodd.
    + left. pose proof (Z.rem_bound_abs (r * b) md). lia.
    + destruct Hr as [Hr|Hr]; [left; exact Hr|].
      right.
      assert (e <> 1) by (intros ->; discriminate).
      apply Z.div_le_lower_bound; lia.
Qed.

Lemma modPow_loop_nonneg (md : Z) (Hmd : 1 <= md) :
  forall (fuel : nat) b e r,
    0 <= b -> 0 <= r -> 0 <= UPE.modPow_loop fuel md b e r.
Proof.
  induction fuel as [|fuel IH]; intros b e r Hb Hr; [exact Hr|].
  rewrite modPow_loop_S.
  destruct (0 <? e); [|exact Hr].
  apply IH.
  - apply Z.rem_nonneg; [lia|]. apply Z.mul_nonneg_nonneg; lia.
  - destruct (JS.truthy _); [|exact Hr].
    apply Z.rem_nonneg; [lia|]. apply Z.mul_nonneg_nonneg; lia.
Qed.

(** The loop computes [r * b ^ e] modulo [md] once it has made a turn. *)
Lemma modPow_loop_spec (md : Z) (Hmd : 1 <= md) :
  forall (fuel : nat) b e r,
    0 <= e < 2 ^ Z.of_nat fuel ->
    0 <= b -> 0 <= r ->
    UPE.modPow_loop (S fuel) md b e r = if e =? 0 then r else (r * b ^ e) mod md.
Proof.
  induction fuel as [|fuel IH]; intros b e r He Hb Hr.
  - simpl in He. assert (e = 0) by lia. subst e. reflexivity.
  - rewrite modPow_loop_S.
    destruct (Z.ltb_spec 0 e) as [Hpos|Hle].
    2:{ assert (e = 0) by lia. subst e. reflexivity. }
    rewrite land_1_truthy, shiftr_1_half.
    assert (He' := half_lt_pow2 e fuel He).
    assert (Hbb : 0 <= b * b) by (apply Z.mul_nonneg_nonneg; lia).
    assert (Hrb : 0 <= r * b) by (apply Z.mul_nonneg_nonneg; lia).
    rewrite IH; auto.
    2:{ apply Z.rem_nonneg; lia. }
    2:{ destruct (Z.odd e); [apply Z.rem_nonneg; lia | lia]. }
    rewrite !Z.rem_mod_nonneg by lia.
    destruct (Z.eqb_spec e 0) as [|_]; [lia|].
    pose proof (Z.div_mod e 2 ltac:(lia)) as Hdm.
    rewrite Zmod_odd in Hdm.
    destruct (Z.eqb_spec (e / 2) 0) as [H0|Hn0].
    + destruct (Z.odd e) eqn:Hodd; [|lia].
      assert (e = 1) by lia. subst e. rewrite Z.pow_1_r. reflexivity.
    + assert (Hsplit : b ^ e = (if Z.odd e then b else 1) * (b * b) ^ (e / 2)).
      { rewrite <- Z.pow_2_r, <- Z.pow_mul_r by lia.
        destruct (Z.odd e).
        - rewrite Hdm at 1. rewrite Z.pow_add_r, Z.pow_1_r by lia. ring.
        - rewrite Hdm at 1. rewrite Z.add_0_r. ring. }
      rewrite Hsplit.
      rewrite <- Zmult_mod_idemp_r, Z.mod_pow_l, Zmult_mod_idemp_r.
      destruct (Z.odd e).
      * rewrite Zmult_mod_idemp_l. f_equal. ring.
      * f_equal. ring.
Qed.

Lemma modPow_spec base exp md :
  0 <= base -> 1 <= exp -> 1 <= md -> UPE.modPow base exp md = base ^ exp mod md.
Proof.
  intros Hb He Hm. unfold UPE.modPow, JS.bitFuel.
  rewrite modPow_loop_spec; try lia.
  - destruct (Z.eqb_spec exp 0); [lia|].
    rewrite Z.rem_mod_nonneg by lia.
    rewrite Z.mul_1_l. apply Z.mod_pow_l.
  - split; [lia|]. apply bitFuel_enough. lia.
  - apply Z.rem_nonneg; lia.
Qed.

(** ** powBI *)

Lemma powBI_loop_S fuel r base exp :
  UPE.powBI_loop (S fuel) r base exp =
  if 0 <? exp then
    UPE.powBI_loop fuel (if JS.truthy (Z.land exp 1) then r * base else r)
      (base * base) (Z.shiftr exp 1)
  else r.
Proof. reflexivity. Qed.

Lemma powBI_loop_spec :
  forall (fuel : nat) r base exp,
    0 <= exp < 2 ^ Z.of_nat fuel ->
    UPE.powBI_loop (S fuel) r base exp = r * base ^ exp.
Proof.
  induction fuel as [|fuel IH]; intros r base exp He.
  - simpl in He. assert (exp = 0) by lia. subst exp. cbn. lia.
  - rewrite powBI_loop_S.
    destruct (Z.ltb_spec 0 exp) as [Hpos|Hle].
    2:{ assert (exp = 0) by lia. subst exp. rewrite Z.pow_0_r. lia. }
    rewrite land_1_truthy, shiftr_1_half.
    rewrite IH by (apply half_lt_pow2; exact He).
    pose proof (Z.div_mod exp 2 ltac:(lia)) as Hdm.
    rewrite Zmod_odd in Hdm.
    assert (0 <= exp / 2) by (apply Z.div_pos; lia).
    rewrite <- Z.pow_2_r, <- Z.pow_mul_r by lia.
    destruct (Z.odd exp).
    + rewrite Hdm at 2. rewrite Z.pow_add_r, Z.pow_1_r by lia. ring.
    + rewrite Hdm at 2. rewrite Z.add_0_r. reflexivity.
Qed.

(** [powBI] is exponentiation. *)
Lemma powBI_spec a e : 0 <= e -> UPE.powBI a e = a ^ e.
Proof.
  intros He. unfold UPE.powBI, JS.bitFuel.
  rewrite powBI_loop_spec; [lia|].
  split; [lia|]. apply bitFuel_enough. lia.
Qed.

Example primesUpTo_15 : UPE.primesUpTo 15 = [2; 3; 5; 7; 11; 13].
Proof. reflexivity. Qed.

Example primesUpTo_100_length : List.length (UPE.primesUpTo 100) = 25%nat.
Proof. reflexivity. Qed.

Example symmetricOffsets_3 : UPE.symmetricOffsets 3 = [0; 1; -1; 2; -2; 3; -3].
Proof. reflexivity. Qed.

Example isProbablePrime_5184281 : UPE.isProbablePrime 5184281 12 = true.
Proof. vm_compute. reflexivity. Qed.

Example isProbablePrime_561 : UPE.isProbablePrime 561 12 = false.
Proof. vm_compute. reflexivity. Qed.

Example isProbablePrime_carmichael : UPE.isProbablePrime 294409 3 = false.
Proof. vm_compute. reflexivity. Qed.

Example parse_digits : UPE.parseBigIntExpr (UPE.units " 5 184 286 ") = UPE.Big 5184286 6.
Proof. reflexivity. Qed.

Example parse_pow : UPE.parseBigIntExpr (UPE.units "10^3 - 7") = UPE.Big 993 3.
Proof. reflexivity. Qed.

Example parse_logonly :
  UPE.parseBigIntExpr (UPE.units "10^2001") = UPE.LogOnly (JS.Finite 2001) None 0.
Proof. reflexivity. Qed.

Example parse_bad : UPE.parseBigIntExpr (UPE.units "12a") =
  UPE.Failed "Unsupported input. Use digits or 10^k (+/- c).".
Proof. reflexivity. Qed.

Example prime_near_5184286 :
  fst (UPE.runPrimeNearX (UPE.units "5184286") 24 478 15 239 12) = UPE.PrimeFound (-5) 5184281 2.
Proof. vm_compute. reflexivity. Qed.

Example goldbach_100 :
  UPE.runGoldbach (UPE.units "100") 7 42 0 0 12 = (UPE.PairFound 3 47 53 1, [(0, 3, 47)]).
Proof. vm_compute. reflexivity. Qed.

Example factor_91 :
  UPE.runFactorization (UPE.units "91") 7 40 40 true 12 =
  (UPE.FactorFound (-2) 7 13 2, [(1, 2, 11); (1, 2, 7)]).
Proof. vm_compute. reflexivity. Qed.

Example factorize_91 :
  FactoriX.factorize (fun _ => false) 91 0 8 1 false 12 7 =
  (Ok (FactoriX.Window 7 13 1 (-2) 8),
   [(0, 0, 9); (1, 0, 9); (1, 1, 10); (1, 1, 8); (1, -1, 8); (1, -1, 10); (1, 2, 11); (1, 2, 7)]).
Proof. vm_compute. reflexivity. Qed.

Example factorizeBigInt_91 : Solid.factorizeBigInt (fun _ => 0) 10 91 = Ok [7; 13].
Proof. vm_compute. reflexivity. Qed.

Example factorizeBigInt_360 :
  Solid.factorizeBigInt (fun _ => 0) 10 360 = Ok [2; 2; 2; 3; 3; 5].
Proof. vm_compute. reflexivity. Qed.

Example isPrime64_big : Solid.isPrime64 18446744073709551557 = true.
Proof. vm_compute. reflexivity. Qed.

Example isqrt_newton : Solid.isqrt 1000000000000000000000 = Ok 31622776601.
Proof. vm_compute. reflexivity. Qed.

Lemma Solid_modPow_loop_eq fuel m r x ee :
  Solid.modPow_loop fuel m r x ee = UPE.modPow_loop fuel m x ee r.
Proof.
  revert r x ee. induction fuel as [|fuel IH]; intros r x ee; [reflexivity|].
  simpl. destruct (0 <? ee); [|reflexivity]. apply IH.
Qed.

Lemma Solid_modPow_eq a e m : Solid.modPow a e m = UPE.modPow a e m.
Proof. apply Solid_modPow_loop_eq. Qed.

(** ** The bit-by-bit square root *)

Lemma isqrt_loop_S fuel n x0 bit :
  UPE.isqrt_loop (S fuel) n x0 bit =
  if 0 <? bit then
    UPE.isqrt_loop fuel n (if (x0 + bit) * (x0 + bit) <=? n then x0 + bit else x0)
      (Z.shiftr bit 1)
  else x0.
Proof. reflexivity. Qed.

(** The fuel of the bit-by-bit loop is enough: more fuel gives the same
    result. *)
Lemma isqrt_loop_fuel n :
  forall (fuel extra : nat) x0 bit,
    0 <= bit < 2 ^ Z.of_nat fuel ->
    UPE.isqrt_loop (S fuel + extra) n x0 bit = UPE.isqrt_loop (S fuel) n x0 bit.
Proof.
  induction fuel as [|fuel IH]; intros extra x0 bit Hb.
  - simpl in Hb. assert (bit = 0) by lia. subst bit. reflexivity.
  - change (S (S fuel) + extra)%nat with (S (S fuel + extra)).
    rewrite !isqrt_loop_S.
    destruct (0 <? bit); [|reflexivity].
    rewrite shiftr_1_half. apply IH. apply half_lt_pow2. exact Hb.
Qed.

Lemma isqrt_loop_bit0 fuel n x0 : UPE.isqrt_loop fuel n x0 0 = x0.
Proof. destruct fuel; reflexivity. Qed.

Lemma isqrt_loop_spec n :
  forall (j fuel : nat) x0,
    (j < fuel)%nat ->
    0 <= x0 ->
    x0 * x0 <= n < (x0 + 2 ^ Z.of_nat (S j)) * (x0 + 2 ^ Z.of_nat (S j)) ->
    let r := UPE.isqrt_loop fuel n x0 (2 ^ Z.of_nat j) in
    r * r <= n < (r + 1) * (r + 1).
Proof.
  induction j as [|j IH]; intros fuel x0 Hfuel Hx0 Hinv;
    (destruct fuel as [|fuel]; [lia|]); cbv zeta; rewrite isqrt_loop_S.
  - change (2 ^ Z.of_nat 0) with 1. change (2 ^ Z.of_nat 1) with 2 in Hinv.
    change (0 <? 1) with true. change (Z.shiftr 1 1) with 0. cbv iota.
    rewrite isqrt_loop_bit0.
    destruct (Z.leb_spec ((x0 + 1) * (x0 + 1)) n); nia.
  - assert (Hpos : 0 < 2 ^ Z.of_nat (S j)) by (apply Z.pow_pos_nonneg; lia).
    destruct (Z.ltb_spec 0 (2 ^ Z.of_nat (S j))) as [_|]; [|lia].
    rewrite shiftr_1_half.
    replace (2 ^ Z.of_nat (S j) / 2) with (2 ^ Z.of_nat j).
    2:{ rewrite pow2_S. rewrite Z.mul_comm, Z.div_mul by lia. reflexivity. }
    rewrite (pow2_S (S j)) in Hinv.
    apply IH; [lia| |].
    + destruct (Z.leb_spec ((x0 + 2 ^ Z.of_nat (S j)) * (x0 + 2 ^ Z.of_nat (S j))) n); lia.
    + destruct (Z.leb_spec ((x0 + 2 ^ Z.of_nat (S j)) * (x0 + 2 ^ Z.of_nat (S j))) n) as [Hle|Hgt].
      * split; [exact Hle|].
        replace (x0 + 2 ^ Z.of_nat (S j) + 2 ^ Z.of_nat (S j))
          with (x0 + 2 * 2 ^ Z.of_nat (S j)) by ring.
        apply Hinv.
      * split; [apply Hinv | exact Hgt].
Qed.

Lemma bitwise_isqrt_spec n :
  2 <= n ->
  let bit := Z.shiftl 1 (JS.binaryLength n - 1) in
  let r := UPE.isqrt_loop (JS.bitFuel bit) n 1 bit in
  r * r <= n < (r + 1) * (r + 1).
Proof.
  intros Hn. cbv zeta. unfold JS.binaryLength.
  replace (Z.log2 n + 1 - 1) with (Z.log2 n) by ring.
  pose proof (Z.log2_nonneg n) as Hlog.
  rewrite Z.shiftl_mul_pow2, Z.mul_1_l by lia.
  pose proof (Z.log2_spec n ltac:(lia)) as [Hlo Hhi].
  set (j := Z.to_nat (Z.log2 n)).
  assert (Hj : Z.log2 n = Z.of_nat j) by (unfold j; rewrite Z2Nat.id; lia).
  rewrite Hj in *.
  apply isqrt_loop_spec.
  - unfold JS.bitFuel. rewrite Z.log2_pow2 by lia. lia.
  - lia.
  - rewrite <- Nat2Z.inj_succ in Hhi.
    assert (0 < 2 ^ Z.of_nat (S j)) by (apply Z.pow_pos_nonneg; lia).
    nia.
Qed.

(** ** Newton's square root *)

Lemma newton_isqrt_loop_S fuel n x y :
  Solid.isqrt_loop (S fuel) n x y =
  if y <? x then Solid.isqrt_loop fuel n y (Z.shiftr (y + Z.quot n y) 1) else Ok x.
Proof. reflexivity. Qed.

(** One Newton step from [x >= sqrt n] stays at or above [sqrt n]. *)
Lemma newton_step_lower n x :
  0 <= n -> 0 < x -> Z.sqrt n <= (x + n / x) / 2.
Proof.
  intros Hn Hx.
  pose proof (Z.sqrt_spec n Hn) as Hs. cbv zeta in Hs.
  pose proof (Z.sqrt_nonneg n) as Hs0.
  apply Z.div_le_lower_bound; [lia|].
  assert (2 * Z.sqrt n - x <= n / x); [|lia].
  apply Z.div_le_lower_bound; [lia|].
  pose proof (Z.square_nonneg (Z.sqrt n - x)). nia.
Qed.

(** Above [sqrt n] a Newton step halves the distance to it. *)
Lemma newton_step_upper n x :
  0 <= n -> Z.sqrt n < x -> (x + n / x) / 2 - Z.sqrt n <= (x - Z.sqrt n) / 2.
Proof.
  intros Hn Hx.
  pose proof (Z.sqrt_spec n Hn) as Hs. cbv zeta in Hs.
  pose proof (Z.sqrt_nonneg n) as Hs0.
  assert (Hq : n / x <= Z.sqrt n).
  { assert (n / x < Z.sqrt n + 1); [|lia].
    apply Z.div_lt_upper_bound; nia. }
  assert (Hle : (x + n / x) / 2 <= (x + Z.sqrt n) / 2)
    by (apply Z.div_le_mono; lia).
  replace (x + Z.sqrt n) with ((x - Z.sqrt n) + Z.sqrt n * 2) in Hle by ring.
  rewrite Z.div_add in Hle by lia. lia.
Qed.

Lemma newton_exit n x :
  0 <= n -> 0 < x -> Z.sqrt n <= x -> x <= (x + n / x) / 2 -> x = Z.sqrt n.
Proof.
  intros Hn Hx Hlo Hexit.
  pose proof (Z.sqrt_spec n Hn) as Hs. cbv zeta in Hs.
  destruct (Z.eq_dec x (Z.sqrt n)) as [|Hne]; [assumption|].
  pose proof (newton_step_upper n x Hn ltac:(lia)) as Hup.
  assert ((x - Z.sqrt n) / 2 < x - Z.sqrt n) by (apply Z.div_lt; lia).
  lia.
Qed.

Lemma newton_isqrt_loop_spec n (Hn : 1 <= n) :
  forall (fuel : nat) x,
    Z.sqrt n <= x ->
    x - Z.sqrt n < 2 ^ Z.of_nat fuel ->
    Solid.isqrt_loop (S fuel) n x (Z.shiftr (x + Z.quot n x) 1) = Ok (Z.sqrt n).
Proof.
  assert (Hs1 : 1 <= Z.sqrt n).
  { change 1 with (Z.sqrt 1) at 1. apply Z.sqrt_le_mono. lia. }
  induction fuel as [|fuel IH]; intros x Hlo Hdist;
    rewrite newton_isqrt_loop_S, shiftr_1_half;
    rewrite Z.quot_div_nonneg by lia.
  - change (2 ^ Z.of_nat 0) with 1 in Hdist.
    assert (x = Z.sqrt n) by lia. subst x.
    pose proof (newton_step_lower n (Z.sqrt n) ltac:(lia) ltac:(lia)).
    destruct (Z.ltb_spec ((Z.sqrt n + n / Z.sqrt n) / 2) (Z.sqrt n)); [lia|reflexivity].
  - destruct (Z.ltb_spec ((x + n / x) / 2) x) as [Hlt|Hge].
    + pose proof (newton_step_lower n x ltac:(lia) ltac:(lia)) as Hlow.
      apply IH; [exact Hlow|].
      assert (Z.sqrt n < x) by lia.
      pose proof (newton_step_upper n x ltac:(lia) ltac:(lia)) as Hup.
      rewrite pow2_S in Hdist.
      assert ((x - Z.sqrt n) / 2 < 2 ^ Z.of_nat fuel)
        by (apply Z.div_lt_upper_bound; lia).
      lia.
    + f_equal. apply newton_exit; lia.
Qed.

Lemma newton_isqrt_spec n : 0 <= n -> Solid.isqrt n = Ok (Z.sqrt n).
Proof.
  intros Hn. unfold Solid.isqrt.
  destruct (Z.ltb_spec n 0); [lia|].
  destruct (Z.ltb_spec n 2) as [Hsmall|Hbig].
  - assert (n = 0 \/ n = 1) as [->| ->] by lia; reflexivity.
  - replace (Z.shiftr (n + 1) 1) with (Z.shiftr (n + Z.quot n n) 1).
    2:{ rewrite Z.quot_same by lia. reflexivity. }
    unfold JS.bitFuel.
    apply newton_isqrt_loop_spec; [lia| |].
    + apply Z.sqrt_le_lin. lia.
    + pose proof (bitFuel_enough n Hn). pose proof (Z.sqrt_nonneg n). lia.
Qed.

(** ** Claims on the arithmetic helpers *)

(** C7, as amended.  For every exponent [exp >= 0] and modulus [md >= 1]
    with [exp >= 1] or [md >= 2], [modPow base exp md] lies strictly between
    [- md] and [md], and in [[0, md)] when [base >= 0]; the three copies of
    [modPow] compute the same function. *)
Theorem modPow_range base exp md :
  0 <= exp -> 1 <= md -> (1 <= exp \/ 2 <= md) ->
  (- md < UPE.modPow base exp md < md /\
   (0 <= base -> 0 <= UPE.modPow base exp md < md)) /\
  FactoriX.modPow base exp md = UPE.modPow base exp md /\
  Solid.modPow base exp md = UPE.modPow base exp md.
Proof.
  intros He Hm Hor.
  split; [|split; [reflexivity | apply Solid_modPow_eq]].
  assert (Habs : Z.abs (UPE.modPow base exp md) < md).
  { unfold UPE.modPow, JS.bitFuel.
    apply modPow_loop_range; [lia| | |].
    - split; [lia|]. apply bitFuel_enough; lia.
    - pose proof (Z.rem_bound_abs base md). lia.
    - destruct Hor; [right; lia | left; simpl; lia]. }
  split; [lia|].
  intros Hb.
  assert (0 <= UPE.modPow base exp md); [|lia].
  unfold UPE.modPow. apply modPow_loop_nonneg; [lia| |lia].
  apply Z.rem_nonneg; lia.
Qed.

Lemma modPow_range_witness :
  (0 <= 200 /\ 1 <= 13 /\ (1 <= 200 \/ 2 <= 13)) /\
  (- 13 < UPE.modPow 3 200 13 < 13 /\
   (0 <= 3 -> 0 <= UPE.modPow 3 200 13 < 13)) /\
  FactoriX.modPow 3 200 13 = UPE.modPow 3 200 13 /\
  Solid.modPow 3 200 13 = UPE.modPow 3 200 13.
Proof.
  split; [lia|]. apply (modPow_range 3 200 13); lia.
Defined.

(** C7, as stated, fails: with exponent 0 the initial [r = 1n] is returned
    unreduced, also for modulus 1; and [%] keeps the sign of a negative
    base. *)
Lemma modPow_range_counterexample :
  ~ (0 <= UPE.modPow 2 0 1 < 1) /\ ~ (0 <= UPE.modPow (-1) 1 5 < 5) /\
  ~ (0 <= Solid.modPow 2 0 1 < 1) /\ ~ (0 <= Solid.modPow (-1) 1 5 < 5).
Proof. vm_compute. repeat split; intros [H1 H2]; congruence. Qed.

(** C4.  For every [n >= 0], each [isqrt] (bit by bit in the calculator and
    in FactoriX, Newton's iteration in the recursive factorizer) returns [r]
    with [r*r <= n < (r+1)*(r+1)]. *)
Theorem isqrt_floor n :
  0 <= n ->
  (exists r, UPE.isqrt n = Ok r /\ r * r <= n < (r + 1) * (r + 1)) /\
  (exists r, FactoriX.isqrt n = Ok r /\ r * r <= n < (r + 1) * (r + 1)) /\
  (exists r, Solid.isqrt n = Ok r /\ r * r <= n < (r + 1) * (r + 1)).
Proof.
  intros Hn.
  assert (Hbit : exists r, UPE.isqrt n = Ok r /\ FactoriX.isqrt n = Ok r /\
                           r * r <= n < (r + 1) * (r + 1)).
  { unfold UPE.isqrt, FactoriX.isqrt.
    destruct (Z.ltb_spec n 0); [lia|].
    destruct (Z.ltb_spec n 2).
    - exists n. repeat split; nia.
    - eexists. split; [reflexivity|]. split; [reflexivity|].
      apply bitwise_isqrt_spec. lia. }
  destruct Hbit as (r & H1 & H2 & Hr).
  split; [exists r; auto|]. split; [exists r; auto|].
  exists (Z.sqrt n). split; [apply newton_isqrt_spec; exact Hn|].
  pose proof (Z.sqrt_spec n Hn) as Hs. cbv zeta in Hs. lia.
Qed.

Lemma isqrt_floor_witness :
  0 <= 5184286 /\
  (exists r, UPE.isqrt 5184286 = Ok r /\ r * r <= 5184286 < (r + 1) * (r + 1)) /\
  (exists r, FactoriX.isqrt 5184286 = Ok r /\ r * r <= 5184286 < (r + 1) * (r + 1)) /\
  (exists r, Solid.isqrt 5184286 = Ok r /\ r * r <= 5184286 < (r + 1) * (r + 1)).
Proof.
  split; [lia|]. apply (isqrt_floor 5184286). lia.
Defined.

(** ** Miller-Rabin on a prime *)

Lemma land_1_eqb_even d : (Z.land d 1 =? 0) = negb (Z.odd d).
Proof.
  rewrite <- land_1_truthy. unfold JS.truthy.
  destruct (Z.land d 1 =? 0); reflexivity.
Qed.

Lemma splitLoop_S fuel d s :
  UPE.splitLoop (S fuel) d s =
  if Z.land d 1 =? 0 then UPE.splitLoop fuel (Z.shiftr d 1) (s + 1) else (d, s).
Proof. reflexivity. Qed.

(** The loop writes [d0 * 2 ^ s0] as [d * 2 ^ s] with [d] odd. *)
Lemma splitLoop_spec :
  forall (fuel : nat) d0 s0,
    0 < d0 < 2 ^ Z.of_nat fuel -> 0 <= s0 ->
    forall d s, UPE.splitLoop (S fuel) d0 s0 = (d, s) ->
    Z.odd d = true /\ 0 < d /\ s0 <= s /\ d0 = d * 2 ^ (s - s0).
Proof.
  induction fuel as [|fuel IH]; intros d0 s0 Hd0 Hs0 d s Heq.
  - simpl in Hd0. lia.
  - rewrite splitLoop_S, land_1_eqb_even, shiftr_1_half in Heq.
    destruct (Z.odd d0) eqn:Hodd; cbn [negb] in Heq.
    + inversion Heq; subst. rewrite Z.sub_diag, Z.pow_0_r, Z.mul_1_r.
      repeat split; try assumption; lia.
    + pose proof (Z.div_mod d0 2 ltac:(lia)) as Hdm.
      rewrite Zmod_odd, Hodd in Hdm.
      assert (Hhalf := half_lt_pow2 d0 fuel ltac:(lia)).
      apply IH in Heq; [|lia|lia].
      destruct Heq as (Ho & Hpos & Hle & Hval).
      repeat split; try assumption; try lia.
      replace (s - s0) with (Z.succ (s - (s0 + 1))) by lia.
      rewrite Z.pow_succ_r by lia. lia.
Qed.

Lemma trialLoop_S fuel n s r x :
  UPE.trialLoop (S fuel) n s r x =
  if r <? s then
    if Z.rem (x * x) n =? n - 1 then true
    else UPE.trialLoop fuel n s (r + 1) (Z.rem (x * x) n)
  else false.
Proof. reflexivity. Qed.

Lemma squareLoop_trialLoop fuel n s r x :
  Solid.squareLoop fuel n s r x = UPE.trialLoop fuel n s r x.
Proof.
  revert r x. induction fuel as [|fuel IH]; intros r x; [reflexivity|].
  simpl. rewrite IH. reflexivity.
Qed.

Lemma passes_trial n d s a : Solid.passes n d s a = UPE.trial n d s a.
Proof.
  unfold Solid.passes, UPE.trial.
  rewrite Solid_modPow_eq, squareLoop_trialLoop. reflexivity.
Qed.

Section MillerRabinPrime.

Variable n : Z.
Hypothesis Hprime : Z.prime n.

Let Hn2 : 2 <= n := Z.prime_ge_2 n Hprime.

Lemma divide_small y : (n | y) -> - n < y < n -> y = 0.
Proof.
  intros [k Hk] Hy. pose proof Hn2.
  destruct (Z.eq_dec k 0) as [->|Hk0]; [lia|].
  assert (k <= -1 \/ 1 <= k) as [Hneg|Hpos] by lia; nia.
Qed.

(** Modulo a prime, 1 has the square roots 1 and [n - 1] only. *)
Lemma sqrt_one_mod_prime x :
  0 <= x < n -> (x * x) mod n = 1 -> x = 1 \/ x = n - 1.
Proof.
  intros Hx Hsq.
  assert (Hdiv : (n | (x - 1) * (x + 1))).
  { exists (x * x / n).
    pose proof (Z.div_mod (x * x) n ltac:(lia)) as Hdm.
    rewrite Hsq in Hdm. lia. }
  apply Z.divide_prime_mul in Hdiv; [|exact Hprime].
  destruct Hdiv as [H1|H2].
  - left. apply divide_small in H1; lia.
  - right. destruct H2 as [k Hk].
    assert (k = 1) by nia. lia.
Qed.

(** If the [2^s]-th power of [x] is 1, then [x] is 1 or one of the
    squarings before the [s]-th gives [n - 1]. *)
Lemma root_chain :
  forall (s : nat) x,
    0 <= x < n ->
    x ^ (2 ^ Z.of_nat s) mod n = 1 ->
    x = 1 \/ exists i, 0 <= i < Z.of_nat s /\ x ^ (2 ^ i) mod n = n - 1.
Proof.
  induction s as [|s IH]; intros x Hx Hpow.
  - left. change (2 ^ Z.of_nat 0) with 1 in Hpow.
    rewrite Z.pow_1_r, Z.mod_small in Hpow; lia.
  - assert (Hsq : forall i, 0 <= i ->
              (x * x mod n) ^ (2 ^ i) mod n = x ^ (2 ^ (i + 1)) mod n).
    { intros i Hi. rewrite Z.mod_pow_l.
      rewrite <- Z.pow_2_r, <- Z.pow_mul_r; [|lia|apply Z.pow_nonneg; lia].
      rewrite <- Z.pow_succ_r by lia. reflexivity. }
    destruct (IH (x * x mod n)) as [Hone|(i & Hi & Hval)].
    + apply Z.mod_pos_bound. lia.
    + rewrite Hsq by lia.
      replace (Z.of_nat s + 1) with (Z.of_nat (S s)) by lia. exact Hpow.
    + apply sqrt_one_mod_prime in Hone; [|exact Hx].
      destruct Hone as [H1|H2]; [left; exact H1|].
      right. exists 0. split; [lia|].
      change (2 ^ 0) with 1. rewrite Z.pow_1_r, Z.mod_small; lia.
    + right. exists (i + 1). split; [lia|].
      rewrite <- Hsq by lia. exact Hval.
Qed.

Lemma trialLoop_hits s :
  forall (fuel : nat) r x i,
    0 <= x < n ->
    1 <= i -> i <= Z.of_nat fuel -> r + i <= s ->
    x ^ (2 ^ i) mod n = n - 1 ->
    UPE.trialLoop fuel n s r x = true.
Proof.
  induction fuel as [|fuel IH]; intros r x i Hx Hi Hfuel Hr Hval; [lia|].
  rewrite trialLoop_S.
  destruct (Z.ltb_spec r s); [|lia].
  rewrite Z.rem_mod_nonneg by nia.
  destruct (Z.eqb_spec (x * x mod n) (n - 1)) as [|Hne]; [reflexivity|].
  assert (i <> 1).
  { intros ->. change (2 ^ 1) with 2 in Hval.
    rewrite Z.pow_2_r in Hval. contradiction. }
  apply (IH (r + 1) (x * x mod n) (i - 1)); try lia.
  - apply Z.mod_pos_bound. lia.
  - rewrite Z.mod_pow_l.
    rewrite <- Z.pow_2_r, <- Z.pow_mul_r; [|lia|apply Z.pow_nonneg; lia].
    rewrite <- Z.pow_succ_r by lia.
    replace (Z.succ (i - 1)) with i by lia. exact Hval.
Qed.

Variables d s : Z.
Hypothesis Hodd : 0 < d.
Hypothesis Hs : 0 <= s.
Hypothesis Hsplit : n - 1 = d * 2 ^ s.

(** Every non-negative base passes the trial of a prime. *)
Lemma trial_prime a : 0 <= a -> UPE.trial n d s a = true.
Proof.
  intros Ha. unfold UPE.trial.
  rewrite Z.rem_mod_nonneg by lia.
  destruct (Z.eqb_spec (a mod n) 0) as [|Hnz]; [reflexivity|].
  rewrite modPow_spec by lia.
  set (x := a ^ d mod n).
  assert (Hx : 0 <= x < n) by (apply Z.mod_pos_bound; lia).
  assert (Hpow : x ^ (2 ^ Z.of_nat (Z.to_nat s)) mod n = 1).
  { rewrite Z2Nat.id by lia. unfold x.
    rewrite Z.mod_pow_l, <- Z.pow_mul_r; [|lia|apply Z.pow_nonneg; lia].
    rewrite <- Hsplit. apply Z.fermat_nz; assumption. }
  apply root_chain in Hpow; [|exact Hx].
  rewrite Z2Nat.id in Hpow by lia.
  destruct Hpow as [H1|(i & Hi & Hval)].
  - rewrite H1. reflexivity.
  - destruct (Z.eq_dec i 0) as [->|Hi0].
    + change (2 ^ 0) with 1 in Hval.
      rewrite Z.pow_1_r, Z.mod_small in Hval by lia.
      rewrite Hval, Z.eqb_refl, orb_true_r. reflexivity.
    + destruct ((x =? 1) || (x =? n - 1)); [reflexivity|].
      apply (trialLoop_hits s (Z.to_nat s) 1 x i); try lia.
Qed.

Lemma fixedLoop_prime rounds :
  forall bases cnt,
    Forall (fun a => 0 <= a) bases ->
    UPE.fixedLoop bases n d s rounds cnt <> inl false.
Proof.
  induction bases as [|a bases IH]; intros cnt Hall; [discriminate|].
  inversion Hall; subst. simpl.
  rewrite trial_prime by assumption. simpl.
  destruct (cnt + 1 >=? rounds); [discriminate|]. apply IH. assumption.
Qed.

Lemma rnd32_nonneg seed : 0 <= UPE.rnd32 seed.
Proof. unfold UPE.rnd32. apply Z.land_nonneg. right. lia. Qed.

Lemma randomLoop_prime rounds :
  3 < n ->
  forall (fuel : nat) cnt seed,
    UPE.randomLoop fuel n d s rounds cnt seed = true.
Proof.
  intros Hbig. induction fuel as [|fuel IH]; intros cnt seed; [reflexivity|].
  cbn [UPE.randomLoop].
  destruct (cnt <? rounds); [|reflexivity].
  pose proof (rnd32_nonneg seed) as Hseed.
  set (seed' := UPE.rnd32 seed) in *.
  destruct (Z.ltb_spec 0 (n - 3)); [|lia].
  assert (Hrem : 0 <= Z.rem seed' (n - 3)) by (apply Z.rem_nonneg; lia).
  set (a0 := 2 + Z.rem seed' (n - 3)) in *.
  assert (Hrem2 : 0 <= Z.rem a0 (n - 2)) by (apply Z.rem_nonneg; lia).
  rewrite trial_prime; [apply IH|].
  destruct (a0 >=? n); lia.
Qed.

End MillerRabinPrime.

Lemma prime_divisor_eq n p : Z.prime n -> 1 < p -> Z.rem n p = 0 -> n = p.
Proof.
  intros Hn Hp Hrem. pose proof (Z.prime_ge_2 n Hn).
  rewrite Z.rem_mod_nonneg in Hrem by lia.
  apply Z.mod_divide in Hrem; [|lia].
  destruct (Z.divide_prime_r p n Hn Hrem) as [H1|[H1|[H1|H1]]]; lia.
Qed.

Lemma UPE_smallLoop_prime n ps :
  Z.prime n -> Forall (fun p => 1 < p) ps ->
  UPE.smallLoop ps n = Some true \/
  (UPE.smallLoop ps n = None /\ Forall (fun p => n <> p) ps).
Proof.
  intros Hn. induction 1 as [|p ps Hp Hps IH]; [right; split; [reflexivity|constructor]|].
  simpl. destruct (Z.eqb_spec n p) as [|Hne]; [left; reflexivity|].
  destruct (Z.eqb_spec (Z.rem n p) 0) as [Hrem|_].
  - exfalso. apply Hne. apply prime_divisor_eq; assumption.
  - destruct IH as [IH|[IH1 IH2]]; [left; exact IH|].
    right. split; [exact IH1|]. constructor; assumption.
Qed.

Lemma Solid_smallLoop_prime n ps :
  Z.prime n -> Forall (fun p => 1 < p) ps ->
  Solid.smallLoop ps n = Some true \/
  (Solid.smallLoop ps n = None /\ Forall (fun p => n <> p) ps).
Proof.
  intros Hn. induction 1 as [|p ps Hp Hps IH]; [right; split; [reflexivity|constructor]|].
  simpl. destruct (Z.eqb_spec (Z.rem n p) 0) as [Hrem|Hrem].
  - left. rewrite (prime_divisor_eq n p Hn Hp Hrem), Z.eqb_refl. reflexivity.
  - destruct IH as [IH|[IH1 IH2]]; [left; exact IH|].
    right. split; [exact IH1|]. constructor; [|assumption].
    intros Heq. apply Hrem. rewrite Heq. apply Z.rem_same. lia.
Qed.

Lemma split_prime n d s :
  3 < n -> UPE.splitLoop (JS.bitFuel (n - 1)) (n - 1) 0 = (d, s) ->
  0 < d /\ 0 <= s /\ n - 1 = d * 2 ^ s.
Proof.
  intros Hn Heq. unfold JS.bitFuel in Heq.
  assert (Hrange : 0 < n - 1 < 2 ^ Z.of_nat (Z.to_nat (Z.log2 (n - 1) + 1)))
    by (split; [lia|apply bitFuel_enough; lia]).
  destruct (splitLoop_spec _ _ 0 Hrange ltac:(lia) d s Heq) as (_ & Hd & Hs & Hval).
  rewrite Z.sub_0_r in Hval. auto.
Qed.

Lemma prime_by_trial p : 1 < p -> noDivisor p = true -> Z.prime p.
Proof.
  intros Hp Hall. split; [exact Hp|].
  intros k Hk Hdiv.
  unfold noDivisor in Hall. rewrite forallb_forall in Hall.
  specialize (Hall (Z.to_nat k)).
  rewrite Z2Nat.id in Hall by lia.
  apply Z.mod_divide in Hdiv; [|lia].
  rewrite Hdiv in Hall. discriminate Hall.
  apply in_seq. lia.
Qed.

(** ** Claim on the primality tests *)

(** C2.  On a prime [n], [isProbablePrime n rounds] answers "probably prime"
    for every round count, and so does [isPrime64 n]: the answer "composite"
    is never given for a prime. *)
Theorem miller_rabin_accepts_primes n :
  Z.prime n ->
  (forall rounds, UPE.isProbablePrime n rounds = true) /\
  (forall rounds, FactoriX.isProbablePrime n rounds = true) /\
  Solid.isPrime64 n = true.
Proof.
  intros Hn. pose proof (Z.prime_ge_2 n Hn) as Hn2.
  assert (Hupe : forall rounds, UPE.isProbablePrime n rounds = true).
  { intros rounds. unfold UPE.isProbablePrime.
    destruct (Z.ltb_spec n 2); [lia|].
    destruct (UPE_smallLoop_prime n UPE.small Hn) as [Hs|[Hs Hne]].
    { unfold UPE.small. repeat constructor. }
    - rewrite Hs. reflexivity.
    - rewrite Hs.
      assert (3 < n).
      { unfold UPE.small in Hne. inversion Hne as [|? ? H2 Hne']; subst.
        inversion Hne' as [|? ? H3 _]; subst. lia. }
      fold (UPE.split n). unfold UPE.split.
      destruct (UPE.splitLoop _ _ _) as [d s] eqn:Hsplit.
      apply split_prime in Hsplit; [|assumption].
      destruct Hsplit as (Hd & Hs0 & Hval).
      destruct (UPE.fixedLoop UPE.fixed n d s rounds 0) as [[|]|cnt] eqn:Hfixed.
      + reflexivity.
      + exfalso. revert Hfixed.
        apply fixedLoop_prime; try assumption.
        unfold UPE.fixed. repeat constructor; lia.
      + apply randomLoop_prime; assumption. }
  split; [exact Hupe|]. split; [exact Hupe|].
  unfold Solid.isPrime64.
  destruct (Z.ltb_spec n 2); [lia|].
  destruct (Solid_smallLoop_prime n Solid.small Hn) as [Hs|[Hs Hne]].
  { unfold Solid.small. repeat constructor. }
  - rewrite Hs. reflexivity.
  - rewrite Hs.
    assert (3 < n).
    { unfold Solid.small in Hne. inversion Hne as [|? ? H2 Hne']; subst.
      inversion Hne' as [|? ? H3 _]; subst. lia. }
    destruct (UPE.splitLoop _ _ _) as [d s] eqn:Hsplit.
    apply split_prime in Hsplit; [|assumption].
    destruct Hsplit as (Hd & Hs0 & Hval).
    apply forallb_forall. intros a Ha.
    rewrite passes_trial.
    apply trial_prime; try assumption.
    unfold Solid.bases in Ha. simpl in Ha. intuition lia.
Qed.

Lemma miller_rabin_accepts_primes_witness :
  Z.prime 7919 /\
  (forall rounds, UPE.isProbablePrime 7919 rounds = true) /\
  (forall rounds, FactoriX.isProbablePrime 7919 rounds = true) /\
  Solid.isPrime64 7919 = true.
Proof.
  assert (H : Z.prime 7919) by (apply prime_by_trial; [lia | vm_compute; reflexivity]).
  split; [exact H|]. apply (miller_rabin_accepts_primes 7919 H).
Defined.

(** ** Claim on the admissibility filters *)

Lemma singleLoop_prime (S : list Z) y :
  Forall Z.prime S -> Z.prime y -> UPE.singleLoop S y = true.
Proof.
  intros HS Hy. induction HS as [|sb S Hsb HS IH]; [reflexivity|].
  simpl. destruct (Z.eqb_spec y sb) as [|Hne]; [reflexivity|].
  destruct (Z.eqb_spec (Z.rem y sb) 0) as [Hrem|_]; [|exact IH].
  exfalso. apply Hne. apply prime_divisor_eq; try assumption.
  pose proof (Z.prime_ge_2 sb Hsb). lia.
Qed.

Lemma pairLoop_prime (S : list Z) a b :
  Forall Z.prime S -> Z.prime a -> Z.prime b -> UPE.pairLoop S a b = true.
Proof.
  intros HS Ha Hb. induction HS as [|sb S Hsb HS IH]; [reflexivity|].
  simpl. pose proof (Z.prime_ge_2 sb Hsb).
  destruct (Z.eqb_spec a sb) as [|Hna]; [exact IH|].
  destruct (Z.eqb_spec b sb) as [|Hnb]; [exact IH|].
  cbn [orb].
  destruct (Z.eqb_spec (Z.rem a sb) 0) as [Hrem|_].
  { exfalso. apply Hna. apply prime_divisor_eq; try assumption. lia. }
  destruct (Z.eqb_spec (Z.rem b sb) 0) as [Hrem|_].
  { exfalso. apply Hnb. apply prime_divisor_eq; try assumption. lia. }
  exact IH.
Qed.

Lemma prime_even_is_2 y : Z.prime y -> Z.rem y 2 = 0 -> y = 2.
Proof. intros Hy Hrem. apply prime_divisor_eq; try assumption. lia. Qed.

Lemma pair_filter_prime (S : list Z) x t :
  Forall Z.prime S -> Z.prime (x - t) -> Z.prime (x + t) ->
  UPE.admissibleGoldbach x t S = true.
Proof.
  intros HS Ha Hb. unfold UPE.admissibleGoldbach.
  pose proof (Z.prime_ge_2 _ Ha). pose proof (Z.prime_ge_2 _ Hb).
  destruct (Z.ltb_spec (x - t) 2); [lia|].
  destruct (Z.ltb_spec (x + t) 2); [lia|].
  cbn [orb].
  assert (Ea : (Z.rem (x - t) 2 =? 0) && negb (x - t =? 2) = false).
  { destruct (Z.eqb_spec (Z.rem (x - t) 2) 0) as [Hrem|]; [|reflexivity].
    rewrite (prime_even_is_2 _ Ha Hrem). reflexivity. }
  assert (Eb : (Z.rem (x + t) 2 =? 0) && negb (x + t =? 2) = false).
  { destruct (Z.eqb_spec (Z.rem (x + t) 2) 0) as [Hrem|]; [|reflexivity].
    rewrite (prime_even_is_2 _ Hb Hrem). reflexivity. }
  rewrite Ea, Eb. cbn [orb].
  apply pairLoop_prime; assumption.
Qed.

(** C3.  No filter rejects a prime.  For every center, every list [S] of
    primes and every offset: [admissibleSingle] accepts when the candidate
    is prime, [admissibleGoldbach] accepts when both candidates are prime,
    and so does [admissibleAroundSqrt] whenever [state.abort] is off.  The
    flag is off at every call: [factorize] tests it in the same synchronous
    segment just before its only call of the filter, so for every course of
    the flag the loop body at an offset whose two candidates are prime does
    with the prefilter on what it does with the prefilter off. *)
Theorem admissible_accepts_primes (X u x t : Z) (S : list Z) :
  Forall Z.prime S ->
  (Z.prime (X + u) -> UPE.admissibleSingle X u S = true) /\
  (Z.prime (x - t) -> Z.prime (x + t) -> UPE.admissibleGoldbach x t S = true) /\
  (Z.prime (x - t) -> Z.prime (x + t) ->
   FactoriX.admissibleAroundSqrt false x t S = true) /\
  (Z.prime (x - t) -> Z.prime (x + t) ->
   forall (abort : nat -> bool) (N T ring checked steps : Z) (yields : nat)
          (log : list UPE.event),
     FactoriX.scanRing abort [t] true S N x T ring checked steps yields log
     = FactoriX.scanRing abort [t] false S N x T ring checked steps yields log).
Proof.
  intros HS. split; [|split; [|split]].
  - intros Hp. unfold UPE.admissibleSingle.
    pose proof (Z.prime_ge_2 _ Hp).
    destruct (Z.ltb_spec (X + u) 2); [lia|].
    destruct (Z.eqb_spec (Z.rem (X + u) 2) 0) as [Hrem|_].
    + rewrite (prime_even_is_2 _ Hp Hrem). reflexivity.
    + apply singleLoop_prime; assumption.
  - apply pair_filter_prime; assumption.
  - intros Ha Hb. apply (pair_filter_prime S x t HS Ha Hb).
  - intros Ha Hb abort N T ring checked steps yields log.
    cbn [FactoriX.scanRing].
    destruct (abort yields); [reflexivity|].
    destruct ((ring >? 0) && (Z.abs t <? (ring - 1) * T)); [reflexivity|].
    assert (Hacc : FactoriX.admissibleAroundSqrt false x t S = true)
      by apply (pair_filter_prime S x t HS Ha Hb).
    rewrite Hacc. reflexivity.
Qed.

Lemma prime_13 : Z.prime 13.
Proof. apply prime_by_trial; [lia | vm_compute; reflexivity]. Qed.

Lemma prime_17 : Z.prime 17.
Proof. apply prime_by_trial; [lia | vm_compute; reflexivity]. Qed.

Lemma primes_2_3 : Forall Z.prime [2; 3].
Proof.
  constructor; [exact Z.prime_2|]. constructor; [exact Z.prime_3|]. constructor.
Qed.

Lemma admissible_accepts_primes_witness :
  Forall Z.prime [2; 3] /\ Z.prime (15 - 2) /\ Z.prime (15 + 2) /\
  UPE.admissibleSingle 15 2 [2; 3] = true /\
  UPE.admissibleGoldbach 15 2 [2; 3] = true /\
  FactoriX.admissibleAroundSqrt false 15 2 [2; 3] = true /\
  FactoriX.scanRing (fun k => Nat.eqb k 3) [2] true [2; 3] 255 15 2 1 1 0 1 []
  = FactoriX.scanRing (fun k => Nat.eqb k 3) [2] false [2; 3] 255 15 2 1 1 0 1 [].
Proof.
  destruct (admissible_accepts_primes 15 2 15 2 [2; 3] primes_2_3) as (H1 & H2 & H3 & H4).
  pose proof (H4 prime_13 prime_17 (fun k => Nat.eqb k 3) 255 2 1 1 0 1%nat []) as H5.
  exact (conj primes_2_3 (conj prime_13 (conj prime_17
          (conj (H1 prime_17) (conj (H2 prime_13 prime_17)
            (conj (H3 prime_13 prime_17) H5)))))).
Defined.

(** ** The recursive factorizer *)

Lemma fold_mul_acc l : forall acc, fold_left Z.mul l acc = acc * fold_left Z.mul l 1.
Proof.
  induction l as [|v l IH]; intros acc; cbn [fold_left]; [lia|].
  rewrite (IH (acc * v)), (IH (1 * v)). lia.
Qed.

Lemma product_app l1 l2 : Solid.product (l1 ++ l2) = Solid.product l1 * Solid.product l2.
Proof. unfold Solid.product. rewrite fold_left_app. apply fold_mul_acc. Qed.

Lemma product_single v : Solid.product [v] = v.
Proof. unfold Solid.product. cbn [fold_left]. lia. Qed.

(** On non-negative arguments the Euclidean loop returns the gcd. *)
Lemma gcd_spec :
  forall (fuel : nat) a b g,
    0 <= a -> 0 <= b -> Solid.gcd fuel a b = Ok g -> g = Z.gcd a b.
Proof.
  induction fuel as [|fuel IH]; intros a b g Ha Hb Heq; [discriminate|].
  simpl in Heq. unfold JS.truthy in Heq.
  destruct (Z.eqb_spec b 0) as [->|Hb0]; cbn [negb] in Heq.
  - inversion Heq; subst. rewrite Z.gcd_0_r. lia.
  - apply IH in Heq; [|lia|apply Z.rem_nonneg; lia].
    rewrite Heq, Z.rem_mod_nonneg by lia.
    rewrite Z.gcd_comm, Z.gcd_mod by lia. apply Z.gcd_comm.
Qed.

Lemma gcd_divisorOf fuel a n g :
  0 <= a -> 0 < n -> Solid.gcd fuel a n = Ok g -> divisorOf n g.
Proof.
  intros Ha Hn Heq. apply gcd_spec in Heq; [|lia|lia]. subst g. split.
  - pose proof (Z.gcd_nonneg a n).
    destruct (Z.eq_dec (Z.gcd a n) 0) as [H0|]; [|lia].
    apply Z.gcd_eq_0_r in H0. lia.
  - apply Z.gcd_divide_r.
Qed.

Lemma accumulate_nonneg n c x :
  0 < n ->
  forall (turns : nat) y q, 0 <= q -> 0 <= snd (Solid.accumulate turns n c x y q).
Proof.
  intros Hn. induction turns as [|turns IH]; intros y q Hq; [exact Hq|].
  cbn [Solid.accumulate]. apply IH.
  apply Z.rem_nonneg; [lia|].
  apply Z.mul_nonneg_nonneg; [exact Hq|].
  apply Z.rem_nonneg; [lia|].
  destruct (Z.gtb_spec x (Z.rem (y * y + c) n)); lia.
Qed.

Section RhoBrent.

Variable rnd : nat -> Z.
Variable n : Z.
Hypothesis Hn : 0 < n.

Lemma inner_divisor c m x r :
  forall (fuel : nat) k y q g ys y' q' g' ys',
    0 <= q -> divisorOf n g ->
    Solid.inner fuel n c m x r k y q g ys = Ok (y', q', g', ys') ->
    0 <= q' /\ divisorOf n g'.
Proof.
  induction fuel as [|fuel IH]; intros k y q g ys y' q' g' ys' Hq Hg Heq;
    [discriminate|].
  cbn [Solid.inner] in Heq.
  destruct ((k <? r) && (g =? 1)).
  - pose proof (accumulate_nonneg n c x Hn
                  (Z.to_nat (if m <? r - k then m else r - k)) y q Hq) as Hacc.
    destruct (Solid.accumulate _ n c x y q) as [y1 q1]. cbn [snd] in Hacc.
    destruct (Solid.gcd fuel q1 n) as [g1| |] eqn:Hgcd; try discriminate.
    cbn [bind] in Heq.
    apply (IH _ _ _ _ _ _ _ _ _ Hacc (gcd_divisorOf _ _ _ _ Hacc Hn Hgcd) Heq).
  - inversion Heq; subst. split; assumption.
Qed.

Lemma outer_divisor c m :
  forall (fuel : nat) y g r q x ys g' x' ys',
    0 <= q -> divisorOf n g ->
    Solid.outer fuel n c m y g r q x ys = Ok (g', x', ys') ->
    divisorOf n g'.
Proof.
  induction fuel as [|fuel IH]; intros y g r q x ys g' x' ys' Hq Hg Heq;
    [discriminate|].
  cbn [Solid.outer] in Heq.
  destruct (g =? 1).
  - destruct (Solid.inner fuel n c m y r 0 _ q g ys) as [[[[y2 q2] g2] ys2]| |] eqn:Hin;
      try discriminate.
    cbn [bind] in Heq.
    destruct (inner_divisor _ _ _ _ _ _ _ _ _ _ _ _ _ _ Hq Hg Hin) as [Hq2 Hg2].
    apply (IH _ _ _ _ _ _ _ _ _ Hq2 Hg2 Heq).
  - inversion Heq; subst. assumption.
Qed.

Lemma backtrack_divisor c x :
  forall (fuel : nat) ys g,
    Solid.backtrack fuel n c x ys = Ok g -> divisorOf n g.
Proof.
  induction fuel as [|fuel IH]; intros ys g Heq; [discriminate|].
  cbn [Solid.backtrack] in Heq.
  set (ys1 := Z.rem (ys * ys + c) n) in *.
  destruct (Solid.gcd fuel _ n) as [g1| |] eqn:Hgcd; try discriminate.
  cbn [bind] in Heq.
  destruct (g1 =? 1).
  - apply (IH _ _ Heq).
  - inversion Heq; subst.
    refine (gcd_divisorOf _ _ _ _ _ Hn Hgcd).
    destruct (Z.gtb_spec x ys1); lia.
Qed.

Lemma rhoBrent_divisor fuel k g k' :
  Solid.rhoBrent rnd fuel n k = Ok (g, k') -> divisorOf n g.
Proof.
  unfold Solid.rhoBrent. intros Heq.
  destruct (Z.eqb_spec (Z.rem n 2) 0) as [Hrem|_].
  - inversion Heq; subst. split; [lia|].
    rewrite Z.rem_mod_nonneg in Hrem by lia.
    apply Z.mod_divide; lia.
  - destruct (Solid.outer fuel n _ _ _ 1 1 1 0 0) as [[[g1 x1] ys1]| |] eqn:Hout;
      try discriminate.
    cbn [bind] in Heq.
    assert (Hg1 : divisorOf n g1).
    { refine (outer_divisor _ _ _ _ _ _ _ _ _ _ _ _ _ _ Hout); [lia|].
      split; [lia|exists n; lia]. }
    destruct (g1 =? n).
    + destruct (Solid.backtrack fuel n _ x1 ys1) as [g2| |] eqn:Hback; try discriminate.
      cbn [bind] in Heq. inversion Heq; subst.
      apply (backtrack_divisor _ _ _ _ _ Hback).
    + inversion Heq; subst. assumption.
Qed.

Lemma split_divisor :
  forall (fuel : nat) k d k', Solid.split rnd fuel n k = Ok (d, k') -> divisorOf n d.
Proof.
  induction fuel as [|fuel IH]; intros k d k' Heq; [discriminate|].
  cbn [Solid.split] in Heq.
  destruct (Solid.rhoBrent rnd fuel n k) as [[d1 k1]| |] eqn:Hrho; try discriminate.
  cbn [bind] in Heq.
  destruct (d1 =? n).
  - apply (IH _ _ _ Heq).
  - inversion Heq; subst. apply (rhoBrent_divisor _ _ _ _ Hrho).
Qed.

End RhoBrent.

Lemma fermatLoop_factors n :
  forall (turns : nat) a p q,
    Solid.fermatLoop turns n a = Ok (Some (p, q)) -> 1 < p /\ 1 < q /\ p * q = n.
Proof.
  induction turns as [|turns IH]; intros a p q Heq; [discriminate|].
  cbn [Solid.fermatLoop] in Heq.
  destruct (Solid.isqrt (a * a - n)) as [b| |]; try discriminate.
  cbn [bind] in Heq.
  destruct (b * b =? a * a - n); [|apply (IH _ _ _ Heq)].
  destruct (Z.gtb_spec (a - b) 1); [|apply (IH _ _ _ Heq)].
  destruct (Z.gtb_spec (a + b) 1); [|apply (IH _ _ _ Heq)].
  destruct (Z.eqb_spec ((a - b) * (a + b)) n); [|apply (IH _ _ _ Heq)].
  inversion Heq; subst. auto.
Qed.

Lemma fermatFactor_factors n maxSteps p q :
  Solid.fermatFactor n maxSteps = Ok (Some (p, q)) -> 1 < p /\ 1 < q /\ p * q = n.
Proof.
  unfold Solid.fermatFactor. intros Heq.
  destruct (Solid.isqrt n) as [a| |]; try discriminate.
  cbn [bind] in Heq. apply (fermatLoop_factors _ _ _ _ _ Heq).
Qed.

Lemma sieve47_divisor n p :
  1 <= n -> find (fun p => Z.rem n p =? 0) Solid.sieve47 = Some p -> divisorOf n p.
Proof.
  intros Hn Hfind. apply find_some in Hfind. destruct Hfind as [Hin Hrem].
  apply Z.eqb_eq in Hrem.
  assert (Hp : 1 < p) by (unfold Solid.sieve47 in Hin; simpl in Hin; intuition lia).
  split; [lia|].
  rewrite Z.rem_mod_nonneg in Hrem by lia. apply Z.mod_divide; lia.
Qed.

Lemma divisorOf_quot n d :
  1 <= n -> divisorOf n d -> 1 <= d /\ 1 <= Z.quot n d /\ d * Z.quot n d = n.
Proof.
  intros Hn [Hd [k Hk]]. subst n.
  rewrite Z.quot_mul by lia. nia.
Qed.

(** What a completed call of [factor] appended to [out]. *)
Lemma factor_appends rnd :
  forall (fuel : nat) n out k out' k',
    1 <= n ->
    Solid.factor rnd fuel n out k = Ok (out', k') ->
    exists l, out' = out ++ l /\ Solid.product l = n /\ allPrime64 l.
Proof.
  assert (Hseq : forall fuel,
    (forall n out k out' k', 1 <= n ->
       Solid.factor rnd fuel n out k = Ok (out', k') ->
       exists l, out' = out ++ l /\ Solid.product l = n /\ allPrime64 l) ->
    forall a b out k out' k', 1 <= a -> 1 <= b ->
      bind (Solid.factor rnd fuel a out k)
           (fun x => let '(out1, k1) := x in Solid.factor rnd fuel b out1 k1) = Ok (out', k') ->
      exists l, out' = out ++ l /\ Solid.product l = a * b /\ allPrime64 l).
  { intros fuel IH a b out k out' k' Ha Hb Heq.
    destruct (Solid.factor rnd fuel a out k) as [[out1 k1]| |] eqn:H1; try discriminate.
    cbn [bind] in Heq.
    destruct (IH _ _ _ _ _ Ha H1) as (l1 & E1 & P1 & A1).
    destruct (IH _ _ _ _ _ Hb Heq) as (l2 & E2 & P2 & A2).
    exists (l1 ++ l2). subst. rewrite app_assoc, product_app.
    repeat split. apply Forall_app. split; assumption. }
  induction fuel as [|fuel IH]; intros n out k out' k' Hn Heq; [discriminate|].
  cbn [Solid.factor] in Heq.
  destruct (Z.eqb_spec n 1) as [->|Hn1].
  { inversion Heq; subst. exists []. rewrite app_nil_r. repeat split. constructor. }
  destruct (Solid.isPrime64 n) eqn:Hprime.
  { inversion Heq; subst. exists [n]. rewrite product_single.
    repeat split. constructor; [exact Hprime|constructor]. }
  destruct (find _ Solid.sieve47) as [p|] eqn:Hfind.
  { apply sieve47_divisor in Hfind; [|exact Hn].
    destruct (divisorOf_quot n p Hn Hfind) as (Hp & Hq & Hpq).
    destruct (Hseq fuel IH p (Z.quot n p) out k out' k' Hp Hq Heq) as (l & E & P & A).
    exists l. rewrite P. auto. }
  destruct (Solid.fermatFactor n 2000000) as [[[p q]|]| |] eqn:Hff; try discriminate;
    cbn [bind] in Heq.
  { apply fermatFactor_factors in Hff. destruct Hff as (Hp & Hq & Hpq).
    destruct (Hseq fuel IH p q out k out' k' ltac:(lia) ltac:(lia) Heq) as (l & E & P & A).
    exists l. rewrite P. auto. }
  destruct (Solid.split rnd fuel n k) as [[d k0]| |] eqn:Hsplit; try discriminate.
  cbn [bind] in Heq.
  apply split_divisor in Hsplit; [|lia].
  destruct (divisorOf_quot n d Hn Hsplit) as (Hd & Hq & Hdq).
  destruct (Hseq fuel IH d (Z.quot n d) out k0 out' k' Hd Hq Heq) as (l & E & P & A).
  exists l. rewrite P. auto.
Qed.

(** ** Claim on the recursive factorizer *)

(** C1.  For every [N >= 1] on which [factorizeBigInt N] returns, whatever
    the random draws, the product of the returned list is [N] and every
    entry passes [isPrime64]. *)
Theorem factorizeBigInt_product_prime (rnd : nat -> Z) (fuel : nat) (N : Z) (res : list Z) :
  1 <= N ->
  Solid.factorizeBigInt rnd fuel N = Ok res ->
  Solid.product res = N /\ Forall (fun p => Solid.isPrime64 p = true) res.
Proof.
  intros HN Heq. unfold Solid.factorizeBigInt in Heq.
  destruct (Solid.factor rnd fuel N [] 0%nat) as [[out k]| |] eqn:Hfac; try discriminate.
  cbn [bind] in Heq. injection Heq as <-.
  destruct (factor_appends rnd _ _ _ _ _ _ HN Hfac) as (l & E & P & A).
  simpl in E. rewrite E. split; [exact P | exact A].
Qed.

Lemma factorizeBigInt_product_prime_witness :
  1 <= 6254 /\
  Solid.factorizeBigInt (fun _ => 0) 8 6254 = Ok [2; 53; 59] /\
  Solid.product [2; 53; 59] = 6254 /\
  Forall (fun p => Solid.isPrime64 p = true) [2; 53; 59].
Proof.
  assert (H1 : 1 <= 6254) by lia.
  assert (H2 : Solid.factorizeBigInt (fun _ => 0) 8 6254 = Ok [2; 53; 59])
    by (vm_compute; reflexivity).
  exact (conj H1 (conj H2
    (factorizeBigInt_product_prime (fun _ => 0) 8 6254 [2; 53; 59] H1 H2))).
Defined.

(** ** The windowed searches *)

(** C10.  For every even [N], [factorize] returns at once, whatever its other
    arguments and the abort flag: success with [p = 2], [q = N / 2] in phase
    "even", no test made, no comparison of the cofactor with 1; for [N = 2]
    the result is the pair (2, 1). *)
Theorem factorize_even (abort : nat -> bool) (N B T K : Z) (prefilter : bool)
        (mrRounds P : Z) :
  Z.rem N 2 = 0 ->
  FactoriX.factorize abort N B T K prefilter mrRounds P
    = (Ok (FactoriX.Even 2 (Z.quot N 2)), []) /\
  FactoriX.factorize abort 2 B T K prefilter mrRounds P
    = (Ok (FactoriX.Even 2 1), []).
Proof.
  intros Heven. unfold FactoriX.factorize. rewrite Heven. split; reflexivity.
Qed.

Lemma factorize_even_witness :
  Z.rem 2 2 = 0 /\
  FactoriX.factorize (fun _ => false) 2 200000 20000 40 true 12 5
    = (Ok (FactoriX.Even 2 (Z.quot 2 2)), []) /\
  FactoriX.factorize (fun _ => false) 2 200000 20000 40 true 12 5
    = (Ok (FactoriX.Even 2 1), []).
Proof.
  split; [reflexivity|].
  apply (factorize_even (fun _ => false) 2 200000 20000 40 true 12 5). reflexivity.
Defined.

Lemma ring0_app log1 log2 : ring0 (log1 ++ log2) = ring0 log1 ++ ring0 log2.
Proof. apply filter_app. Qed.

Lemma ring0_snoc_other log ring u y :
  ring <> 0 -> ring0 (log ++ [(ring, u, y)]) = ring0 log.
Proof.
  intros Hr. rewrite ring0_app. unfold ring0 at 2. cbn [filter fst].
  destruct (Z.eqb_spec ring 0); [contradiction|]. apply app_nil_r.
Qed.

Lemma ring0_length_le log : (List.length (ring0 log) <= List.length log)%nat.
Proof. apply filter_length_le. Qed.

(** *** Prime near X and Goldbach pair *)

Lemma scanPrime_cap X S mrRounds :
  forall offs tested log,
    tested = Z.of_nat (List.length log) -> tested < 3 ->
    (List.length (snd (UPE.scanPrime offs X S mrRounds tested log)) <= 3)%nat.
Proof.
  induction offs as [|u offs IH]; intros tested log Hlen Hlt; cbn [UPE.scanPrime].
  - cbn [snd]. lia.
  - destruct (negb (UPE.admissibleSingle X u S)); [apply IH; assumption|].
    assert (Hlen' : tested + 1 = Z.of_nat (List.length (log ++ [(0, u, X + u)]))).
    { rewrite length_app. cbn [List.length]. lia. }
    destruct (UPE.isProbablePrime (X + u) mrRounds); [cbn [snd]; lia|].
    destruct (Z.geb_spec (tested + 1) 3); [cbn [snd]; lia|].
    apply IH; [exact Hlen'|lia].
Qed.

Lemma scanPair_cap x S mrRounds :
  forall offs tested log,
    tested = Z.of_nat (List.length log) -> tested < 3 ->
    (List.length (snd (UPE.scanPair offs x S mrRounds tested log)) <= 3)%nat.
Proof.
  induction offs as [|t offs IH]; intros tested log Hlen Hlt; cbn [UPE.scanPair].
  - cbn [snd]. lia.
  - destruct (negb (UPE.admissibleGoldbach x t S)); [apply IH; assumption|].
    assert (Hlen' : tested + 1 = Z.of_nat (List.length (log ++ [(0, t, x - t)]))).
    { rewrite length_app. cbn [List.length]. lia. }
    destruct (UPE.isProbablePrime (x - t) mrRounds && UPE.isProbablePrime (x + t) mrRounds);
      [cbn [snd]; lia|].
    destruct (Z.geb_spec (tested + 1) 3); [cbn [snd]; lia|].
    apply IH; [exact Hlen'|lia].
Qed.

(** The count a search reports is the number of tests in its log. *)
Lemma scanPrime_count X S mrRounds :
  forall offs tested log,
    tested = Z.of_nat (List.length log) ->
    match UPE.scanPrime offs X S mrRounds tested log with
    | (UPE.PrimeFound _ _ t, log') | (UPE.NoPrime t, log') => t = Z.of_nat (List.length log')
    | _ => False
    end.
Proof.
  induction offs as [|u offs IH]; intros tested log Hlen; cbn [UPE.scanPrime].
  - exact Hlen.
  - destruct (negb (UPE.admissibleSingle X u S)); [apply IH; assumption|].
    assert (Hlen' : tested + 1 = Z.of_nat (List.length (log ++ [(0, u, X + u)]))).
    { rewrite length_app. cbn [List.length]. lia. }
    destruct (UPE.isProbablePrime (X + u) mrRounds); [exact Hlen'|].
    destruct (tested + 1 >=? 3); [exact Hlen'|].
    apply IH. exact Hlen'.
Qed.

Lemma scanPair_count x S mrRounds :
  forall offs tested log,
    tested = Z.of_nat (List.length log) ->
    match UPE.scanPair offs x S mrRounds tested log with
    | (UPE.PairFound _ _ _ t, log') | (UPE.NoPair t, log') => t = Z.of_nat (List.length log')
    | _ => False
    end.
Proof.
  induction offs as [|t offs IH]; intros tested log Hlen; cbn [UPE.scanPair].
  - exact Hlen.
  - destruct (negb (UPE.admissibleGoldbach x t S)); [apply IH; assumption|].
    assert (Hlen' : tested + 1 = Z.of_nat (List.length (log ++ [(0, t, x - t)]))).
    { rewrite length_app. cbn [List.length]. lia. }
    destruct (UPE.isProbablePrime (x - t) mrRounds && UPE.isProbablePrime (x + t) mrRounds);
      [exact Hlen'|].
    destruct (tested + 1 >=? 3); [exact Hlen'|].
    apply IH. exact Hlen'.
Qed.

Lemma runPrimeNearX_cap rawX Pauto Tauto Poverride Toverride mrRounds :
  (List.length (snd (UPE.runPrimeNearX rawX Pauto Tauto Poverride Toverride mrRounds)) <= 3)%nat.
Proof.
  unfold UPE.runPrimeNearX.
  destruct (UPE.parseBigIntExpr rawX) as [err|X lg|lg op c]; try (cbn [snd List.length]; lia).
  destruct (_ && _); [cbn [snd List.length]; lia|].
  apply scanPrime_cap; [reflexivity|lia].
Qed.

Lemma runGoldbach_cap rawE Pauto Tauto Poverride Toverride mrRounds :
  (List.length (snd (UPE.runGoldbach rawE Pauto Tauto Poverride Toverride mrRounds)) <= 3)%nat.
Proof.
  unfold UPE.runGoldbach.
  destruct (UPE.parseBigIntExpr rawE) as [err|E lg|lg op c]; try (cbn [snd List.length]; lia).
  destruct (negb _); [cbn [snd List.length]; lia|].
  destruct (_ && _); [cbn [snd List.length]; lia|].
  apply scanPair_cap; [reflexivity|lia].
Qed.

(** *** Ring 0 of the calculator's factor search *)

Lemma probe_log usePrefilter S N ring u hit y checked log :
  snd (UPE.probe usePrefilter S N ring u hit y checked log) = log \/
  snd (UPE.probe usePrefilter S N ring u hit y checked log) = log ++ [(ring, u, y)].
Proof.
  unfold UPE.probe.
  destruct (UPE.passesPrefilter usePrefilter S y); [|left; reflexivity].
  right. destruct (y =? 0); [reflexivity|].
  destruct (Z.rem N y =? 0); reflexivity.
Qed.

Lemma probe_ring0 usePrefilter S N ring u hit y checked log :
  ring <> 0 ->
  ring0 (snd (UPE.probe usePrefilter S N ring u hit y checked log)) = ring0 log.
Proof.
  intros Hr.
  destruct (probe_log usePrefilter S N ring u hit y checked log) as [E|E]; rewrite E;
    [reflexivity|apply ring0_snoc_other; exact Hr].
Qed.

Lemma UPE_scanRing_ring0 usePrefilter S N X T ring :
  ring <> 0 ->
  forall offs checked log,
    ring0 (snd (UPE.scanRing offs usePrefilter S N X T ring checked log)) = ring0 log.
Proof.
  intros Hr. induction offs as [|u offs IH]; intros checked log; [reflexivity|].
  cbn [UPE.scanRing].
  destruct ((ring >? 0) && (Z.abs u <? (ring - 1) * T)); [apply IH|].
  pose proof (probe_ring0 usePrefilter S N ring u u (X + u) checked log Hr) as Ha.
  destruct (UPE.probe usePrefilter S N ring u u (X + u) checked log) as [[checked1|r] log1];
    cbn [snd] in Ha; [|exact Ha].
  assert (Hb : forall res : UPE.flow Z * list UPE.event,
             res = (if negb (u =? 0)
                    then UPE.probe usePrefilter S N ring u (- u) (X - u) checked1 log1
                    else (UPE.Next checked1, log1)) ->
             ring0 (snd res) = ring0 log).
  { intros res ->. destruct (negb (u =? 0)); [|exact Ha].
    rewrite probe_ring0 by exact Hr. exact Ha. }
  specialize (Hb _ eq_refl).
  destruct (if negb (u =? 0) then _ else _) as [[checked2|r] log2]; cbn [snd] in Hb;
    [|exact Hb].
  destruct ((ring =? 0) && (checked2 >=? 3)); [exact Hb|].
  rewrite IH. exact Hb.
Qed.

Lemma UPE_scanRings_ring0 usePrefilter S N X T K :
  forall (fuel : nat) ring checked log,
    0 < ring ->
    ring0 (snd (UPE.scanRings fuel usePrefilter S N X T K ring checked log)) = ring0 log.
Proof.
  induction fuel as [|fuel IH]; intros ring checked log Hr; [reflexivity|].
  cbn [UPE.scanRings].
  destruct (ring <=? K); [|reflexivity].
  pose proof (UPE_scanRing_ring0 usePrefilter S N X T ring ltac:(lia)
                (UPE.symmetricOffsets (ring * T)) checked log) as Hring.
  destruct (UPE.scanRing _ usePrefilter S N X T ring checked log) as [[checked'|r] log'];
    cbn [snd] in Hring |- *; [|exact Hring].
  rewrite IH by lia. exact Hring.
Qed.

Lemma runFactorization_ring0 rawN P T K usePrefilter mrRounds :
  (List.length (ring0 (snd (UPE.runFactorization rawN P T K usePrefilter mrRounds))) <= 1)%nat.
Proof.
  unfold UPE.runFactorization.
  destruct (UPE.parseBigIntExpr rawN) as [err|N lg|lg op c]; try (cbn; lia).
  destruct (N <? 4); [cbn; lia|].
  destruct (UPE.isqrt N) as [X| |]; try (cbn; lia).
  destruct (Z.to_nat (K + 1)) as [|fuel]; [cbn; lia|].
  cbn [UPE.scanRings].
  destruct (0 <=? K); [|cbn; lia].
  change (0 * T) with 0. change (UPE.symmetricOffsets 0) with [0].
  cbn [UPE.scanRing].
  change (0 >? 0) with false. change (0 =? 0) with true. cbn [andb negb].
  pose proof (probe_log usePrefilter (UPE.primesUpTo P) N 0 0 0 (X + 0) 0 []) as Hlog.
  assert (Hchk : forall c l, UPE.probe usePrefilter (UPE.primesUpTo P) N 0 0 0 (X + 0) 0 []
                             = (UPE.Next c, l) -> c <= 1).
  { unfold UPE.probe. intros c l.
    destruct (UPE.passesPrefilter _ _ _).
    - destruct (_ =? 0); [discriminate|]. destruct (_ =? 0); [discriminate|].
      intros H; inversion H; lia.
    - intros H; inversion H; lia. }
  destruct (UPE.probe usePrefilter (UPE.primesUpTo P) N 0 0 0 (X + 0) 0 [])
    as [[checked1|r] log1]; cbn [snd] in Hlog.
  - specialize (Hchk _ _ eq_refl).
    destruct (Z.geb_spec checked1 3); [lia|].
    rewrite UPE_scanRings_ring0 by lia.
    pose proof (ring0_length_le log1). destruct Hlog as [-> | ->]; cbn in *; lia.
  - cbn [snd].
    pose proof (ring0_length_le log1). destruct Hlog as [-> | ->]; cbn in *; lia.
Qed.

(** *** Ring 0 of FactoriX *)

Section FactoriXRings.

Variable abort : nat -> bool.

(** A call of [scanRing] extends the log by tests of its own ring. *)
Lemma FactoriX_scanRing_log prefilter S N x T ring :
  forall offs checked steps yields log,
  exists added,
    snd (FactoriX.scanRing abort offs prefilter S N x T ring checked steps yields log)
      = log ++ added /\
    Forall (fun e => fst (fst e) = ring) added /\
    (List.length added <= 2 * List.length offs)%nat.
Proof.
  induction offs as [|u offs IH]; intros checked steps yields log.
  { exists []. cbn. rewrite app_nil_r. split; [reflexivity|]. split; [constructor|lia]. }
  cbn [FactoriX.scanRing List.length].
  assert (Hskip : forall checked' steps' yields',
            exists added,
              snd (FactoriX.scanRing abort offs prefilter S N x T ring checked' steps' yields' log)
                = log ++ added /\
              Forall (fun e => fst (fst e) = ring) added /\
              (List.length added <= 2 * Datatypes.S (List.length offs))%nat).
  { intros c s y. destruct (IH c s y log) as (added & E & F & L).
    exists added. repeat split; try assumption. lia. }
  assert (Hnil : exists added : list UPE.event,
            log = log ++ added /\ Forall (fun e => fst (fst e) = ring) added /\
            (List.length added <= 2 * Datatypes.S (List.length offs))%nat).
  { exists []. rewrite app_nil_r. split; [reflexivity|]. split; [constructor|cbn; lia]. }
  destruct (abort yields); [exact Hnil|].
  destruct ((ring >? 0) && (Z.abs u <? (ring - 1) * T)); [apply Hskip|].
  destruct (prefilter && negb (FactoriX.admissibleAroundSqrt false x u S)); [apply Hskip|].
  assert (Hone : exists added : list UPE.event,
            log ++ [(ring, u, x + u)] = log ++ added /\
            Forall (fun e => fst (fst e) = ring) added /\
            (List.length added <= 2 * Datatypes.S (List.length offs))%nat).
  { exists [(ring, u, x + u)]. split; [reflexivity|].
    split; [repeat constructor|cbn; lia]. }
  destruct (x + u =? 0); [exact Hone|].
  destruct (Z.rem N (x + u) =? 0); [exact Hone|].
  assert (Htwo : exists added : list UPE.event,
            (log ++ [(ring, u, x + u)]) ++ [(ring, u, x - u)] = log ++ added /\
            Forall (fun e => fst (fst e) = ring) added /\
            (List.length added <= 2 * Datatypes.S (List.length offs))%nat).
  { exists [(ring, u, x + u); (ring, u, x - u)]. rewrite <- app_assoc.
    split; [reflexivity|]. split; [repeat constructor|cbn; lia]. }
  destruct (negb (u =? 0)).
  - destruct (x - u =? 0); [exact Htwo|].
    destruct (Z.rem N (x - u) =? 0); [exact Htwo|].
    match goal with
    | |- context [FactoriX.scanRing abort offs prefilter S N x T ring ?c ?s ?y ?l] =>
        destruct (IH c s y l) as (added & E & F & L)
    end.
    exists ((ring, u, x + u) :: (ring, u, x - u) :: added).
    rewrite E, <- !app_assoc. split; [reflexivity|].
    split; [repeat (constructor; [reflexivity|]); exact F|].
    cbn [List.length]. lia.
  - match goal with
    | |- context [FactoriX.scanRing abort offs prefilter S N x T ring ?c ?s ?y ?l] =>
        destruct (IH c s y l) as (added & E & F & L)
    end.
    exists ((ring, u, x + u) :: added).
    rewrite E, <- !app_assoc. split; [reflexivity|].
    split; [constructor; [reflexivity|exact F]|].
    cbn [List.length]. lia.
Qed.

Lemma ring0_other ring (added : list UPE.event) :
  ring <> 0 -> Forall (fun e => fst (fst e) = ring) added -> ring0 added = [].
Proof.
  intros Hr. induction 1 as [|e added He Hadd IH]; [reflexivity|].
  unfold ring0. cbn [filter]. rewrite He.
  destruct (Z.eqb_spec ring 0); [contradiction|]. exact IH.
Qed.

Lemma FactoriX_scanRings_ring0 prefilter S N x T K :
  forall (fuel : nat) ring checked yields log,
    0 < ring ->
    ring0 (snd (FactoriX.scanRings abort fuel prefilter S N x T K ring checked yields log))
      = ring0 log.
Proof.
  induction fuel as [|fuel IH]; intros ring checked yields log Hr; [reflexivity|].
  cbn [FactoriX.scanRings].
  destruct (ring <=? K); [|reflexivity].
  destruct (abort yields); [reflexivity|].
  destruct (FactoriX_scanRing_log prefilter S N x T ring
              (FactoriX.symmetricOffsets (ring * T)) checked 0 yields log)
    as (added & E & F & _).
  assert (Hlog : forall log', log' = log ++ added -> ring0 log' = ring0 log).
  { intros log' ->. rewrite ring0_app, (ring0_other ring added) by (lia || assumption).
    apply app_nil_r. }
  destruct (FactoriX.scanRing abort _ prefilter S N x T ring checked 0 yields log)
    as [[[checked' yields']|o|msg] log']; cbn [snd] in E |- *; try (apply Hlog; exact E).
  rewrite IH by lia. apply Hlog. exact E.
Qed.

Lemma factorize_ring0 N B T K prefilter mrRounds P :
  (List.length (ring0 (snd (FactoriX.factorize abort N B T K prefilter mrRounds P))) <= 2)%nat.
Proof.
  assert (Hwin : forall yields,
    (List.length (ring0 (snd (FactoriX.window abort N T K prefilter P yields))) <= 2)%nat).
  { intros yields. unfold FactoriX.window.
    destruct (FactoriX.isqrt N) as [x| |]; try (cbn; lia).
    destruct (Z.to_nat (K + 1)) as [|fuel]; [cbn; lia|].
    cbn [FactoriX.scanRings].
    destruct (0 <=? K); [|cbn; lia].
    destruct (abort (S yields)); [cbn; lia|].
    change (0 * T) with 0.
    destruct (FactoriX_scanRing_log prefilter (FactoriX.primesUpTo P) N x T 0
                (FactoriX.symmetricOffsets 0) 0 0 (S yields) [])
      as (added & E & _ & L).
    change (List.length (FactoriX.symmetricOffsets 0)) with 1%nat in L.
    cbn [app] in E.
    destruct (FactoriX.scanRing abort _ prefilter _ N x T 0 0 0 (S yields) [])
      as [[[checked' yields']|o|msg] log']; cbn [snd] in E |- *; subst log';
      try (pose proof (ring0_length_le added); lia).
    rewrite FactoriX_scanRings_ring0 by lia.
    pose proof (ring0_length_le added); lia. }
  unfold FactoriX.factorize.
  destruct (Z.rem N 2 =? 0); [cbn; lia|].
  destruct (B >? 0); [|apply Hwin].
  destruct (abort 1); [cbn; lia|].
  destruct (FactoriX.quickSmallFactor false N _); [cbn; lia|apply Hwin].
Qed.

End FactoriXRings.

(** ** Claims on the windowed searches *)

(** C5.  In the prime search and in the Goldbach search at most 3 admissible
    offsets are put to the confirmation test; in both factor searches at
    most 3 candidates are tested in ring 0. *)
Theorem bounded_correction_cap :
  (forall rawX Pauto Tauto Poverride Toverride mrRounds,
      (List.length (snd (UPE.runPrimeNearX rawX Pauto Tauto Poverride Toverride mrRounds))
       <= 3)%nat) /\
  (forall rawE Pauto Tauto Poverride Toverride mrRounds,
      (List.length (snd (UPE.runGoldbach rawE Pauto Tauto Poverride Toverride mrRounds))
       <= 3)%nat) /\
  (forall rawN P T K usePrefilter mrRounds,
      (List.length (ring0 (snd (UPE.runFactorization rawN P T K usePrefilter mrRounds)))
       <= 3)%nat) /\
  (forall abort N B T K prefilter mrRounds P,
      (List.length (ring0 (snd (FactoriX.factorize abort N B T K prefilter mrRounds P)))
       <= 3)%nat).
Proof.
  split; [exact runPrimeNearX_cap|]. split; [exact runGoldbach_cap|]. split.
  - intros. pose proof (runFactorization_ring0 rawN P T K usePrefilter mrRounds). lia.
  - intros. pose proof (factorize_ring0 abort N B T K prefilter mrRounds P). lia.
Qed.

(** *** The safety ceiling on the window radius *)

(** Without an override, a derived radius above the ceiling stops the prime
    search before any test. *)
Lemma runPrimeNearX_safety rawX Pauto Tauto Poverride mrRounds :
  Tauto > UPE.T_LIMIT ->
  snd (UPE.runPrimeNearX rawX Pauto Tauto Poverride 0 mrRounds) = [] /\
  (forall X lg, UPE.parseBigIntExpr rawX = UPE.Big X lg ->
     exists P, fst (UPE.runPrimeNearX rawX Pauto Tauto Poverride 0 mrRounds)
               = UPE.SafetyPreview P Tauto).
Proof.
  intros HT. unfold UPE.runPrimeNearX.
  destruct (UPE.parseBigIntExpr rawX) as [err|X lg|lg op c];
    (split; [try reflexivity|intros X' lg' Hp; try discriminate]).
  - cbn [JS.truthy Z.eqb negb andb]. apply Z.gt_lt, Z.gtb_lt in HT. rewrite HT. reflexivity.
  - cbn [JS.truthy Z.eqb negb andb]. apply Z.gt_lt, Z.gtb_lt in HT. rewrite HT.
    eexists. reflexivity.
Qed.

(** The same holds of the Goldbach search. *)
Lemma runGoldbach_safety rawE Pauto Tauto Poverride mrRounds :
  Tauto > UPE.T_LIMIT ->
  snd (UPE.runGoldbach rawE Pauto Tauto Poverride 0 mrRounds) = [] /\
  (forall E lg, UPE.parseBigIntExpr rawE = UPE.Big E lg -> Z.rem E 2 = 0 ->
     exists P, fst (UPE.runGoldbach rawE Pauto Tauto Poverride 0 mrRounds)
               = UPE.SafetyPreview P Tauto).
Proof.
  intros HT. unfold UPE.runGoldbach.
  apply Z.gt_lt, Z.gtb_lt in HT.
  destruct (UPE.parseBigIntExpr rawE) as [err|E lg|lg op c];
    (split; [try reflexivity|intros E' lg' Hp Heven; try discriminate]).
  - destruct (negb (Z.rem E 2 =? 0)); [reflexivity|].
    cbn [JS.truthy Z.eqb negb andb]. rewrite HT. reflexivity.
  - inversion Hp; subst. rewrite Heven.
    cbn [JS.truthy Z.eqb negb andb]. rewrite HT. eexists. reflexivity.
Qed.

Lemma probe_report usePrefilter S N ring u hit y checked log :
  match fst (UPE.probe usePrefilter S N ring u hit y checked log) with
  | UPE.Return r => notSafetyPreview r
  | UPE.Next _ => True
  end.
Proof.
  unfold UPE.probe.
  destruct (UPE.passesPrefilter usePrefilter S y); [|exact I].
  destruct (y =? 0); [exact I|]. destruct (Z.rem N y =? 0); exact I.
Qed.

Lemma scanRing_report usePrefilter S N X T ring :
  forall offs checked log,
    match fst (UPE.scanRing offs usePrefilter S N X T ring checked log) with
    | UPE.Return r => notSafetyPreview r
    | UPE.Next _ => True
    end.
Proof.
  induction offs as [|u offs IH]; intros checked log; [exact I|].
  cbn [UPE.scanRing].
  destruct ((ring >? 0) && (Z.abs u <? (ring - 1) * T)); [apply IH|].
  pose proof (probe_report usePrefilter S N ring u u (X + u) checked log) as Ha.
  destruct (UPE.probe usePrefilter S N ring u u (X + u) checked log) as [[checked1|r] log1];
    cbn [fst] in Ha |- *; [|exact Ha].
  assert (Hb : match fst (if negb (u =? 0)
                          then UPE.probe usePrefilter S N ring u (- u) (X - u) checked1 log1
                          else (UPE.Next checked1, log1)) with
               | UPE.Return r => notSafetyPreview r
               | UPE.Next _ => True
               end).
  { destruct (negb (u =? 0)); [apply probe_report|exact I]. }
  destruct (if negb (u =? 0) then _ else _) as [[checked2|r] log2]; cbn [fst] in Hb |- *;
    [|exact Hb].
  destruct ((ring =? 0) && (checked2 >=? 3)); [exact I|]. apply IH.
Qed.

Lemma scanRings_report usePrefilter S N X T K :
  forall (fuel : nat) ring checked log,
    notSafetyPreview (fst (UPE.scanRings fuel usePrefilter S N X T K ring checked log)).
Proof.
  induction fuel as [|fuel IH]; intros ring checked log; [exact I|].
  cbn [UPE.scanRings].
  destruct (ring <=? K); [|exact I].
  pose proof (scanRing_report usePrefilter S N X T ring
                (UPE.symmetricOffsets (ring * T)) checked log) as Hr.
  destruct (UPE.scanRing _ usePrefilter S N X T ring checked log) as [[checked'|r] log'];
    cbn [fst] in Hr |- *; [apply IH|exact Hr].
Qed.

(** Whatever the derived radius, [runFactorization] never answers with the
    safety preview. *)
Lemma runFactorization_no_safety rawN P T K usePrefilter mrRounds :
  notSafetyPreview (fst (UPE.runFactorization rawN P T K usePrefilter mrRounds)).
Proof.
  unfold UPE.runFactorization.
  destruct (UPE.parseBigIntExpr rawN) as [err|N lg|lg op c]; try exact I.
  destruct (N <? 4); [exact I|].
  destruct (UPE.isqrt N) as [X| |]; try exact I.
  apply scanRings_report.
Qed.

(** C6 fails in the factor search, which has no test against the ceiling:
    with a derived radius above 100000 it scans and tests candidates.
    First run: N = 4 with c1 = 1.6 and c2 = 100000, which give P = 5 and
    T = 192181.  Second run: N = 10^100 with c1 = 1.6 and c2 = 2.0, which give
    P = 368 and T = 106037, prefilter off. *)
Theorem runFactorization_scans_above_ceiling :
  192181 > UPE.T_LIMIT /\
  UPE.runFactorization (UPE.units "4") 5 192181 40 true 12
    = (UPE.FactorFound 0 2 2 1, [(0, 0, 2)]) /\
  106037 > UPE.T_LIMIT /\
  UPE.runFactorization (UPE.units "10^100") 368 106037 40 false 12
    = (UPE.FactorFound 0 (10 ^ 50) (10 ^ 50) 1, [(0, 0, 10 ^ 50)]).
Proof.
  split; [reflexivity|]. split; [vm_compute; reflexivity|].
  split; [reflexivity|]. vm_compute. reflexivity.
Qed.

(** *** Rings *)

(** The offsets a window of radius [T] enumerates. *)
Lemma offsetsFrom_In T :
  forall (fuel : nat) d u,
    1 <= d ->
    (In u (UPE.offsetsFrom fuel d T) <-> d <= Z.abs u <= T /\ Z.abs u < d + Z.of_nat fuel).
Proof.
  induction fuel as [|fuel IH]; intros d u Hd; cbn [UPE.offsetsFrom].
  - split; [intros []|lia].
  - destruct (Z.leb_spec d T) as [Hle|Hgt].
    + cbn [In]. rewrite IH by lia. lia.
    + split; [intros []|lia].
Qed.

Lemma symmetricOffsets_In T u :
  In u (UPE.symmetricOffsets T) <-> u = 0 \/ Z.abs u <= T.
Proof.
  unfold UPE.symmetricOffsets. cbn [In]. rewrite offsetsFrom_In by lia. lia.
Qed.

(** Ring [ring >= 1] processes the offsets of magnitude from [(ring-1) * T]
    to [ring * T], both ends included. *)
Lemma ring_window ring T u :
  1 <= ring -> 0 <= T ->
  (In u (UPE.symmetricOffsets (ring * T)) /\
   (ring >? 0) && (Z.abs u <? (ring - 1) * T) = false)
  <-> (ring - 1) * T <= Z.abs u <= ring * T.
Proof.
  intros Hr HT. rewrite symmetricOffsets_In.
  destruct (Z.gtb_spec ring 0); [|lia]. cbn [andb].
  rewrite Z.ltb_ge.
  assert (0 <= (ring - 1) * T) by nia.
  assert (0 <= ring * T) by nia.
  lia.
Qed.

(** The test that skips the offsets of the rings before ring [ring] lets
    through those of magnitude [(ring - 1) * T], the edge of the ring
    before. *)
Lemma ring_edge_not_skipped ring T u :
  Z.abs u = (ring - 1) * T ->
  (ring >? 0) && (Z.abs u <? (ring - 1) * T) = false.
Proof.
  intros ->. rewrite Z.ltb_irrefl. apply andb_false_r.
Qed.

(** C8 fails: the offsets on the edge between two rings are tested in both.
    FactoriX on N = 101 with T = 2, K = 2, no sweep, no prefilter tests
    offset 0 in rings 0 and 1 and offsets 2 and -2 in rings 1 and 2; the
    calculator on N = 91 (P = 7, T = 40) tests offset 0 in rings 0 and 1. *)
Theorem ring_edges_tested_twice :
  FactoriX.factorize (fun _ => false) 101 0 2 2 false 12 7 =
    (Ok (FactoriX.NotFound 22),
     [(0, 0, 10);
      (1, 0, 10); (1, 1, 11); (1, 1, 9); (1, -1, 9); (1, -1, 11);
      (1, 2, 12); (1, 2, 8); (1, -2, 8); (1, -2, 12);
      (2, 2, 12); (2, 2, 8); (2, -2, 8); (2, -2, 12);
      (2, 3, 13); (2, 3, 7); (2, -3, 7); (2, -3, 13);
      (2, 4, 14); (2, 4, 6); (2, -4, 6); (2, -4, 14)]) /\
  UPE.runFactorization (UPE.units "91") 7 40 40 false 12 =
    (UPE.FactorFound (-2) 7 13 8,
     [(0, 0, 9);
      (1, 0, 9); (1, 1, 10); (1, 1, 8); (1, -1, 8); (1, -1, 10);
      (1, 2, 11); (1, 2, 7)]).
Proof. split; vm_compute; reflexivity. Qed.

(** ** The input parser *)

Lemma isDigit_spec c : UPE.isDigit c = true <-> (48 <= c <= 57)%N.
Proof.
  unfold UPE.isDigit. rewrite andb_true_iff, !N.leb_le. reflexivity.
Qed.

Lemma forallb_isDigit s :
  forallb UPE.isDigit s = true <-> Forall (fun c => (48 <= c <= 57)%N) s.
Proof.
  rewrite forallb_forall, Forall_forall.
  split; intros H c Hc; apply isDigit_spec, H, Hc.
Qed.

Lemma isDigitsOnly_spec s : UPE.isDigitsOnly s = true <-> isDecimal s.
Proof.
  unfold isDecimal. destruct s as [|c s].
  - cbn. split; [discriminate|]. intros [H _]. contradiction.
  - change (UPE.isDigitsOnly (c :: s)) with (forallb UPE.isDigit (c :: s)).
    rewrite forallb_isDigit. split; [intros H; split; [discriminate|exact H]|].
    intros [_ H]. exact H.
Qed.

Lemma stripWhite_dropWhite s : UPE.stripWhite (UPE.dropWhite s) = UPE.stripWhite s.
Proof.
  induction s as [|c s IH]; [reflexivity|].
  cbn [UPE.dropWhite]. destruct (UPE.isWhite c) eqn:Hc; [|reflexivity].
  cbn [UPE.stripWhite filter]. rewrite Hc. exact IH.
Qed.

(** After [trim], removing the white space that is left removes all the
    white space of the input. *)
Lemma stripWhite_trim raw : UPE.stripWhite (UPE.trim raw) = UPE.stripWhite raw.
Proof.
  unfold UPE.trim, UPE.stripWhite.
  rewrite filter_rev.
  fold (UPE.stripWhite (UPE.dropWhite (rev (UPE.dropWhite raw)))).
  rewrite stripWhite_dropWhite. unfold UPE.stripWhite.
  rewrite filter_rev, rev_involutive.
  apply stripWhite_dropWhite.
Qed.

Lemma spanDigits_spec s :
  forall k tail,
    UPE.spanDigits s = (k, tail) ->
    s = k ++ tail /\ Forall (fun c => (48 <= c <= 57)%N) k /\
    match tail with
    | [] => True
    | c :: _ => UPE.isDigit c = false
    end.
Proof.
  induction s as [|c s IH]; intros k tail Heq; cbn [UPE.spanDigits] in Heq.
  - inversion Heq; subst. repeat split. constructor.
  - destruct (UPE.isDigit c) eqn:Hc.
    + destruct (UPE.spanDigits s) as [k' tail'].
      inversion Heq; subst.
      destruct (IH k' tail eq_refl) as (E & F & T).
      split; [cbn; f_equal; exact E|]. split; [|exact T].
      constructor; [apply isDigit_spec; exact Hc|exact F].
    + inversion Heq; subst. split; [reflexivity|]. split; [constructor|exact Hc].
Qed.

Lemma spanDigits_app k tail :
  Forall (fun c => (48 <= c <= 57)%N) k ->
  match tail with
  | [] => True
  | c :: _ => UPE.isDigit c = false
  end ->
  UPE.spanDigits (k ++ tail) = (k, tail).
Proof.
  intros Hk Htail. induction Hk as [|c k Hc Hk IH].
  - destruct tail as [|c tail]; [reflexivity|].
    cbn [app UPE.spanDigits]. rewrite Htail. reflexivity.
  - cbn [app UPE.spanDigits]. apply isDigit_spec in Hc. rewrite Hc, IH. reflexivity.
Qed.

Lemma matchPow10_spec s : UPE.matchPow10 s <> None <-> isPow10 s.
Proof.
  split.
  - intros Hm. unfold UPE.matchPow10 in Hm.
    destruct s as [|c1 [|c2 [|c3 rest]]]; try contradiction.
    destruct (((c1 =? 49) && (c2 =? 48) && (c3 =? 94))%N) eqn:Hhead; [|contradiction].
    apply andb_true_iff in Hhead. destruct Hhead as [Hhead H3].
    apply andb_true_iff in Hhead. destruct Hhead as [H1 H2].
    apply N.eqb_eq in H1, H2, H3. subst c1 c2 c3.
    destruct (UPE.spanDigits rest) as [k tail] eqn:Hspan.
    destruct (spanDigits_spec rest k tail Hspan) as (E & Hk & _).
    destruct k as [|k0 k]; [contradiction|].
    exists (k0 :: k). split; [split; [discriminate|exact Hk]|].
    destruct tail as [|op ctext].
    + left. rewrite app_nil_r in E. subst rest. reflexivity.
    + right. exists op, ctext.
      destruct (((op =? 43) || (op =? 45))%N && UPE.isDigitsOnly ctext) eqn:Hadj;
        [|contradiction].
      apply andb_true_iff in Hadj. destruct Hadj as [Hop Hc].
      apply orb_true_iff in Hop. rewrite !N.eqb_eq in Hop.
      apply isDigitsOnly_spec in Hc.
      split; [exact Hop|]. split; [exact Hc|]. subst rest. reflexivity.
  - intros (k & [Hk0 Hk] & Hs).
    destruct k as [|k0 k]; [contradiction|].
    destruct Hs as [->|(sign & c & Hsign & Hc & ->)].
    + change (UPE.units "10^" ++ k0 :: k) with (49 :: 48 :: 94 :: (k0 :: k))%N.
      cbn [UPE.matchPow10].
      rewrite <- (app_nil_r (k0 :: k)), spanDigits_app by (exact Hk || exact I).
      discriminate.
    + change (UPE.units "10^" ++ (k0 :: k) ++ sign :: c)
        with (49 :: 48 :: 94 :: ((k0 :: k) ++ sign :: c))%N.
      cbn [UPE.matchPow10].
      rewrite spanDigits_app; [|exact Hk|destruct Hsign as [-> | ->]; reflexivity].
      apply isDigitsOnly_spec in Hc. rewrite Hc.
      destruct Hsign as [-> | ->]; discriminate.
Qed.

Lemma decimal_not_pow10 s : UPE.isDigitsOnly s = true -> UPE.matchPow10 s = None.
Proof.
  intros Hd. destruct (UPE.matchPow10 s) eqn:Hm; [|reflexivity].
  exfalso.
  assert (Hp : isPow10 s) by (apply matchPow10_spec; rewrite Hm; discriminate).
  apply isDigitsOnly_spec in Hd. destruct Hd as [_ Hd].
  destruct Hp as (k & _ & [->|(sign & c & _ & _ & ->)]);
    inversion Hd as [|? ? _ Hd1]; inversion Hd1 as [|? ? _ Hd2];
    inversion Hd2 as [|? ? H94 _]; lia.
Qed.

Lemma parseStripped_ok s unsupported :
  ok (UPE.parseStripped s unsupported) = true <-> acceptedForm s.
Proof.
  unfold UPE.parseStripped, acceptedForm.
  rewrite <- isDigitsOnly_spec, <- matchPow10_spec.
  destruct (UPE.isDigitsOnly s); [split; [left|]; reflexivity|].
  destruct (UPE.matchPow10 s) as [[m1 adj]|].
  - split; [right; discriminate|]. intros _.
    destruct (_ >? 2000); reflexivity.
  - split; [discriminate|]. intros [H|H]; [discriminate|contradiction].
Qed.

Lemma not_accepted_nil : ~ acceptedForm [].
Proof.
  intros [[H _]|(k & _ & [H|(sign & c & _ & _ & H)])]; [contradiction| |]; discriminate H.
Qed.

(** C9, as amended.  The parser succeeds exactly when the input, with all its
    white space removed (also the white space inside it), is a nonempty
    sequence of decimal digits or has the form [10^k], [10^k+c] or [10^k-c];
    on every other input it returns [ok: false] with an error text. *)
Theorem parser_accepts_exactly (raw : UPE.jsstring) :
  (ok (UPE.parseBigIntExpr raw) = true <-> acceptedForm (UPE.stripWhite raw)) /\
  (ok (FactoriX.parseBigIntExpr raw) = true <-> acceptedForm (UPE.stripWhite raw)) /\
  (~ acceptedForm (UPE.stripWhite raw) ->
   (exists err, UPE.parseBigIntExpr raw = UPE.Failed err) /\
   (exists err, FactoriX.parseBigIntExpr raw = UPE.Failed err)).
Proof.
  assert (H1 : ok (UPE.parseBigIntExpr raw) = true <-> acceptedForm (UPE.stripWhite raw)).
  { unfold UPE.parseBigIntExpr. rewrite stripWhite_trim.
    destruct (UPE.stripWhite raw) as [|c s] eqn:Hs.
    - split; [discriminate|]. intros H. destruct (not_accepted_nil H).
    - apply parseStripped_ok. }
  assert (H2 : ok (FactoriX.parseBigIntExpr raw) = true <-> acceptedForm (UPE.stripWhite raw)).
  { unfold FactoriX.parseBigIntExpr. rewrite stripWhite_trim.
    destruct (UPE.stripWhite raw) as [|c s] eqn:Hs.
    - split; [discriminate|]. intros H. destruct (not_accepted_nil H).
    - apply parseStripped_ok. }
  split; [exact H1|]. split; [exact H2|].
  intros Hno. split.
  - destruct (UPE.parseBigIntExpr raw) as [err| |]; [exists err; reflexivity| |];
      exfalso; apply Hno, H1; reflexivity.
  - destruct (FactoriX.parseBigIntExpr raw) as [err| |]; [exists err; reflexivity| |];
      exfalso; apply Hno, H2; reflexivity.
Qed.

(** C9, as stated, fails: ["1 2"] is trimmed and is of neither form, and it
    is parsed as 12. *)
Lemma parser_inner_space_counterexample :
  trimmed (UPE.units "1 2") /\
  ~ acceptedForm (UPE.units "1 2") /\
  UPE.parseBigIntExpr (UPE.units "1 2") = UPE.Big 12 1 /\
  FactoriX.parseBigIntExpr (UPE.units "1 2") = UPE.Big 12 1.
Proof.
  split; [reflexivity|]. split; [|split; reflexivity].
  change (UPE.units "1 2") with [49; 32; 50]%N.
  intros [[_ H]|(k & _ & [H|(sign & c & _ & _ & H)])].
  - inversion H as [|? ? _ H1]. inversion H1 as [|? ? H32 _]. lia.
  - discriminate H.
  - discriminate H.
Qed.

(** * Further properties of the code *)

(** ** The sieve *)

Lemma setCell_length s : forall j, List.length (UPE.setCell s j) = List.length s.
Proof.
  induction s as [|c s IH]; intros [|j]; cbn [UPE.setCell List.length]; auto.
Qed.

Lemma nth_setCell s :
  forall j k,
    nth k (UPE.setCell s j) false = true <->
    (k = j /\ (j < List.length s)%nat) \/ nth k s false = true.
Proof.
  induction s as [|c s IH]; intros j k.
  - destruct j, k; cbn; split; try tauto; intros [[_ H]|H]; try lia; discriminate.
  - destruct j as [|j], k as [|k]; cbn [UPE.setCell nth List.length].
    + split; [intros _; left; split; [reflexivity|lia]|reflexivity].
    + split; [intros H; right; exact H|intros [[H _]|H]; [discriminate|exact H]].
    + split; [intros H; right; exact H|intros [[H _]|H]; [discriminate|exact H]].
    + rewrite IH. split; intros [[H1 H2]|H]; auto; left; split; lia.
Qed.

Lemma getCell_setCell s j k :
  0 <= j -> 0 <= k ->
  (UPE.getCell (UPE.setCell s (Z.to_nat j)) k = true <->
   (k = j /\ j < Z.of_nat (List.length s)) \/ UPE.getCell s k = true).
Proof.
  intros Hj Hk. unfold UPE.getCell. rewrite nth_setCell.
  split; intros [[H1 H2]|H]; auto; left; split; lia.
Qed.

Lemma markMultiples_S fuel n i j sieve :
  UPE.markMultiples (S fuel) n i j sieve =
  if j <=? n then UPE.markMultiples fuel n i (j + i) (UPE.setCell sieve (Z.to_nat j))
  else sieve.
Proof. reflexivity. Qed.

(** The inner loop marks [j], [j + i], [j + 2 i], ... up to [n]. *)
Lemma markMultiples_spec n i (Hi : 1 <= i) :
  forall (fuel : nat) j sieve,
    0 <= j ->
    Z.of_nat (List.length sieve) = n + 1 ->
    n - j < i * Z.of_nat fuel ->
    List.length (UPE.markMultiples fuel n i j sieve) = List.length sieve /\
    forall k, 0 <= k <= n ->
      (UPE.getCell (UPE.markMultiples fuel n i j sieve) k = true <->
       UPE.getCell sieve k = true \/ (j <= k /\ (i | k - j))).
Proof.
  induction fuel as [|fuel IH]; intros j sieve Hj Hlen Hfuel.
  - cbn [UPE.markMultiples]. split; [reflexivity|].
    intros k Hk. split; [auto|]. intros [H|[H _]]; [exact H|lia].
  - rewrite markMultiples_S.
    destruct (Z.leb_spec j n) as [Hle|Hgt].
    + destruct (IH (j + i) (UPE.setCell sieve (Z.to_nat j))) as [IHlen IHget];
        [lia|rewrite setCell_length; exact Hlen|lia|].
      rewrite setCell_length in IHlen. split; [exact IHlen|].
      intros k Hk. rewrite IHget by exact Hk.
      rewrite getCell_setCell by lia.
      split.
      * intros [[[-> _]|H]|[H1 [c Hc]]].
        -- right. split; [lia|]. exists 0. lia.
        -- left. exact H.
        -- right. split; [lia|]. exists (c + 1). lia.
      * intros [H|[H1 [c Hc]]]; [left; right; exact H|].
        destruct (Z.eq_dec k j) as [->|Hne]; [left; left; split; lia|].
        right. split.
        -- assert (1 <= c) by nia. nia.
        -- exists (c - 1). lia.
    + split; [reflexivity|].
      intros k Hk. split; [auto|]. intros [H|[H _]]; [exact H|lia].
Qed.

Lemma sieveLoop_S fuel n i sieve :
  UPE.sieveLoop (S fuel) n i sieve =
  if i * i <=? n then
    UPE.sieveLoop fuel n (i + 1)
      (if negb (UPE.getCell sieve i)
       then UPE.markMultiples (Z.to_nat n) n i (i * i) sieve
       else sieve)
  else sieve.
Proof. reflexivity. Qed.

Lemma sieveLoop_spec n (Hn : 2 <= n) :
  forall (fuel : nat) i sieve,
    2 <= i ->
    n < (i + Z.of_nat fuel) * (i + Z.of_nat fuel) ->
    sieved n i sieve ->
    exists i', i <= i' /\ n < i' * i' /\ sieved n i' (UPE.sieveLoop fuel n i sieve).
Proof.
  induction fuel as [|fuel IH]; intros i sieve Hi Hfuel Hinv.
  - exists i. cbn [UPE.sieveLoop]. rewrite Z.add_0_r in Hfuel. auto with zarith.
  - rewrite sieveLoop_S.
    destruct (Z.leb_spec (i * i) n) as [Hle|Hgt]; [|exists i; auto with zarith].
    destruct Hinv as [Hlen Hcells].
    assert (Hnext : sieved n (i + 1)
              (if negb (UPE.getCell sieve i)
               then UPE.markMultiples (Z.to_nat n) n i (i * i) sieve
               else sieve)).
    { destruct (UPE.getCell sieve i) eqn:Hcell; cbn [negb].
      - split; [exact Hlen|]. intros k Hk. rewrite (Hcells k Hk).
        apply Hcells in Hcell; [|nia]. destruct Hcell as (d0 & Hd0 & Hsq0 & Hdiv0).
        split.
        + intros (d & Hd & Hsq & Hdiv). exists d. repeat split; try assumption; lia.
        + intros (d & Hd & Hsq & Hdiv).
          destruct (Z.eq_dec d i) as [->|Hne]; [|exists d; repeat split; try assumption; lia].
          exists d0. split; [lia|]. split; [nia|].
          eapply Z.divide_trans; eassumption.
      - destruct (markMultiples_spec n i ltac:(lia) (Z.to_nat n) (i * i) sieve
                    ltac:(nia) Hlen ltac:(rewrite Z2Nat.id by lia; nia)) as [Hlen' Hget].
        split; [rewrite Hlen'; exact Hlen|].
        intros k Hk. rewrite (Hget k Hk), (Hcells k Hk).
        split.
        + intros [(d & Hd & Hsq & Hdiv)|[Hsq Hdiv]].
          * exists d. repeat split; try assumption; lia.
          * exists i. split; [lia|]. split; [exact Hsq|].
            replace k with ((k - i * i) + i * i) by ring.
            apply Z.divide_add_r; [exact Hdiv|]. exists i. reflexivity.
        + intros (d & Hd & Hsq & Hdiv).
          destruct (Z.eq_dec d i) as [->|Hne].
          * right. split; [exact Hsq|].
            apply Z.divide_sub_r; [exact Hdiv|]. exists i. reflexivity.
          * left. exists d. repeat split; try assumption; lia. }
    destruct (IH (i + 1) _ ltac:(lia) ltac:(rewrite Nat2Z.inj_succ in Hfuel;
                replace (i + 1 + Z.of_nat fuel) with (i + Z.succ (Z.of_nat fuel)) by lia;
                exact Hfuel) Hnext) as (i' & Hi' & Hsq' & Hinv').
    exists i'. split; [lia|]. split; assumption.
Qed.

(** A number from 2 on is prime when no [d >= 2] with [d * d] at most the
    number divides it. *)
Lemma prime_iff_no_small_divisor k :
  2 <= k ->
  (Z.prime k <-> ~ exists d, 2 <= d /\ d * d <= k /\ (d | k)).
Proof.
  intros Hk. split.
  - intros [_ Hp] (d & Hd & Hsq & Hdiv). apply (Hp d); [nia|exact Hdiv].
  - intros Hno. split; [lia|]. intros m Hm [q Hq].
    assert (1 < q) by nia.
    destruct (Z.le_gt_cases m q) as [Hmq|Hqm].
    + apply Hno. exists m. split; [lia|]. split; [nia|]. exists q. exact Hq.
    + apply Hno. exists q. split; [lia|]. split; [nia|]. exists m. lia.
Qed.

Lemma collect_S fuel n i sieve :
  UPE.collect (S fuel) n i sieve =
  if i <=? n then
    if negb (UPE.getCell sieve i) then i :: UPE.collect fuel n (i + 1) sieve
    else UPE.collect fuel n (i + 1) sieve
  else [].
Proof. reflexivity. Qed.

Lemma collect_spec n sieve :
  forall (fuel : nat) i,
    n - i < Z.of_nat fuel ->
    (forall k, In k (UPE.collect fuel n i sieve) <->
               i <= k <= n /\ UPE.getCell sieve k = false) /\
    StronglySorted Z.lt (UPE.collect fuel n i sieve).
Proof.
  induction fuel as [|fuel IH]; intros i Hfuel.
  - cbn [UPE.collect]. split; [|constructor].
    intros k. split; [intros []|]. intros [H _]. lia.
  - rewrite collect_S.
    destruct (Z.leb_spec i n) as [Hle|Hgt].
    + destruct (IH (i + 1) ltac:(lia)) as [IHin IHsorted].
      destruct (UPE.getCell sieve i) eqn:Hcell; cbn [negb].
      * split; [|exact IHsorted].
        intros k. rewrite IHin. split; [intros [H1 H2]; split; [lia|exact H2]|].
        intros [H1 H2]. split; [|exact H2].
        destruct (Z.eq_dec k i) as [->|]; [congruence|lia].
      * split.
        -- intros k. cbn [In]. rewrite IHin. split.
           ++ intros [<-|[H1 H2]]; [split; [lia|exact Hcell]|split; [lia|exact H2]].
           ++ intros [H1 H2]. destruct (Z.eq_dec i k); [left; assumption|right; split; [lia|exact H2]].
        -- constructor; [exact IHsorted|].
           apply Forall_forall. intros k Hin. apply IHin in Hin. lia.
    + split; [|constructor].
      intros k. split; [intros []|]. intros [H _]. lia.
Qed.

Lemma getCell_repeat_false m k : UPE.getCell (repeat false m) k = false.
Proof. unfold UPE.getCell. apply nth_repeat. Qed.

Lemma primesUpTo_spec (P : Z) :
  (forall p, In p (UPE.primesUpTo P) <-> Z.prime p /\ p <= Z.max 2 (JS.toInt32 P)) /\
  StronglySorted Z.lt (UPE.primesUpTo P) /\
  FactoriX.primesUpTo P = UPE.primesUpTo P.
Proof.
  unfold UPE.primesUpTo. cbv zeta.
  set (n := Z.max 2 (JS.toInt32 P)).
  assert (Hn : 2 <= n) by (unfold n; lia).
  assert (Hinit : sieved n 2 (repeat false (Z.to_nat (n + 1)))).
  { split; [rewrite repeat_length; lia|].
    intros k Hk. rewrite getCell_repeat_false.
    split; [discriminate|]. intros (d & Hd & _). lia. }
  destruct (sieveLoop_spec n Hn (Z.to_nat n) 2 _ ltac:(lia)
              ltac:(rewrite Z2Nat.id by lia; nia) Hinit) as (i' & Hi' & Hsq' & [Hlen Hcells]).
  destruct (collect_spec n (UPE.sieveLoop (Z.to_nat n) n 2 (repeat false (Z.to_nat (n + 1))))
              (Z.to_nat n) 2 ltac:(lia)) as [Hin Hsorted].
  split; [|split; [exact Hsorted|reflexivity]].
  intros p. rewrite Hin. split.
  - intros [Hp Hcell]. split; [|lia].
    apply prime_iff_no_small_divisor; [lia|].
    intros (d & Hd & Hsq & Hdiv).
    assert (Htrue : UPE.getCell (UPE.sieveLoop (Z.to_nat n) n 2
                                   (repeat false (Z.to_nat (n + 1)))) p = true).
    { apply Hcells; [lia|]. exists d. split; [nia|]. split; assumption. }
    congruence.
  - intros [Hprime Hle]. pose proof (Z.prime_ge_2 p Hprime).
    split; [lia|].
    destruct (UPE.getCell _ p) eqn:Hcell; [|reflexivity].
    apply Hcells in Hcell; [|lia]. destruct Hcell as (d & Hd & Hsq & Hdiv).
    exfalso. apply (proj1 (prime_iff_no_small_divisor p ltac:(lia)) Hprime).
    exists d. split; [lia|]. split; assumption.
Qed.

(** X1.  [primesUpTo P] is the list of the primes up to [max 2 (P | 0)], each
    once, in ascending order; so is the copy of FactoriX. *)
Theorem primesUpTo_primes (P : Z) :
  (forall p, In p (UPE.primesUpTo P) <-> Z.prime p /\ p <= Z.max 2 (JS.toInt32 P)) /\
  StronglySorted Z.lt (UPE.primesUpTo P) /\
  FactoriX.primesUpTo P = UPE.primesUpTo P.
Proof. exact (primesUpTo_spec P). Qed.

(** ** The window of offsets *)

Lemma offsetsFrom_sorted T :
  forall (fuel : nat) d,
    1 <= d ->
    StronglySorted (fun u v => offsetRank u < offsetRank v) (UPE.offsetsFrom fuel d T) /\
    Forall (fun u => 2 * d - 1 <= offsetRank u) (UPE.offsetsFrom fuel d T).
Proof.
  induction fuel as [|fuel IH]; intros d Hd; cbn [UPE.offsetsFrom].
  - split; constructor.
  - destruct (d <=? T); [|split; constructor].
    destruct (IH (d + 1) ltac:(lia)) as [IHs IHf].
    assert (Hd1 : offsetRank d = 2 * d - 1).
    { unfold offsetRank. destruct (Z.gtb_spec d 0); lia. }
    assert (Hd2 : offsetRank (- d) = 2 * d).
    { unfold offsetRank. destruct (Z.gtb_spec (- d) 0); lia. }
    assert (Hrest : Forall (fun v => 2 * d < offsetRank v) (UPE.offsetsFrom fuel (d + 1) T)).
    { eapply Forall_impl; [|exact IHf]. cbv beta. intros v Hv. lia. }
    split.
    + constructor; [constructor; [exact IHs|]|].
      * eapply Forall_impl; [|exact Hrest]. cbv beta. intros v Hv. lia.
      * constructor; [lia|].
        eapply Forall_impl; [|exact Hrest]. cbv beta. intros v Hv. lia.
    + constructor; [lia|]. constructor; [lia|].
      eapply Forall_impl; [|exact Hrest]. cbv beta. intros v Hv. lia.
Qed.

Lemma offsetsFrom_length T :
  forall (fuel : nat) d,
    T - d < Z.of_nat fuel ->
    Z.of_nat (List.length (UPE.offsetsFrom fuel d T)) = 2 * Z.max 0 (T - d + 1).
Proof.
  induction fuel as [|fuel IH]; intros d Hfuel; cbn [UPE.offsetsFrom].
  - cbn [List.length]. lia.
  - destruct (Z.leb_spec d T); [|cbn [List.length]; lia].
    cbn [List.length]. rewrite !Nat2Z.inj_succ, IH by lia. lia.
Qed.

(** X2.  [symmetricOffsets T] yields 0 and then [+d], [-d] for [d] from 1 to
    [T]: the offsets of magnitude at most [T], each once, by increasing
    magnitude and the positive one first; there are [2 T + 1] of them (one
    for negative [T]). *)
Theorem symmetricOffsets_order (T : Z) :
  StronglySorted (fun u v => offsetRank u < offsetRank v) (UPE.symmetricOffsets T) /\
  (forall u, In u (UPE.symmetricOffsets T) <-> u = 0 \/ Z.abs u <= T) /\
  Z.of_nat (List.length (UPE.symmetricOffsets T)) = 2 * Z.max 0 T + 1 /\
  FactoriX.symmetricOffsets T = UPE.symmetricOffsets T.
Proof.
  split; [|split; [|split; [|reflexivity]]].
  - unfold UPE.symmetricOffsets.
    destruct (offsetsFrom_sorted T (Z.to_nat T) 1 ltac:(lia)) as [Hs Hf].
    constructor; [exact Hs|].
    eapply Forall_impl; [|exact Hf]. cbv beta. intros v Hv.
    change (offsetRank 0) with 0. lia.
  - intros u. unfold UPE.symmetricOffsets. cbn [In].
    rewrite offsetsFrom_In by lia. lia.
  - unfold UPE.symmetricOffsets. cbn [List.length].
    rewrite Nat2Z.inj_succ, offsetsFrom_length by lia. lia.
Qed.

(** ** Modular and plain exponentiation *)

(** X3.  For a base [>= 0], an exponent [>= 0] and a modulus [>= 1], with
    exponent [>= 1] or modulus [>= 2], each copy of [modPow] returns the
    power reduced modulo the modulus. *)
Theorem modPow_power base exp md :
  0 <= base -> 0 <= exp -> 1 <= md -> (1 <= exp \/ 2 <= md) ->
  UPE.modPow base exp md = base ^ exp mod md /\
  FactoriX.modPow base exp md = base ^ exp mod md /\
  Solid.modPow base exp md = base ^ exp mod md.
Proof.
  intros Hb He Hm Hor.
  assert (H : UPE.modPow base exp md = base ^ exp mod md).
  { destruct (Z.eq_dec exp 0) as [->|Hne].
    - rewrite Z.pow_0_r, Z.mod_small by lia. reflexivity.
    - apply modPow_spec; lia. }
  split; [exact H|]. split; [exact H|]. rewrite Solid_modPow_eq. exact H.
Qed.

Lemma modPow_power_witness :
  (0 <= 7 /\ 0 <= 560 /\ 1 <= 561 /\ (1 <= 560 \/ 2 <= 561)) /\
  UPE.modPow 7 560 561 = 7 ^ 560 mod 561 /\
  FactoriX.modPow 7 560 561 = 7 ^ 560 mod 561 /\
  Solid.modPow 7 560 561 = 7 ^ 560 mod 561.
Proof.
  split; [lia|]. apply (modPow_power 7 560 561); lia.
Defined.

(** X4.  [powBI a e] is [a ^ e] for [e >= 0], and 1 for a negative [e]. *)
Theorem powBI_power (a e : Z) :
  UPE.powBI a e = (if e <? 0 then 1 else a ^ e) /\
  FactoriX.powBI a e = (if e <? 0 then 1 else a ^ e).
Proof.
  assert (H : UPE.powBI a e = (if e <? 0 then 1 else a ^ e)).
  { destruct (Z.ltb_spec e 0) as [Hneg|Hpos]; [|apply powBI_spec; exact Hpos].
    unfold UPE.powBI, JS.bitFuel. rewrite powBI_loop_S.
    destruct (Z.ltb_spec 0 e); [lia|reflexivity]. }
  split; exact H.
Qed.

(** ** Values of the parser *)

Lemma digit_not_white c : (48 <= c <= 57)%N -> UPE.isWhite c = false.
Proof.
  intros Hc. unfold UPE.isWhite. cbn [existsb].
  repeat match goal with
         | |- context [N.eqb c ?v] => destruct (N.eqb_spec c v); [lia|]
         end.
  cbn [orb]. destruct (N.leb_spec 8192 c); [lia|reflexivity].
Qed.

Lemma stripWhite_digits s :
  Forall (fun c => (48 <= c <= 57)%N) s -> UPE.stripWhite s = s.
Proof.
  induction 1 as [|c s Hc Hs IH]; [reflexivity|].
  cbn [UPE.stripWhite filter]. rewrite digit_not_white by exact Hc.
  cbn [negb]. f_equal. exact IH.
Qed.

Lemma BigInt_fold s :
  forall acc,
    Forall (fun c => (48 <= c <= 57)%N) s ->
    0 <= acc ->
    let v := fold_left (fun a c => 10 * a + Z.of_N (c - 48)) s acc in
    let len := Z.of_nat (List.length s) in
    acc * 10 ^ len <= v < (acc + 1) * 10 ^ len.
Proof.
  induction s as [|c s IH]; intros acc Hs Hacc; cbn [fold_left List.length].
  - cbv zeta. change (10 ^ Z.of_nat 0) with 1. lia.
  - inversion Hs as [|? ? Hc Hs']; subst.
    specialize (IH (10 * acc + Z.of_N (c - 48)) Hs' ltac:(lia)).
    cbv zeta in IH |- *.
    rewrite Nat2Z.inj_succ, Z.pow_succ_r by lia.
    assert (0 < 10 ^ Z.of_nat (List.length s)) by (apply Z.pow_pos_nonneg; lia).
    assert (0 <= Z.of_N (c - 48) <= 9) by lia.
    nia.
Qed.

Lemma BigInt_nonneg s : Forall (fun c => (48 <= c <= 57)%N) s -> 0 <= UPE.BigInt s.
Proof.
  intros Hs. pose proof (BigInt_fold s 0 Hs ltac:(lia)) as H. cbv zeta in H.
  unfold UPE.BigInt. lia.
Qed.

Lemma pow10_not_decimal rest : UPE.isDigitsOnly (UPE.units "10^" ++ rest) = false.
Proof. reflexivity. Qed.

Lemma matchPow10_plain k :
  isDecimal k -> UPE.matchPow10 (UPE.units "10^" ++ k) = Some (k, None).
Proof.
  intros [Hne Hk]. destruct k as [|k0 k]; [contradiction|].
  change (UPE.units "10^" ++ k0 :: k) with (49 :: 48 :: 94 :: (k0 :: k))%N.
  cbn [UPE.matchPow10 N.eqb Pos.eqb andb].
  rewrite <- (app_nil_r (k0 :: k)), spanDigits_app by (exact Hk || exact I).
  rewrite app_nil_r. reflexivity.
Qed.

Lemma matchPow10_adjust k sign c :
  isDecimal k -> (sign = 43 \/ sign = 45)%N -> isDecimal c ->
  UPE.matchPow10 (UPE.units "10^" ++ k ++ sign :: c) = Some (k, Some (sign, c)).
Proof.
  intros [Hne Hk] Hsign Hc. destruct k as [|k0 k]; [contradiction|].
  change (UPE.units "10^" ++ (k0 :: k) ++ sign :: c)
    with (49 :: 48 :: 94 :: ((k0 :: k) ++ sign :: c))%N.
  cbn [UPE.matchPow10 N.eqb Pos.eqb andb].
  rewrite spanDigits_app; [|exact Hk|destruct Hsign as [-> | ->]; reflexivity].
  apply isDigitsOnly_spec in Hc. rewrite Hc.
  destruct Hsign as [-> | ->]; reflexivity.
Qed.

Lemma parse_of_stripped raw c s :
  UPE.stripWhite raw = c :: s ->
  UPE.parseBigIntExpr raw =
    UPE.parseStripped (c :: s) "Unsupported input. Use digits or 10^k (+/- c)." /\
  FactoriX.parseBigIntExpr raw =
    UPE.parseStripped (c :: s) "Format non supporté. Utiliser chiffres ou 10^k (+/- c).".
Proof.
  intros Hs. unfold UPE.parseBigIntExpr, FactoriX.parseBigIntExpr.
  rewrite stripWhite_trim, Hs. split; reflexivity.
Qed.

Lemma parseStripped_pow10 k adj msg rest :
  isDecimal k ->
  UPE.matchPow10 (UPE.units "10^" ++ rest) = Some (k, adj) ->
  UPE.parseStripped (UPE.units "10^" ++ rest) msg =
    let K := UPE.BigInt k in
    let C := match adj with Some (_, m3) => UPE.BigInt m3 | None => 0 end in
    if K >? 2000 then UPE.LogOnly (JS.Number K) (option_map fst adj) C
    else UPE.Big (match option_map fst adj with
                  | Some 43%N => 10 ^ K + C
                  | Some 45%N => 10 ^ K - C
                  | _ => 10 ^ K
                  end) K.
Proof.
  intros [_ Hk] Hm. unfold UPE.parseStripped.
  rewrite pow10_not_decimal, Hm. cbv zeta.
  rewrite powBI_spec by (apply BigInt_nonneg; exact Hk). reflexivity.
Qed.

Lemma stripWhite_app s1 s2 :
  UPE.stripWhite (s1 ++ s2) = UPE.stripWhite s1 ++ UPE.stripWhite s2.
Proof. apply filter_app. Qed.

Lemma stripWhite_idem s : UPE.stripWhite (UPE.stripWhite s) = UPE.stripWhite s.
Proof.
  induction s as [|c s IH]; [reflexivity|].
  cbn [UPE.stripWhite filter]. destruct (UPE.isWhite c) eqn:Hc; cbn [negb].
  - exact IH.
  - cbn [UPE.stripWhite filter]. rewrite Hc. cbn [negb]. f_equal. exact IH.
Qed.

(** X5.  White space anywhere in the input is ignored: the parser gives the
    same result on an input and on that input with all white space
    removed. *)
Theorem parser_ignores_white_space (raw : UPE.jsstring) :
  UPE.parseBigIntExpr raw = UPE.parseBigIntExpr (UPE.stripWhite raw) /\
  FactoriX.parseBigIntExpr raw = FactoriX.parseBigIntExpr (UPE.stripWhite raw).
Proof.
  unfold UPE.parseBigIntExpr, FactoriX.parseBigIntExpr.
  rewrite !stripWhite_trim, stripWhite_idem. split; reflexivity.
Qed.

Lemma stripWhite_pow10_plain k :
  isDecimal k -> UPE.stripWhite (UPE.units "10^" ++ k) = UPE.units "10^" ++ k.
Proof.
  intros [_ Hk]. rewrite stripWhite_app, (stripWhite_digits k Hk). reflexivity.
Qed.

Lemma stripWhite_pow10_adjust k sign c :
  isDecimal k -> (sign = 43 \/ sign = 45)%N -> isDecimal c ->
  UPE.stripWhite (UPE.units "10^" ++ k ++ sign :: c) = UPE.units "10^" ++ k ++ sign :: c.
Proof.
  intros [_ Hk] Hsign [_ Hc].
  rewrite !stripWhite_app, (stripWhite_digits k Hk).
  change (sign :: c) with ([sign] ++ c).
  rewrite stripWhite_app, (stripWhite_digits c Hc).
  destruct Hsign as [-> | ->]; reflexivity.
Qed.

Lemma Number_exact k : k <= 2 ^ 53 -> JS.Number k = JS.Finite k.
Proof.
  intros Hk. unfold JS.Number.
  assert (Hbig : 2 ^ 53 < 2 ^ 1024 - 2 ^ 970) by (vm_compute; reflexivity).
  destruct (Z.ltb_spec k (2 ^ 1024 - 2 ^ 970)); [|lia].
  f_equal. unfold JS.round53.
  destruct (Z.ltb_spec k (2 ^ 53)); [reflexivity|].
  assert (k = 2 ^ 53) as -> by lia. vm_compute. reflexivity.
Qed.

(** X6.  On [10^k], [10^k+c] and [10^k-c] with [k] and [c] sequences of
    decimal digits, both parsers return the exact value [10^k], [10^k + c]
    or [10^k - c] (which can be negative) with [approxLog10 = k] when [k] is
    at most 2000, and the log-only result with [Number(k)], the sign and
    [c] when [k] is above 2000; there [approxLog10] is [k] itself up to
    [2^53] and the binary64 nearest to [k] (or [Infinity]) above. *)
Theorem parser_pow10_value (k c : UPE.jsstring) :
  isDecimal k -> isDecimal c ->
  let K := UPE.BigInt k in
  let C := UPE.BigInt c in
  let approx := if K <=? 2 ^ 53 then JS.Finite K else JS.Number K in
  (UPE.parseBigIntExpr (UPE.units "10^" ++ k) =
     (if K >? 2000 then UPE.LogOnly approx None 0 else UPE.Big (10 ^ K) K) /\
   UPE.parseBigIntExpr (UPE.units "10^" ++ k ++ UPE.units "+" ++ c) =
     (if K >? 2000 then UPE.LogOnly approx (Some 43%N) C else UPE.Big (10 ^ K + C) K) /\
   UPE.parseBigIntExpr (UPE.units "10^" ++ k ++ UPE.units "-" ++ c) =
     (if K >? 2000 then UPE.LogOnly approx (Some 45%N) C else UPE.Big (10 ^ K - C) K)) /\
  (FactoriX.parseBigIntExpr (UPE.units "10^" ++ k) =
     UPE.parseBigIntExpr (UPE.units "10^" ++ k) /\
   FactoriX.parseBigIntExpr (UPE.units "10^" ++ k ++ UPE.units "+" ++ c) =
     UPE.parseBigIntExpr (UPE.units "10^" ++ k ++ UPE.units "+" ++ c) /\
   FactoriX.parseBigIntExpr (UPE.units "10^" ++ k ++ UPE.units "-" ++ c) =
     UPE.parseBigIntExpr (UPE.units "10^" ++ k ++ UPE.units "-" ++ c)).
Proof.
  intros Hk Hc. cbv zeta.
  assert (Happrox : (if UPE.BigInt k <=? 2 ^ 53 then JS.Finite (UPE.BigInt k)
                     else JS.Number (UPE.BigInt k)) = JS.Number (UPE.BigInt k)).
  { destruct (Z.leb_spec (UPE.BigInt k) (2 ^ 53)); [|reflexivity].
    symmetry. apply Number_exact. assumption. }
  rewrite Happrox.
  change (UPE.units "+" ++ c) with (43%N :: c).
  change (UPE.units "-" ++ c) with (45%N :: c).
  pose proof (stripWhite_pow10_plain k Hk) as S0.
  pose proof (stripWhite_pow10_adjust k 43%N c Hk (or_introl eq_refl) Hc) as S1.
  pose proof (stripWhite_pow10_adjust k 45%N c Hk (or_intror eq_refl) Hc) as S2.
  destruct (parse_of_stripped _ 49%N (UPE.units "0^" ++ k) S0) as [P0 Q0].
  destruct (parse_of_stripped _ 49%N (UPE.units "0^" ++ k ++ 43%N :: c) S1) as [P1 Q1].
  destruct (parse_of_stripped _ 49%N (UPE.units "0^" ++ k ++ 45%N :: c) S2) as [P2 Q2].
  rewrite Q0, Q1, Q2, P0, P1, P2.
  change (49%N :: UPE.units "0^" ++ k) with (UPE.units "10^" ++ k).
  change (49%N :: UPE.units "0^" ++ k ++ 43%N :: c) with (UPE.units "10^" ++ k ++ 43%N :: c).
  change (49%N :: UPE.units "0^" ++ k ++ 45%N :: c) with (UPE.units "10^" ++ k ++ 45%N :: c).
  rewrite !(parseStripped_pow10 k None _ k Hk (matchPow10_plain k Hk)).
  rewrite !(parseStripped_pow10 k (Some (43%N, c)) _ (k ++ 43%N :: c) Hk
             (matchPow10_adjust k 43%N c Hk (or_introl eq_refl) Hc)).
  rewrite !(parseStripped_pow10 k (Some (45%N, c)) _ (k ++ 45%N :: c) Hk
             (matchPow10_adjust k 45%N c Hk (or_intror eq_refl) Hc)).
  repeat split.
Qed.

Lemma isDecimal_units_3 : isDecimal (UPE.units "3").
Proof. split; [discriminate|]. repeat constructor; cbn; lia. Qed.

Lemma isDecimal_units_2001 : isDecimal (UPE.units "2001").
Proof. split; [discriminate|]. repeat constructor; cbn; lia. Qed.

Lemma isDecimal_units_2_53_1 : isDecimal (UPE.units "9007199254740993").
Proof. split; [discriminate|]. repeat constructor; cbn; lia. Qed.

Lemma parser_pow10_value_witness :
  ((isDecimal (UPE.units "3") /\ isDecimal (UPE.units "2001")) /\
   (UPE.parseBigIntExpr (UPE.units "10^3") = UPE.Big 1000 3 /\
    UPE.parseBigIntExpr (UPE.units "10^3+2001") = UPE.Big 3001 3 /\
    UPE.parseBigIntExpr (UPE.units "10^3-2001") = UPE.Big (-1001) 3) /\
   (FactoriX.parseBigIntExpr (UPE.units "10^3") = UPE.parseBigIntExpr (UPE.units "10^3") /\
    FactoriX.parseBigIntExpr (UPE.units "10^3+2001") =
      UPE.parseBigIntExpr (UPE.units "10^3+2001") /\
    FactoriX.parseBigIntExpr (UPE.units "10^3-2001") =
      UPE.parseBigIntExpr (UPE.units "10^3-2001"))) /\
  ((isDecimal (UPE.units "9007199254740993") /\ isDecimal (UPE.units "3")) /\
   (UPE.parseBigIntExpr (UPE.units "10^9007199254740993")
      = UPE.LogOnly (JS.Finite 9007199254740992) None 0 /\
    UPE.parseBigIntExpr (UPE.units "10^9007199254740993+3")
      = UPE.LogOnly (JS.Finite 9007199254740992) (Some 43%N) 3 /\
    UPE.parseBigIntExpr (UPE.units "10^9007199254740993-3")
      = UPE.LogOnly (JS.Finite 9007199254740992) (Some 45%N) 3) /\
   (FactoriX.parseBigIntExpr (UPE.units "10^9007199254740993")
      = UPE.parseBigIntExpr (UPE.units "10^9007199254740993") /\
    FactoriX.parseBigIntExpr (UPE.units "10^9007199254740993+3")
      = UPE.parseBigIntExpr (UPE.units "10^9007199254740993+3") /\
    FactoriX.parseBigIntExpr (UPE.units "10^9007199254740993-3")
      = UPE.parseBigIntExpr (UPE.units "10^9007199254740993-3"))).
Proof.
  split.
  - split; [exact (conj isDecimal_units_3 isDecimal_units_2001)|].
    exact (parser_pow10_value (UPE.units "3") (UPE.units "2001")
             isDecimal_units_3 isDecimal_units_2001).
  - split; [exact (conj isDecimal_units_2_53_1 isDecimal_units_3)|].
    exact (parser_pow10_value (UPE.units "9007199254740993") (UPE.units "3")
             isDecimal_units_2_53_1 isDecimal_units_3).
Defined.

(** X7.  On a nonempty sequence [s] of decimal digits both parsers return the
    decimal value of [s], which lies in [[0, 10^len)], with
    [approxLog10 = len - 1]; when [s] does not start with the digit 0 the
    value is at least [10^(len - 1)], so [approxLog10] is then the integer
    part of its decimal logarithm. *)
Theorem parser_decimal_value (s : UPE.jsstring) :
  isDecimal s ->
  let len := Z.of_nat (List.length s) in
  UPE.parseBigIntExpr s = UPE.Big (UPE.BigInt s) (len - 1) /\
  FactoriX.parseBigIntExpr s = UPE.Big (UPE.BigInt s) (len - 1) /\
  0 <= UPE.BigInt s < 10 ^ len /\
  (hd 48%N s <> 48%N -> 10 ^ (len - 1) <= UPE.BigInt s).
Proof.
  intros Hs. cbv zeta. pose proof Hs as [Hne Hdig].
  destruct s as [|c0 s]; [contradiction|].
  pose proof (stripWhite_digits (c0 :: s) Hdig) as Hstrip.
  destruct (parse_of_stripped _ c0 s Hstrip) as [P Q].
  assert (Hd : UPE.isDigitsOnly (c0 :: s) = true) by (apply isDigitsOnly_spec; exact Hs).
  unfold UPE.parseStripped in P, Q. rewrite Hd in P, Q.
  split; [exact P|]. split; [exact Q|].
  pose proof (BigInt_fold (c0 :: s) 0 Hdig ltac:(lia)) as Hall. cbv zeta in Hall.
  split; [unfold UPE.BigInt; lia|].
  intros Hlead. cbn [hd] in Hlead.
  inversion Hdig as [|? ? Hc0 Hrest]; subst.
  pose proof (BigInt_fold s (10 * 0 + Z.of_N (c0 - 48)) Hrest ltac:(lia)) as Htail.
  cbv zeta in Htail. unfold UPE.BigInt. cbn [fold_left List.length].
  rewrite Nat2Z.inj_succ.
  replace (Z.succ (Z.of_nat (List.length s)) - 1) with (Z.of_nat (List.length s)) by lia.
  assert (0 < 10 ^ Z.of_nat (List.length s)) by (apply Z.pow_pos_nonneg; lia).
  assert (1 <= 10 * 0 + Z.of_N (c0 - 48)) by lia.
  nia.
Qed.

Lemma isDecimal_units_5184286 : isDecimal (UPE.units "5184286").
Proof. split; [discriminate|]. repeat constructor; cbn; lia. Qed.

Lemma parser_decimal_value_witness :
  isDecimal (UPE.units "5184286") /\
  UPE.parseBigIntExpr (UPE.units "5184286") = UPE.Big 5184286 6 /\
  FactoriX.parseBigIntExpr (UPE.units "5184286") = UPE.Big 5184286 6 /\
  0 <= 5184286 < 10 ^ 7 /\
  (53%N <> 48%N -> 10 ^ 6 <= 5184286).
Proof.
  split; [exact isDecimal_units_5184286|].
  exact (parser_decimal_value (UPE.units "5184286") isDecimal_units_5184286).
Defined.

(** ** Euclid, Fermat and Pollard rho *)

Lemma gcd_fuel_enough :
  forall (fuel : nat) a b,
    0 <= a -> 0 <= b -> b < Z.of_nat fuel ->
    Solid.gcd fuel a b = Ok (Z.gcd a b).
Proof.
  induction fuel as [|fuel IH]; intros a b Ha Hb Hfuel; [lia|].
  cbn [Solid.gcd]. unfold JS.truthy.
  destruct (Z.eqb_spec b 0) as [->|Hb0]; cbn [negb].
  - rewrite Z.gcd_0_r, Z.abs_eq by lia. reflexivity.
  - pose proof (Z.rem_bound_pos a b Ha ltac:(lia)) as Hrem.
    rewrite IH by lia.
    rewrite Z.rem_mod_nonneg by lia.
    rewrite Z.gcd_comm, Z.gcd_mod by lia. rewrite Z.gcd_comm. reflexivity.
Qed.

(** X8.  On arguments [>= 0] the Euclidean loop of [gcd] ends within [b + 1]
    turns and returns the greatest common divisor; in particular
    [gcd(a, 0) = a] and the result is never negative. *)
Theorem gcd_euclid (fuel : nat) (a b : Z) :
  0 <= a -> 0 <= b -> b < Z.of_nat fuel ->
  Solid.gcd fuel a b = Ok (Z.gcd a b) /\ 0 <= Z.gcd a b /\
  Solid.gcd fuel a 0 = Ok a.
Proof.
  intros Ha Hb Hfuel. split; [apply gcd_fuel_enough; assumption|].
  split; [apply Z.gcd_nonneg|].
  rewrite gcd_fuel_enough by lia. rewrite Z.gcd_0_r, Z.abs_eq by lia. reflexivity.
Qed.

Lemma gcd_euclid_witness :
  (0 <= 1071 /\ 0 <= 462 /\ 462 < Z.of_nat 463) /\
  Solid.gcd 463 1071 462 = Ok (Z.gcd 1071 462) /\ 0 <= Z.gcd 1071 462 /\
  Solid.gcd 463 1071 0 = Ok 1071.
Proof.
  split; [lia|]. apply (gcd_euclid 463 1071 462); lia.
Defined.

Lemma fermatLoop_S turns n a :
  Solid.fermatLoop (S turns) n a =
  (b <- Solid.isqrt (a * a - n) ;;
   if b * b =? a * a - n then
     if (a - b >? 1) && (a + b >? 1) && ((a - b) * (a + b) =? n)
     then Ok (Some (a - b, a + b))
     else Solid.fermatLoop turns n (a + 1)
   else Solid.fermatLoop turns n (a + 1))%result.
Proof. reflexivity. Qed.

(** From [a] with [a * a >= n] on, the loop never takes the square root of
    a negative number. *)
Lemma fermatLoop_total n :
  forall (turns : nat) a,
    0 <= a -> n <= a * a ->
    exists r, Solid.fermatLoop turns n a = Ok r.
Proof.
  induction turns as [|turns IH]; intros a Ha Hsq; [exists None; reflexivity|].
  rewrite fermatLoop_S, newton_isqrt_spec by lia. cbn [bind].
  assert (Hnext : exists r, Solid.fermatLoop turns n (a + 1) = Ok r)
    by (apply IH; nia).
  destruct (_ =? _); [|exact Hnext].
  destruct (_ && _); [eexists; reflexivity|exact Hnext].
Qed.

Lemma fermat_start n :
  0 <= n ->
  let a := if Z.sqrt n * Z.sqrt n <? n then Z.sqrt n + 1 else Z.sqrt n in
  0 <= a /\ n <= a * a /\ Z.sqrt n <= a.
Proof.
  intros Hn. cbv zeta.
  pose proof (Z.sqrt_spec n Hn) as Hs. cbv zeta in Hs.
  pose proof (Z.sqrt_nonneg n).
  destruct (Z.ltb_spec (Z.sqrt n * Z.sqrt n) n); repeat split; nia.
Qed.

(** X9.  For [n >= 0], [fermatFactor] returns without an error: either no
    pair, or a pair [(p, q)] with [p > 1], [q > 1] and [p * q = n]. *)
Theorem fermatFactor_sound (n maxSteps : Z) :
  0 <= n ->
  exists r, Solid.fermatFactor n maxSteps = Ok r /\
    forall p q, r = Some (p, q) -> 1 < p /\ 1 < q /\ p * q = n.
Proof.
  intros Hn. unfold Solid.fermatFactor.
  rewrite newton_isqrt_spec by exact Hn. cbn [bind].
  destruct (fermat_start n Hn) as (Ha & Hsq & _).
  destruct (fermatLoop_total n (Z.to_nat maxSteps) _ Ha Hsq) as [r Hr].
  exists r. split; [exact Hr|].
  intros p q ->. apply (fermatLoop_factors n _ _ p q Hr).
Qed.

Lemma fermatFactor_sound_witness :
  0 <= 3127 /\
  exists r, Solid.fermatFactor 3127 10 = Ok r /\
    forall p q, r = Some (p, q) -> 1 < p /\ 1 < q /\ p * q = 3127.
Proof.
  split; [lia|]. apply (fermatFactor_sound 3127 10). lia.
Defined.

(** The loop finds a pair at the latest when [a] reaches the half sum of a
    factor pair of equal parity. *)
Lemma fermatLoop_finds n p q :
  1 < p -> p <= q -> p * q = n -> Z.even (p + q) = true ->
  forall (turns : nat) a,
    0 <= a -> n <= a * a -> a <= (p + q) / 2 -> (p + q) / 2 - a < Z.of_nat turns ->
    exists p' q', Solid.fermatLoop turns n a = Ok (Some (p', q')) /\
                  p' + q' <= p + q.
Proof.
  intros Hp Hpq Hn Heven.
  assert (Hsum : p + q = 2 * ((p + q) / 2)).
  { pose proof (Z.div_mod (p + q) 2 ltac:(lia)) as Hdm.
    rewrite Zmod_even, Heven in Hdm. lia. }
  set (A := (p + q) / 2) in *.
  induction turns as [|turns IH]; intros a Ha Hsq HaA Hturns; [lia|].
  rewrite fermatLoop_S, newton_isqrt_spec by lia. cbn [bind].
  set (b := Z.sqrt (a * a - n)).
  assert (Hnext : a <> A ->
            exists p' q', Solid.fermatLoop turns n (a + 1) = Ok (Some (p', q')) /\
                          p' + q' <= p + q).
  { intros Hne. apply IH; try lia; nia. }
  destruct (Z.eq_dec a A) as [HeqA|Hne].
  - assert (Hb : b = A - p).
    { unfold b. replace (a * a - n) with ((A - p) * (A - p)) by (subst a; nia).
      apply Z.sqrt_square. lia. }
    rewrite Hb.
    assert (E1 : ((A - p) * (A - p) =? a * a - n) = true) by (apply Z.eqb_eq; subst a; nia).
    rewrite E1.
    replace (a - (A - p)) with p by lia.
    replace (a + (A - p)) with q by lia.
    assert (E2 : (p >? 1) && (q >? 1) && (p * q =? n) = true).
    { rewrite !andb_true_iff, Z.eqb_eq. repeat split; [| |exact Hn];
        apply Z.gtb_lt; lia. }
    rewrite E2. exists p, q. split; [reflexivity|lia].
  - destruct (b * b =? a * a - n); [|apply Hnext; exact Hne].
    destruct (_ && _); [|apply Hnext; exact Hne].
    exists (a - b), (a + b). split; [reflexivity|lia].
Qed.

(** X10.  If [n = p * q] with [1 < p <= q] of equal parity and the half sum
    [(p + q) / 2] is less than [maxSteps] above the square root of [n], then
    [fermatFactor] returns a factor pair, whose sum is at most [p + q]. *)
Theorem fermatFactor_complete (n maxSteps p q : Z) :
  1 < p -> p <= q -> p * q = n -> Z.even (p + q) = true ->
  (p + q) / 2 < Z.sqrt n + maxSteps ->
  exists p' q', Solid.fermatFactor n maxSteps = Ok (Some (p', q')) /\
                1 < p' /\ 1 < q' /\ p' * q' = n /\ p' + q' <= p + q.
Proof.
  intros Hp Hpq Hn Heven Hsteps.
  assert (Hn0 : 0 <= n) by nia.
  unfold Solid.fermatFactor. rewrite newton_isqrt_spec by exact Hn0. cbn [bind].
  destruct (fermat_start n Hn0) as (Ha & Hsq & Hge).
  set (a := if Z.sqrt n * Z.sqrt n <? n then Z.sqrt n + 1 else Z.sqrt n) in *.
  assert (Hsum : p + q = 2 * ((p + q) / 2)).
  { pose proof (Z.div_mod (p + q) 2 ltac:(lia)) as Hdm.
    rewrite Zmod_even, Heven in Hdm. lia. }
  assert (HaA : a <= (p + q) / 2).
  { pose proof (Z.sqrt_spec n Hn0) as Hs. cbv zeta in Hs.
    pose proof (Z.square_nonneg (q - p)).
    assert (n <= ((p + q) / 2) * ((p + q) / 2)) by nia.
    unfold a. destruct (Z.ltb_spec (Z.sqrt n * Z.sqrt n) n); nia. }
  destruct (fermatLoop_finds n p q Hp Hpq Hn Heven (Z.to_nat maxSteps) a Ha Hsq HaA
              ltac:(lia)) as (p' & q' & Hloop & Hle).
  exists p', q'. split; [exact Hloop|].
  destruct (fermatLoop_factors n _ _ p' q' Hloop) as (H1 & H2 & H3).
  auto.
Qed.

Lemma fermatFactor_complete_witness :
  (1 < 53 /\ 53 <= 59 /\ 53 * 59 = 3127 /\ Z.even (53 + 59) = true /\
   (53 + 59) / 2 < Z.sqrt 3127 + 10) /\
  exists p' q', Solid.fermatFactor 3127 10 = Ok (Some (p', q')) /\
                1 < p' /\ 1 < q' /\ p' * q' = 3127 /\ p' + q' <= 53 + 59.
Proof.
  split; [repeat split; try lia; reflexivity|].
  apply (fermatFactor_complete 3127 10 53 59); try lia; reflexivity.
Defined.

Lemma outer_not_one n c m :
  forall (fuel : nat) y g r q x ys g' x' ys',
    Solid.outer fuel n c m y g r q x ys = Ok (g', x', ys') -> g' <> 1.
Proof.
  induction fuel as [|fuel IH]; intros y g r q x ys g' x' ys' Heq; [discriminate|].
  cbn [Solid.outer] in Heq.
  destruct (Z.eqb_spec g 1) as [|Hne].
  - destruct (Solid.inner fuel n c m y r 0 _ q g ys) as [[[[y2 q2] g2] ys2]| |];
      try discriminate.
    cbn [bind] in Heq. apply (IH _ _ _ _ _ _ _ _ _ Heq).
  - inversion Heq; subst. exact Hne.
Qed.

Lemma backtrack_not_one n c x :
  forall (fuel : nat) ys g, Solid.backtrack fuel n c x ys = Ok g -> g <> 1.
Proof.
  induction fuel as [|fuel IH]; intros ys g Heq; [discriminate|].
  cbn [Solid.backtrack] in Heq.
  destruct (Solid.gcd fuel _ n) as [g1| |]; try discriminate.
  cbn [bind] in Heq.
  destruct (Z.eqb_spec g1 1) as [|Hne]; [apply (IH _ _ Heq)|].
  inversion Heq; subst. exact Hne.
Qed.

Lemma rhoBrent_not_one rnd fuel n k g k' :
  Solid.rhoBrent rnd fuel n k = Ok (g, k') -> g <> 1.
Proof.
  unfold Solid.rhoBrent. intros Heq.
  destruct (Z.rem n 2 =? 0); [inversion Heq; lia|].
  destruct (Solid.outer fuel n _ _ _ 1 1 1 0 0) as [[[g1 x1] ys1]| |] eqn:Hout;
    try discriminate.
  cbn [bind] in Heq. apply outer_not_one in Hout.
  destruct (g1 =? n).
  - destruct (Solid.backtrack fuel n _ x1 ys1) as [g2| |] eqn:Hback; try discriminate.
    cbn [bind] in Heq. inversion Heq; subst. apply (backtrack_not_one _ _ _ _ _ _ Hback).
  - inversion Heq; subst. exact Hout.
Qed.

Lemma split_not_n rnd n :
  forall (fuel : nat) k d k', Solid.split rnd fuel n k = Ok (d, k') -> d <> n /\ d <> 1.
Proof.
  induction fuel as [|fuel IH]; intros k d k' Heq; [discriminate|].
  cbn [Solid.split] in Heq.
  destruct (Solid.rhoBrent rnd fuel n k) as [[d1 k1]| |] eqn:Hrho; try discriminate.
  cbn [bind] in Heq.
  destruct (Z.eqb_spec d1 n) as [|Hne]; [apply (IH _ _ _ Heq)|].
  inversion Heq; subst. split; [exact Hne|]. apply (rhoBrent_not_one _ _ _ _ _ _ Hrho).
Qed.

(** X11.  For [n > 0] and whatever the random draws: when [rhoBrent] returns,
    its result is a divisor [g] of [n] with [1 < g <= n] (2 for an even
    [n]); and the loop [while (d === n) d = rhoBrent(n)] of [factor], when
    it ends, leaves a divisor [d] of [n] with [1 < d < n]. *)
Theorem rhoBrent_divisor_nontrivial (rnd : nat -> Z) (fuel : nat) (n : Z) (k : nat) :
  0 < n ->
  (forall g k', Solid.rhoBrent rnd fuel n k = Ok (g, k') ->
     1 < g <= n /\ (g | n) /\ (Z.rem n 2 = 0 -> g = 2)) /\
  (forall d k', Solid.split rnd fuel n k = Ok (d, k') -> 1 < d < n /\ (d | n)).
Proof.
  intros Hn. split.
  - intros g k' Heq.
    destruct (rhoBrent_divisor rnd n Hn fuel k g k' Heq) as [Hpos Hdiv].
    pose proof (rhoBrent_not_one rnd fuel n k g k' Heq) as Hne.
    pose proof (Z.divide_pos_le g n Hn Hdiv).
    repeat split; try lia; try assumption.
    intros Heven. unfold Solid.rhoBrent in Heq. rewrite Heven in Heq.
    cbn in Heq. inversion Heq. reflexivity.
  - intros d k' Heq.
    destruct (split_divisor rnd n Hn fuel k d k' Heq) as [Hpos Hdiv].
    destruct (split_not_n rnd n fuel k d k' Heq) as [Hnn Hn1].
    pose proof (Z.divide_pos_le d n Hn Hdiv).
    repeat split; try lia; assumption.
Qed.

Lemma rhoBrent_divisor_nontrivial_witness :
  0 < 8051 /\
  (forall g k', Solid.rhoBrent (fun _ => 1) 20 8051 0 = Ok (g, k') ->
     1 < g <= 8051 /\ (g | 8051) /\ (Z.rem 8051 2 = 0 -> g = 2)) /\
  (forall d k', Solid.split (fun _ => 1) 20 8051 0 = Ok (d, k') ->
     1 < d < 8051 /\ (d | 8051)).
Proof.
  split; [lia|]. apply (rhoBrent_divisor_nontrivial (fun _ => 1) 20 8051 0). lia.
Defined.

Example rhoBrent_8051 : Solid.rhoBrent (fun _ => 1) 20 8051 0 = Ok (97, 2%nat).
Proof. vm_compute. reflexivity. Qed.

(** ** What the admissibility filters accept *)

Lemma rem_eqb_divide y s : s <> 0 -> (Z.rem y s =? 0) = true <-> (s | y).
Proof. intros Hs. rewrite Z.eqb_eq. apply Z.rem_divide. exact Hs. Qed.

Lemma singleLoop_iff (S : list Z) y :
  Forall Z.prime S ->
  (UPE.singleLoop S y = true <-> forall s, In s S -> (s | y) -> s = y).
Proof.
  intros HS. induction HS as [|sb S Hsb HS IH]; cbn [UPE.singleLoop In].
  - split; [intros _ s []|reflexivity].
  - pose proof (Z.prime_ge_2 sb Hsb) as Hsb2.
    destruct (Z.eqb_spec y sb) as [->|Hne].
    + split; [|reflexivity]. intros _ s [<-|Hin] Hdiv; [reflexivity|].
      rewrite Forall_forall in HS.
      apply Z.divide_prime_prime; auto.
    + destruct (Z.eqb_spec (Z.rem y sb) 0) as [Hrem|Hrem].
      * split; [discriminate|]. intros H. exfalso. apply Hne. symmetry.
        apply H; [left; reflexivity|]. apply Z.rem_divide; [lia|exact Hrem].
      * rewrite IH. split.
        -- intros H s [<-|Hin] Hdiv; [|apply H; assumption].
           exfalso. apply Hrem. apply Z.rem_divide; [lia|exact Hdiv].
        -- intros H s Hin Hdiv. apply H; [right; exact Hin|exact Hdiv].
Qed.

Lemma rem2_even y : (Z.rem y 2 =? 0) = Z.even y.
Proof.
  destruct (Z.eqb_spec (Z.rem y 2) 0) as [H|H].
  - apply Z.rem_divide in H; [|lia]. destruct H as [c ->].
    rewrite Z.mul_comm, Z.even_mul. reflexivity.
  - destruct (Z.even y) eqn:He; [|reflexivity].
    exfalso. apply H. apply Z.rem_divide; [lia|].
    apply Z.even_spec in He. destruct He as [c ->]. exists c. lia.
Qed.

(** X12.  With [S] a list of primes, [admissibleSingle] accepts an offset
    exactly when its candidate is at least 2, is odd or equal to 2, and has
    no divisor in [S] other than itself. *)
Theorem admissibleSingle_iff (X u : Z) (S : list Z) :
  Forall Z.prime S ->
  (UPE.admissibleSingle X u S = true <->
   2 <= X + u /\ (Z.even (X + u) = true -> X + u = 2) /\
   forall s, In s S -> (s | X + u) -> s = X + u).
Proof.
  intros HS. unfold UPE.admissibleSingle. rewrite rem2_even.
  destruct (Z.ltb_spec (X + u) 2) as [Hlt|Hge].
  - split; [discriminate|]. intros [H _]. lia.
  - destruct (Z.even (X + u)) eqn:Heven.
    + rewrite Z.eqb_eq. split.
      * intros H2. split; [lia|]. split; [auto|].
        intros s Hin Hdiv. rewrite Forall_forall in HS.
        rewrite H2 in *. apply Z.divide_prime_prime; auto using Z.prime_2.
      * intros (_ & H & _). auto.
    + rewrite (singleLoop_iff S (X + u) HS). split.
      * intros H. split; [lia|]. split; [discriminate|exact H].
      * intros (_ & _ & H). exact H.
Qed.

Lemma admissibleSingle_iff_witness :
  Forall Z.prime [2; 3] /\
  (UPE.admissibleSingle 20 5 [2; 3] = true <->
   2 <= 20 + 5 /\ (Z.even (20 + 5) = true -> 20 + 5 = 2) /\
   forall s, In s [2; 3] -> (s | 20 + 5) -> s = 20 + 5).
Proof.
  split; [exact primes_2_3|]. apply (admissibleSingle_iff 20 5 [2; 3] primes_2_3).
Defined.

Lemma pairLoop_iff (S : list Z) a b :
  Forall Z.prime S ->
  (UPE.pairLoop S a b = true <->
   forall s, In s S -> s <> a -> s <> b -> ~ (s | a) /\ ~ (s | b)).
Proof.
  intros HS. induction HS as [|sb S Hsb HS IH]; cbn [UPE.pairLoop In].
  - split; [intros _ s []|reflexivity].
  - pose proof (Z.prime_ge_2 sb Hsb) as Hsb2.
    destruct (Z.eqb_spec a sb) as [->|Hna]; cbn [orb].
    { rewrite IH. split; intros H s; [intros [<-|Hin]|intros Hin]; auto; try tauto. }
    destruct (Z.eqb_spec b sb) as [->|Hnb]; cbn [orb].
    { rewrite IH. split; intros H s; [intros [<-|Hin]|intros Hin]; auto; try tauto. }
    destruct (Z.eqb_spec (Z.rem a sb) 0) as [Ha|Ha]; cbn [orb].
    { split; [discriminate|]. intros H. exfalso.
      destruct (H sb (or_introl eq_refl)) as [H1 _]; auto.
      apply H1. apply Z.rem_divide; [lia|exact Ha]. }
    destruct (Z.eqb_spec (Z.rem b sb) 0) as [Hb|Hb].
    { split; [discriminate|]. intros H. exfalso.
      destruct (H sb (or_introl eq_refl)) as [_ H2]; auto.
      apply H2. apply Z.rem_divide; [lia|exact Hb]. }
    rewrite IH. split.
    + intros H s [<-|Hin] H1 H2; [|apply H; assumption].
      split; intros Hdiv; [apply Ha|apply Hb]; apply Z.rem_divide; (lia || assumption).
    + intros H s Hin. apply H. right. exact Hin.
Qed.

(** X13.  With [S] a list of primes, the pair filters accept an offset
    exactly when both candidates are at least 2 and odd or equal to 2, and
    no member of [S] other than the two candidates themselves divides
    either; a candidate may still have the other candidate as a proper
    divisor.  [admissibleAroundSqrt] adds the abort flag. *)
Theorem admissiblePair_iff (abort : bool) (x t : Z) (S : list Z) :
  Forall Z.prime S ->
  let a := x - t in
  let b := x + t in
  let accepted :=
    2 <= a /\ 2 <= b /\
    (Z.even a = true -> a = 2) /\ (Z.even b = true -> b = 2) /\
    forall s, In s S -> s <> a -> s <> b -> ~ (s | a) /\ ~ (s | b) in
  (UPE.admissibleGoldbach x t S = true <-> accepted) /\
  (FactoriX.admissibleAroundSqrt abort x t S = true <-> abort = false /\ accepted).
Proof.
  intros HS. cbv zeta.
  assert (H : UPE.admissibleGoldbach x t S = true <->
              2 <= x - t /\ 2 <= x + t /\
              (Z.even (x - t) = true -> x - t = 2) /\
              (Z.even (x + t) = true -> x + t = 2) /\
              forall s, In s S -> s <> x - t -> s <> x + t ->
                        ~ (s | x - t) /\ ~ (s | x + t)).
  { unfold UPE.admissibleGoldbach. rewrite !rem2_even.
    destruct (Z.ltb_spec (x - t) 2) as [Ha|Ha]; cbn [orb].
    { split; [discriminate|]. intros (H & _). lia. }
    destruct (Z.ltb_spec (x + t) 2) as [Hb|Hb]; cbn [orb].
    { split; [discriminate|]. intros (_ & H & _). lia. }
    destruct (Z.even (x - t)) eqn:Ea, (Z.eqb_spec (x - t) 2) as [Ea2|Ea2];
      cbn [andb negb orb];
      try (split; [discriminate|]; intros (_ & _ & H & _); specialize (H eq_refl); lia);
      destruct (Z.even (x + t)) eqn:Eb, (Z.eqb_spec (x + t) 2) as [Eb2|Eb2];
      cbn [andb negb orb];
      try (split; [discriminate|]; intros (_ & _ & _ & H & _); specialize (H eq_refl); lia);
      rewrite (pairLoop_iff S _ _ HS);
      (split; [intros H; repeat split; try lia; try (intros; assumption || discriminate);
               apply H; assumption
              |intros (_ & _ & _ & _ & H); exact H]). }
  split; [exact H|].
  unfold FactoriX.admissibleAroundSqrt. destruct abort.
  - split; [discriminate|]. intros [Habs _]. discriminate.
  - fold (UPE.admissibleGoldbach x t S). rewrite H. tauto.
Qed.

Lemma admissiblePair_iff_witness :
  Forall Z.prime [2; 3] /\
  let a := 6 - 3 in
  let b := 6 + 3 in
  let accepted :=
    2 <= a /\ 2 <= b /\
    (Z.even a = true -> a = 2) /\ (Z.even b = true -> b = 2) /\
    forall s, In s [2; 3] -> s <> a -> s <> b -> ~ (s | a) /\ ~ (s | b) in
  (UPE.admissibleGoldbach 6 3 [2; 3] = true <-> accepted) /\
  (FactoriX.admissibleAroundSqrt false 6 3 [2; 3] = true <-> false = false /\ accepted).
Proof.
  exact (conj primes_2_3 (admissiblePair_iff false 6 3 [2; 3] primes_2_3)).
Defined.

Example admissibleGoldbach_3_9 : UPE.admissibleGoldbach 6 3 [2; 3] = true.
Proof. reflexivity. Qed.

(** Every number from 2 on has a prime divisor. *)
Lemma prime_divisor_exists :
  forall (bound : nat) k, 2 <= k < Z.of_nat bound -> exists p, Z.prime p /\ (p | k).
Proof.
  induction bound as [|bound IH]; intros k Hk; [lia|].
  destruct (prime_dec k) as [Hp|Hnp].
  - exists k. split; [apply prime_alt; exact Hp|apply Z.divide_refl].
  - destruct (not_prime_divide k ltac:(lia) Hnp) as (d & Hd & Hdiv).
    destruct (IH d ltac:(lia)) as (p & Hp & Hpd).
    exists p. split; [exact Hp|]. eapply Z.divide_trans; eassumption.
Qed.

(** X14.  Below the square of [P + 1] the prefilter built on
    [primesUpTo P] is exact: for [2 <= P < 2^31] and a candidate
    [X + u < (P + 1) * (P + 1)], [admissibleSingle] accepts the offset exactly
    when the candidate is prime. *)
Theorem admissibleSingle_exact_below_square (P X u : Z) :
  2 <= P < 2 ^ 31 ->
  X + u < (P + 1) * (P + 1) ->
  (UPE.admissibleSingle X u (UPE.primesUpTo P) = true <-> Z.prime (X + u)).
Proof.
  intros HP Hsq.
  destruct (primesUpTo_spec P) as (Hin & _ & _).
  assert (Hmax : Z.max 2 (JS.toInt32 P) = P).
  { unfold JS.toInt32. rewrite Z.mod_small by lia.
    destruct (Z.ltb_spec P (2 ^ 31)); lia. }
  rewrite Hmax in Hin.
  assert (HS : Forall Z.prime (UPE.primesUpTo P)).
  { apply Forall_forall. intros p Hp. apply Hin in Hp. tauto. }
  split.
  - intros Hadm. unfold UPE.admissibleSingle in Hadm. rewrite rem2_even in Hadm.
    destruct (Z.ltb_spec (X + u) 2) as [|Hge]; [discriminate|].
    destruct (Z.even (X + u)) eqn:Heven.
    + apply Z.eqb_eq in Hadm. rewrite Hadm. exact Z.prime_2.
    + rewrite (singleLoop_iff _ _ HS) in Hadm.
      apply prime_iff_no_small_divisor; [exact Hge|].
      intros (d & Hd & Hdsq & Hdiv).
      destruct (prime_divisor_exists (Z.to_nat (d + 1)) d ltac:(lia)) as (p & Hp & Hpd).
      pose proof (Z.prime_ge_2 p Hp).
      pose proof (Z.divide_pos_le p d ltac:(lia) Hpd).
      assert (p = X + u).
      { apply Hadm; [apply Hin; split; [exact Hp|nia]|].
        eapply Z.divide_trans; eassumption. }
      nia.
  - intros Hprime. unfold UPE.admissibleSingle.
    pose proof (Z.prime_ge_2 _ Hprime).
    destruct (Z.ltb_spec (X + u) 2); [lia|].
    destruct (Z.eqb_spec (Z.rem (X + u) 2) 0) as [Hrem|_].
    + rewrite (prime_even_is_2 _ Hprime Hrem). reflexivity.
    + apply singleLoop_prime; assumption.
Qed.

Lemma admissibleSingle_exact_below_square_witness :
  (2 <= 15 < 2 ^ 31 /\ 200 + 11 < (15 + 1) * (15 + 1)) /\
  (UPE.admissibleSingle 200 11 (UPE.primesUpTo 15) = true <-> Z.prime (200 + 11)).
Proof.
  split; [lia|]. apply (admissibleSingle_exact_below_square 15 200 11); lia.
Defined.

(** ** What the searches report *)

Lemma sorted_before {A : Type} (R : A -> A -> Prop) (pre post : list A) (u v : A) :
  StronglySorted R (pre ++ u :: post) ->
  In v (pre ++ u :: post) -> ~ R u v -> v <> u -> In v pre.
Proof.
  induction pre as [|w pre IH]; cbn [app]; intros Hs Hin Hnot Hne.
  - apply StronglySorted_inv in Hs. destruct Hs as [_ Hall].
    destruct Hin as [->|Hin]; [contradiction|].
    rewrite Forall_forall in Hall. exfalso. apply Hnot, Hall, Hin.
  - apply StronglySorted_inv in Hs. destruct Hs as [Hs _].
    destruct Hin as [->|Hin]; [left; reflexivity|].
    right. apply IH; assumption.
Qed.

Lemma rank_lt_abs u v : offsetRank v < offsetRank u -> Z.abs v <= Z.abs u.
Proof.
  unfold offsetRank. destruct (Z.gtb_spec v 0), (Z.gtb_spec u 0); lia.
Qed.

Lemma rank_lt_neq u v : offsetRank v < offsetRank u -> v <> u /\ ~ offsetRank u < offsetRank v.
Proof. intros H. split; [intros ->|]; lia. Qed.

(** An offset that comes before a yielded offset was yielded before it. *)
Lemma window_before T (pre post : list Z) (u v : Z) :
  UPE.symmetricOffsets T = pre ++ u :: post ->
  offsetRank v < offsetRank u -> In v pre.
Proof.
  intros Hsplit Hrank.
  assert (Hs : StronglySorted (fun a b => offsetRank a < offsetRank b) (pre ++ u :: post)).
  { rewrite <- Hsplit. unfold UPE.symmetricOffsets.
    destruct (offsetsFrom_sorted T (Z.to_nat T) 1 ltac:(lia)) as [Hs Hf].
    constructor; [exact Hs|].
    eapply Forall_impl; [|exact Hf]. cbv beta. intros w Hw.
    change (offsetRank 0) with 0. lia. }
  assert (Hu : In u (UPE.symmetricOffsets T))
    by (rewrite Hsplit; apply in_or_app; right; left; reflexivity).
  apply symmetricOffsets_In in Hu.
  assert (Hv : In v (pre ++ u :: post)).
  { rewrite <- Hsplit. apply symmetricOffsets_In.
    pose proof (rank_lt_abs u v Hrank). destruct Hu as [->|Hu]; [|lia].
    left. unfold offsetRank in Hrank.
    destruct (Z.gtb_spec v 0); cbn in Hrank; lia. }
  destruct (rank_lt_neq u v Hrank) as [Hne Hnot].
  apply (sorted_before _ pre post u v Hs Hv Hnot Hne).
Qed.

Lemma scanPrime_found X S mrRounds :
  forall offs tested log u cand t log',
    UPE.scanPrime offs X S mrRounds tested log = (UPE.PrimeFound u cand t, log') ->
    exists pre post,
      offs = pre ++ u :: post /\ cand = X + u /\
      UPE.admissibleSingle X u S = true /\
      UPE.isProbablePrime cand mrRounds = true /\
      Forall (fun v => UPE.admissibleSingle X v S = true ->
                       UPE.isProbablePrime (X + v) mrRounds = false) pre.
Proof.
  induction offs as [|w offs IH]; intros tested log u cand t log' Heq;
    cbn [UPE.scanPrime] in Heq; [discriminate|].
  destruct (UPE.admissibleSingle X w S) eqn:Hadm; cbn [negb] in Heq.
  - destruct (UPE.isProbablePrime (X + w) mrRounds) eqn:Hprime.
    + inversion Heq; subst. exists [], offs. repeat split; auto.
    + destruct (tested + 1 >=? 3); [discriminate|].
      destruct (IH _ _ _ _ _ _ Heq) as (pre & post & E & Hc & Ha & Hp & Hall).
      exists (w :: pre), post. subst offs. repeat split; auto.
  - destruct (IH _ _ _ _ _ _ Heq) as (pre & post & E & Hc & Ha & Hp & Hall).
    exists (w :: pre), post. subst offs. repeat split; auto.
    constructor; [|exact Hall]. congruence.
Qed.

(** X15.  When [runPrimeNearX] reports a prime at offset [u], the input
    parsed to an integer [X], the reported value is [X + u], it is at least
    2, it passed the prefilter and [isProbablePrime], [|u|] is within the
    radius in use, and every offset that comes before [u] in the order 0,
    +1, -1, ... was not admissible or failed [isProbablePrime]. *)
Theorem runPrimeNearX_found (rawX : UPE.jsstring) (Pauto Tauto Poverride Toverride mrRounds : Z)
        (u cand tested : Z) :
  fst (UPE.runPrimeNearX rawX Pauto Tauto Poverride Toverride mrRounds)
    = UPE.PrimeFound u cand tested ->
  exists X lg,
    UPE.parseBigIntExpr rawX = UPE.Big X lg /\
    cand = X + u /\ 2 <= cand /\
    Z.abs u <= Z.max 0 (usedT Tauto Toverride) /\
    UPE.admissibleSingle X u (UPE.primesUpTo (usedP Pauto Poverride)) = true /\
    UPE.isProbablePrime cand mrRounds = true /\
    forall v, offsetRank v < offsetRank u ->
      UPE.admissibleSingle X v (UPE.primesUpTo (usedP Pauto Poverride)) = true ->
      UPE.isProbablePrime (X + v) mrRounds = false.
Proof.
  unfold UPE.runPrimeNearX. fold (usedP Pauto Poverride). fold (usedT Tauto Toverride).
  intros Heq.
  destruct (UPE.parseBigIntExpr rawX) as [err|X lg|lg op c]; try discriminate.
  destruct (_ && _); [discriminate|].
  destruct (UPE.scanPrime _ X _ mrRounds 0 []) as [r log'] eqn:Hscan.
  cbn [fst] in Heq. subst r.
  destruct (scanPrime_found _ _ _ _ _ _ _ _ _ _ Hscan) as (pre & post & E & Hc & Ha & Hp & Hall).
  exists X, lg. split; [reflexivity|]. split; [exact Hc|].
  split.
  { unfold UPE.admissibleSingle in Ha. subst cand.
    destruct (Z.ltb_spec (X + u) 2); [discriminate|lia]. }
  split.
  { assert (Hin : In u (UPE.symmetricOffsets (usedT Tauto Toverride)))
      by (rewrite E; apply in_or_app; right; left; reflexivity).
    apply symmetricOffsets_In in Hin. lia. }
  split; [exact Ha|]. split; [exact Hp|].
  intros v Hrank Hadm.
  rewrite Forall_forall in Hall. apply Hall; [|exact Hadm].
  apply (window_before _ pre post u v E Hrank).
Qed.

Lemma runPrimeNearX_found_witness :
  fst (UPE.runPrimeNearX (UPE.units "5184286") 24 478 15 239 12)
    = UPE.PrimeFound (-5) 5184281 2 /\
  exists X lg,
    UPE.parseBigIntExpr (UPE.units "5184286") = UPE.Big X lg /\
    5184281 = X + -5 /\ 2 <= 5184281 /\
    Z.abs (-5) <= Z.max 0 (usedT 478 239) /\
    UPE.admissibleSingle X (-5) (UPE.primesUpTo (usedP 24 15)) = true /\
    UPE.isProbablePrime 5184281 12 = true /\
    forall v, offsetRank v < offsetRank (-5) ->
      UPE.admissibleSingle X v (UPE.primesUpTo (usedP 24 15)) = true ->
      UPE.isProbablePrime (X + v) 12 = false.
Proof.
  assert (H : fst (UPE.runPrimeNearX (UPE.units "5184286") 24 478 15 239 12)
              = UPE.PrimeFound (-5) 5184281 2) by (vm_compute; reflexivity).
  exact (conj H (runPrimeNearX_found (UPE.units "5184286") 24 478 15 239 12
                   (-5) 5184281 2 H)).
Defined.

Lemma scanPair_found x S mrRounds :
  forall offs tested log t a b n log',
    UPE.scanPair offs x S mrRounds tested log = (UPE.PairFound t a b n, log') ->
    exists pre post,
      offs = pre ++ t :: post /\ a = x - t /\ b = x + t /\
      UPE.admissibleGoldbach x t S = true /\
      UPE.isProbablePrime a mrRounds = true /\
      UPE.isProbablePrime b mrRounds = true /\
      Forall (fun v => UPE.admissibleGoldbach x v S = true ->
                       UPE.isProbablePrime (x - v) mrRounds
                       && UPE.isProbablePrime (x + v) mrRounds = false) pre.
Proof.
  induction offs as [|w offs IH]; intros tested log t a b n log' Heq;
    cbn [UPE.scanPair] in Heq; [discriminate|].
  destruct (UPE.admissibleGoldbach x w S) eqn:Hadm; cbn [negb] in Heq.
  - destruct (UPE.isProbablePrime (x - w) mrRounds && UPE.isProbablePrime (x + w) mrRounds)
      eqn:Hprime.
    + inversion Heq; subst. apply andb_true_iff in Hprime. destruct Hprime.
      exists [], offs. repeat split; auto.
    + destruct (tested + 1 >=? 3); [discriminate|].
      destruct (IH _ _ _ _ _ _ _ Heq) as (pre & post & E & H1 & H2 & H3 & H4 & H5 & Hall).
      exists (w :: pre), post. subst offs. repeat split; auto.
  - destruct (IH _ _ _ _ _ _ _ Heq) as (pre & post & E & H1 & H2 & H3 & H4 & H5 & Hall).
    exists (w :: pre), post. subst offs. repeat split; auto.
    constructor; [|exact Hall]. congruence.
Qed.

(** X16.  When [runGoldbach] reports a pair [(a, b)] at offset [t], the input
    parsed to an even integer [E], [a = E/2 - t] and [b = E/2 + t] sum to
    [E], both are at least 2 and passed the prefilter and [isProbablePrime],
    [|t|] is within the radius in use, and every admissible offset that
    comes before [t] in the order 0, +1, -1, ... had a member that failed
    [isProbablePrime]. *)
Theorem runGoldbach_found (rawE : UPE.jsstring) (Pauto Tauto Poverride Toverride mrRounds : Z)
        (t a b tested : Z) :
  fst (UPE.runGoldbach rawE Pauto Tauto Poverride Toverride mrRounds)
    = UPE.PairFound t a b tested ->
  exists E lg,
    UPE.parseBigIntExpr rawE = UPE.Big E lg /\
    Z.rem E 2 = 0 /\ a = Z.quot E 2 - t /\ b = Z.quot E 2 + t /\ a + b = E /\
    2 <= a /\ 2 <= b /\
    Z.abs t <= Z.max 0 (usedT Tauto Toverride) /\
    UPE.isProbablePrime a mrRounds = true /\
    UPE.isProbablePrime b mrRounds = true /\
    forall v, offsetRank v < offsetRank t ->
      UPE.admissibleGoldbach (Z.quot E 2) v (UPE.primesUpTo (usedP Pauto Poverride)) = true ->
      UPE.isProbablePrime (Z.quot E 2 - v) mrRounds
      && UPE.isProbablePrime (Z.quot E 2 + v) mrRounds = false.
Proof.
  unfold UPE.runGoldbach. fold (usedP Pauto Poverride). fold (usedT Tauto Toverride).
  intros Heq.
  destruct (UPE.parseBigIntExpr rawE) as [err|E lg|lg op c]; try discriminate.
  destruct (Z.eqb_spec (Z.rem E 2) 0) as [Heven|]; cbn [negb] in Heq; [|discriminate].
  destruct (_ && _); [discriminate|].
  destruct (UPE.scanPair _ (Z.quot E 2) _ mrRounds 0 []) as [r log'] eqn:Hscan.
  cbn [fst] in Heq. subst r.
  destruct (scanPair_found _ _ _ _ _ _ _ _ _ _ _ Hscan)
    as (pre & post & Esplit & Ha & Hb & Hadm & Hpa & Hpb & Hall).
  exists E, lg. split; [reflexivity|]. split; [exact Heven|].
  split; [exact Ha|]. split; [exact Hb|].
  split.
  { pose proof (Z.quot_rem' E 2) as Hqr. rewrite Heven in Hqr. lia. }
  assert (Hge : 2 <= a /\ 2 <= b).
  { unfold UPE.admissibleGoldbach in Hadm. subst a b.
    destruct (Z.ltb_spec (Z.quot E 2 - t) 2); [discriminate|].
    destruct (Z.ltb_spec (Z.quot E 2 + t) 2); [discriminate|]. lia. }
  split; [apply Hge|]. split; [apply Hge|].
  split.
  { assert (Hin : In t (UPE.symmetricOffsets (usedT Tauto Toverride)))
      by (rewrite Esplit; apply in_or_app; right; left; reflexivity).
    apply symmetricOffsets_In in Hin. lia. }
  split; [exact Hpa|]. split; [exact Hpb|].
  intros v Hrank Hv.
  rewrite Forall_forall in Hall. apply Hall; [|exact Hv].
  apply (window_before _ pre post t v Esplit Hrank).
Qed.

Lemma runGoldbach_found_witness :
  fst (UPE.runGoldbach (UPE.units "100") 7 42 0 0 12) = UPE.PairFound 3 47 53 1 /\
  exists E lg,
    UPE.parseBigIntExpr (UPE.units "100") = UPE.Big E lg /\
    Z.rem E 2 = 0 /\ 47 = Z.quot E 2 - 3 /\ 53 = Z.quot E 2 + 3 /\ 47 + 53 = E /\
    2 <= 47 /\ 2 <= 53 /\
    Z.abs 3 <= Z.max 0 (usedT 42 0) /\
    UPE.isProbablePrime 47 12 = true /\
    UPE.isProbablePrime 53 12 = true /\
    forall v, offsetRank v < offsetRank 3 ->
      UPE.admissibleGoldbach (Z.quot E 2) v (UPE.primesUpTo (usedP 7 0)) = true ->
      UPE.isProbablePrime (Z.quot E 2 - v) 12
      && UPE.isProbablePrime (Z.quot E 2 + v) 12 = false.
Proof.
  assert (H : fst (UPE.runGoldbach (UPE.units "100") 7 42 0 0 12)
              = UPE.PairFound 3 47 53 1) by (vm_compute; reflexivity).
  exact (conj H (runGoldbach_found (UPE.units "100") 7 42 0 0 12 3 47 53 1 H)).
Defined.

Lemma isqrt_loop_nonneg n :
  forall (fuel : nat) x0 bit, 0 <= x0 -> 0 <= UPE.isqrt_loop fuel n x0 bit.
Proof.
  induction fuel as [|fuel IH]; intros x0 bit Hx0; [exact Hx0|].
  rewrite isqrt_loop_S.
  destruct (Z.ltb_spec 0 bit); [|exact Hx0].
  apply IH. destruct (_ <=? _); lia.
Qed.

Lemma bitwise_isqrt_sqrt n :
  0 <= n -> UPE.isqrt n = Ok (Z.sqrt n) /\ FactoriX.isqrt n = Ok (Z.sqrt n).
Proof.
  intros Hn. unfold UPE.isqrt, FactoriX.isqrt.
  destruct (Z.ltb_spec n 0); [lia|].
  destruct (Z.ltb_spec n 2).
  - assert (Hs : Z.sqrt n = n).
    { assert (n = 0 \/ n = 1) as [-> | ->] by lia; reflexivity. }
    rewrite Hs. split; reflexivity.
  - pose proof (bitwise_isqrt_spec n ltac:(lia)) as Hr. cbv zeta in Hr.
    pose proof (isqrt_loop_nonneg n
                  (JS.bitFuel (Z.shiftl 1 (JS.binaryLength n - 1))) 1
                  (Z.shiftl 1 (JS.binaryLength n - 1)) ltac:(lia)) as Hpos.
    assert (Hs : Z.sqrt n
                 = UPE.isqrt_loop (JS.bitFuel (Z.shiftl 1 (JS.binaryLength n - 1))) n 1
                     (Z.shiftl 1 (JS.binaryLength n - 1))).
    { apply Z.sqrt_unique. lia. }
    rewrite <- Hs. split; reflexivity.
Qed.

Lemma probe_found usePrefilter S N ring u hit y checked log r log' :
  UPE.probe usePrefilter S N ring u hit y checked log = (UPE.Return r, log') ->
  match r with
  | UPE.FactorFound h p q _ =>
      h = hit /\ p = y /\ p <> 0 /\ p * q = N /\ (usePrefilter = true -> 2 <= p)
  | UPE.Unexpected _ => True
  | _ => False
  end.
Proof.
  unfold UPE.probe, UPE.passesPrefilter.
  destruct usePrefilter; cbn [negb].
  - destruct (Z.ltb_spec y 2); [discriminate|].
    destruct (UPE.singleLoop S y); [|discriminate].
    destruct (Z.eqb_spec y 0); [intros Hr; inversion Hr; exact I|].
    destruct (Z.eqb_spec (Z.rem N y) 0) as [Hrem|]; [|discriminate].
    intros Hr; inversion Hr; subst. repeat split; auto.
    pose proof (Z.quot_rem' N y) as Hqr. rewrite Hrem in Hqr. lia.
  - destruct (Z.eqb_spec y 0); [intros Hr; inversion Hr; exact I|].
    destruct (Z.eqb_spec (Z.rem N y) 0) as [Hrem|]; [|discriminate].
    intros Hr; inversion Hr; subst. repeat split; auto; try discriminate.
    pose proof (Z.quot_rem' N y) as Hqr. rewrite Hrem in Hqr. lia.
Qed.

Lemma UPE_scanRing_found usePrefilter S N X T ring :
  forall offs checked log u p q n log',
    UPE.scanRing offs usePrefilter S N X T ring checked log
      = (UPE.Return (UPE.FactorFound u p q n), log') ->
    p = X + u /\ p <> 0 /\ p * q = N /\ (usePrefilter = true -> 2 <= p).
Proof.
  induction offs as [|w offs IH]; intros checked log u p q n log' Heq;
    cbn [UPE.scanRing] in Heq; [discriminate|].
  destruct ((ring >? 0) && (Z.abs w <? (ring - 1) * T)); [apply (IH _ _ _ _ _ _ _ Heq)|].
  destruct (UPE.probe usePrefilter S N ring w w (X + w) checked log)
    as [[checked1|r] log1] eqn:Ha.
  - destruct (negb (w =? 0)).
    + destruct (UPE.probe usePrefilter S N ring w (- w) (X - w) checked1 log1)
        as [[checked2|r] log2] eqn:Hb.
      * destruct ((ring =? 0) && (checked2 >=? 3)); [discriminate|].
        apply (IH _ _ _ _ _ _ _ Heq).
      * inversion Heq; subst. apply probe_found in Hb.
        destruct Hb as (-> & -> & H1 & H2 & H3). repeat split; auto; lia.
    + destruct ((ring =? 0) && (checked1 >=? 3)); [discriminate|].
      apply (IH _ _ _ _ _ _ _ Heq).
  - inversion Heq; subst. apply probe_found in Ha.
    destruct Ha as (-> & -> & H1 & H2 & H3). repeat split; auto.
Qed.

Lemma UPE_scanRings_found usePrefilter S N X T K :
  forall (fuel : nat) ring checked log u p q n log',
    UPE.scanRings fuel usePrefilter S N X T K ring checked log
      = (UPE.FactorFound u p q n, log') ->
    p = X + u /\ p <> 0 /\ p * q = N /\ (usePrefilter = true -> 2 <= p).
Proof.
  induction fuel as [|fuel IH]; intros ring checked log u p q n log' Heq;
    cbn [UPE.scanRings] in Heq; [discriminate|].
  destruct (ring <=? K); [|discriminate].
  destruct (UPE.scanRing _ usePrefilter S N X T ring checked log)
    as [[checked'|r] log1] eqn:Hring.
  - apply (IH _ _ _ _ _ _ _ _ Heq).
  - inversion Heq; subst. apply (UPE_scanRing_found _ _ _ _ _ _ _ _ _ _ _ _ _ _ Hring).
Qed.

(** X17.  When [runFactorization] reports a factor [p] with partner [q] at
    offset [u], the input parsed to an integer [N >= 4], [p] is the integer
    square root of [N] plus [u], [p] is not zero and [p * q = N]; with the
    prefilter on, [p >= 2]. *)
Theorem runFactorization_found (rawN : UPE.jsstring) (P T K : Z) (usePrefilter : bool)
        (mrRounds u p q checked : Z) :
  fst (UPE.runFactorization rawN P T K usePrefilter mrRounds)
    = UPE.FactorFound u p q checked ->
  exists N lg,
    UPE.parseBigIntExpr rawN = UPE.Big N lg /\ 4 <= N /\
    p = Z.sqrt N + u /\ p <> 0 /\ p * q = N /\ (usePrefilter = true -> 2 <= p).
Proof.
  unfold UPE.runFactorization. intros Heq.
  destruct (UPE.parseBigIntExpr rawN) as [err|N lg|lg op c]; try discriminate.
  destruct (Z.ltb_spec N 4); [discriminate|].
  rewrite (proj1 (bitwise_isqrt_sqrt N ltac:(lia))) in Heq.
  destruct (UPE.scanRings _ usePrefilter _ N (Z.sqrt N) T K 0 0 []) as [r log'] eqn:Hscan.
  cbn [fst] in Heq. subst r.
  exists N, lg. split; [reflexivity|]. split; [lia|].
  apply (UPE_scanRings_found _ _ _ _ _ _ _ _ _ _ _ _ _ _ _ Hscan).
Qed.

Lemma runFactorization_found_witness :
  fst (UPE.runFactorization (UPE.units "91") 7 40 40 true 12) = UPE.FactorFound (-2) 7 13 2 /\
  exists N lg,
    UPE.parseBigIntExpr (UPE.units "91") = UPE.Big N lg /\ 4 <= N /\
    7 = Z.sqrt N + -2 /\ 7 <> 0 /\ 7 * 13 = N /\ (true = true -> 2 <= 7).
Proof.
  assert (H : fst (UPE.runFactorization (UPE.units "91") 7 40 40 true 12)
              = UPE.FactorFound (-2) 7 13 2) by (vm_compute; reflexivity).
  exact (conj H (runFactorization_found (UPE.units "91") 7 40 40 true 12 (-2) 7 13 2 H)).
Defined.

(** X18.  The three [isqrt] compute the same function: on [n >= 0] each
    returns the non-negative integer square root of [n], and on [n < 0]
    each throws. *)
Theorem isqrt_agree (n : Z) :
  UPE.isqrt n = (if n <? 0 then Raise "isqrt of negative" else Ok (Z.sqrt n)) /\
  FactoriX.isqrt n = (if n <? 0 then Raise "isqrt negative" else Ok (Z.sqrt n)) /\
  (exists msg, Solid.isqrt n = (if n <? 0 then Raise msg else Ok (Z.sqrt n))).
Proof.
  destruct (Z.ltb_spec n 0) as [Hneg|Hpos].
  - unfold UPE.isqrt, FactoriX.isqrt, Solid.isqrt.
    destruct (Z.ltb_spec n 0); [|lia].
    split; [reflexivity|]. split; [reflexivity|]. eexists. reflexivity.
  - destruct (bitwise_isqrt_sqrt n Hpos) as [H1 H2].
    split; [exact H1|]. split; [exact H2|].
    exists EmptyString. apply newton_isqrt_spec. exact Hpos.
Qed.

(** ** The small-factor sweep and the success objects of FactoriX *)

Lemma sweep_some smalls N p :
  FactoriX.sweep smalls false N = Some p ->
  exists pre post,
    smalls = pre ++ p :: post /\ Z.rem N p = 0 /\
    Forall (fun r => Z.rem N r <> 0) pre.
Proof.
  induction smalls as [|pb smalls IH]; cbn [FactoriX.sweep]; [discriminate|].
  destruct (Z.eqb_spec (Z.rem N pb) 0) as [Hrem|Hrem].
  - intros Heq. inversion Heq; subst. exists [], smalls. auto.
  - intros Heq. destruct (IH Heq) as (pre & post & -> & Hp & Hall).
    exists (pb :: pre), post. auto.
Qed.

Lemma sweep_none smalls N :
  FactoriX.sweep smalls false N = None <-> Forall (fun r => Z.rem N r <> 0) smalls.
Proof.
  induction smalls as [|pb smalls IH]; cbn [FactoriX.sweep].
  - split; [constructor|reflexivity].
  - destruct (Z.eqb_spec (Z.rem N pb) 0) as [Hrem|Hrem].
    + split; [discriminate|]. intros Hall. inversion Hall; contradiction.
    + rewrite IH. split; [intros Hall; constructor; assumption|].
      intros Hall. inversion Hall; assumption.
Qed.

Lemma sweep_abort smalls N : FactoriX.sweep smalls true N = None.
Proof. destruct smalls; reflexivity. Qed.

Lemma quickSmallFactor_some N bound p :
  FactoriX.quickSmallFactor false N bound = Some p ->
  Z.prime p /\ p <= Z.max 2 (JS.toInt32 bound) /\ (p | N) /\ p * Z.quot N p = N /\
  forall r, Z.prime r -> r <= Z.max 2 (JS.toInt32 bound) -> (r | N) -> p <= r.
Proof.
  unfold FactoriX.quickSmallFactor. intros Heq.
  destruct (primesUpTo_spec bound) as (Hin & Hsorted & Hsame).
  rewrite Hsame in Heq.
  destruct (sweep_some _ _ _ Heq) as (pre & post & Hsplit & Hrem & Hall).
  assert (Hp : Z.prime p /\ p <= Z.max 2 (JS.toInt32 bound)).
  { apply Hin. rewrite Hsplit. apply in_or_app. right. left. reflexivity. }
  pose proof (Z.prime_ge_2 p (proj1 Hp)) as Hp2.
  split; [apply Hp|]. split; [apply Hp|].
  split; [apply Z.rem_divide; [lia|exact Hrem]|].
  split.
  { pose proof (Z.quot_rem' N p) as Hqr. rewrite Hrem in Hqr. lia. }
  intros r Hr Hle Hdiv.
  destruct (Z.le_gt_cases p r) as [|Hlt]; [assumption|exfalso].
  assert (Hrin : In r (pre ++ p :: post)) by (rewrite <- Hsplit; apply Hin; auto).
  rewrite Hsplit in Hsorted.
  assert (Hpre : In r pre).
  { apply (sorted_before Z.lt pre post p r Hsorted Hrin); lia. }
  rewrite Forall_forall in Hall. apply (Hall r Hpre).
  apply Z.rem_divide; [pose proof (Z.prime_ge_2 r Hr); lia|exact Hdiv].
Qed.

(** X19.  While the abort flag is off, [quickSmallFactor(N, bound)] returns
    the least prime up to [max(2, bound|0)] that divides [N], and [null]
    exactly when no such prime divides [N]; with the flag on it returns
    [null]. *)
Theorem quickSmallFactor_least (N bound : Z) :
  (forall p, FactoriX.quickSmallFactor false N bound = Some p <->
     Z.prime p /\ p <= Z.max 2 (JS.toInt32 bound) /\ (p | N) /\
     forall r, Z.prime r -> r <= Z.max 2 (JS.toInt32 bound) -> (r | N) -> p <= r) /\
  (FactoriX.quickSmallFactor false N bound = None <->
     forall r, Z.prime r -> r <= Z.max 2 (JS.toInt32 bound) -> ~ (r | N)) /\
  FactoriX.quickSmallFactor true N bound = None.
Proof.
  assert (Hnone : FactoriX.quickSmallFactor false N bound = None <->
     forall r, Z.prime r -> r <= Z.max 2 (JS.toInt32 bound) -> ~ (r | N)).
  { unfold FactoriX.quickSmallFactor.
    destruct (primesUpTo_spec bound) as (Hin & _ & Hsame). rewrite Hsame.
    rewrite sweep_none, Forall_forall. split.
    - intros Hall r Hr Hle Hdiv. apply (Hall r); [apply Hin; auto|].
      apply Z.rem_divide; [pose proof (Z.prime_ge_2 r Hr); lia|exact Hdiv].
    - intros Hall r Hr Hrem. apply Hin in Hr. destruct Hr as [Hr Hle].
      apply (Hall r Hr Hle).
      apply Z.rem_divide; [pose proof (Z.prime_ge_2 r Hr); lia|exact Hrem]. }
  split; [|split; [exact Hnone|apply sweep_abort]].
  intros p. split.
  - intros Heq. destruct (quickSmallFactor_some _ _ _ Heq) as (H1 & H2 & H3 & _ & H5).
    auto.
  - intros (Hp & Hle & Hdiv & Hleast).
    destruct (FactoriX.quickSmallFactor false N bound) as [p'|] eqn:Heq.
    + destruct (quickSmallFactor_some _ _ _ Heq) as (H1 & H2 & H3 & _ & H5).
      f_equal. pose proof (Hleast p' H1 H2 H3). pose proof (H5 p Hp Hle Hdiv). lia.
    + exfalso. apply (proj1 Hnone eq_refl p Hp Hle Hdiv).
Qed.








(** ** The primality tests below the square of the next small prime *)

Lemma UPE_isProbablePrime_prime n rounds : Z.prime n -> UPE.isProbablePrime n rounds = true.
Proof.
  intros Hn. pose proof (Z.prime_ge_2 n Hn) as Hn2.
  unfold UPE.isProbablePrime.
  destruct (Z.ltb_spec n 2); [lia|].
  destruct (UPE_smallLoop_prime n UPE.small Hn) as [Hs|[Hs Hne]].
  { unfold UPE.small. repeat constructor. }
  - rewrite Hs. reflexivity.
  - rewrite Hs.
    assert (3 < n).
    { unfold UPE.small in Hne. inversion Hne as [|? ? H2 Hne']; subst.
      inversion Hne' as [|? ? H3 _]; subst. lia. }
    fold (UPE.split n). unfold UPE.split.
    destruct (UPE.splitLoop _ _ _) as [d s] eqn:Hsplit.
    apply split_prime in Hsplit; [|assumption].
    destruct Hsplit as (Hd & Hs0 & Hval).
    destruct (UPE.fixedLoop UPE.fixed n d s rounds 0) as [[|]|cnt] eqn:Hfixed.
    + reflexivity.
    + exfalso. revert Hfixed.
      apply fixedLoop_prime; try assumption.
      unfold UPE.fixed. repeat constructor; lia.
    + apply randomLoop_prime; assumption.
Qed.

Lemma Solid_isPrime64_prime n : Z.prime n -> Solid.isPrime64 n = true.
Proof.
  intros Hn. pose proof (Z.prime_ge_2 n Hn) as Hn2.
  unfold Solid.isPrime64.
  destruct (Z.ltb_spec n 2); [lia|].
  destruct (Solid_smallLoop_prime n Solid.small Hn) as [Hs|[Hs Hne]].
  { unfold Solid.small. repeat constructor. }
  - rewrite Hs. reflexivity.
  - rewrite Hs.
    assert (3 < n).
    { unfold Solid.small in Hne. inversion Hne as [|? ? H2 Hne']; subst.
      inversion Hne' as [|? ? H3 _]; subst. lia. }
    destruct (UPE.splitLoop _ _ _) as [d s] eqn:Hsplit.
    apply split_prime in Hsplit; [|assumption].
    destruct Hsplit as (Hd & Hs0 & Hval).
    apply forallb_forall. intros a Ha.
    rewrite passes_trial. apply trial_prime; try assumption.
    unfold Solid.bases in Ha. simpl in Ha. intuition lia.
Qed.

Lemma UPE_smallLoop_true ps n : UPE.smallLoop ps n = Some true -> In n ps.
Proof.
  induction ps as [|p ps IH]; cbn [UPE.smallLoop In]; [discriminate|].
  destruct (Z.eqb_spec n p) as [->|Hne]; [left; reflexivity|].
  destruct (Z.rem n p =? 0); [discriminate|]. intros Heq. right. apply IH. exact Heq.
Qed.

Lemma UPE_smallLoop_none ps n :
  Forall (fun p => 1 < p) ps ->
  UPE.smallLoop ps n = None -> Forall (fun p => ~ (p | n)) ps.
Proof.
  induction 1 as [|p ps Hp Hps IH]; cbn [UPE.smallLoop]; [constructor|].
  destruct (n =? p); [discriminate|].
  destruct (Z.eqb_spec (Z.rem n p) 0) as [|Hrem]; [discriminate|].
  intros Heq. constructor; [|apply IH; exact Heq].
  intros Hdiv. apply Hrem. apply Z.rem_divide; [lia|exact Hdiv].
Qed.

Lemma Solid_smallLoop_true ps n : Solid.smallLoop ps n = Some true -> In n ps.
Proof.
  induction ps as [|p ps IH]; cbn [Solid.smallLoop In]; [discriminate|].
  destruct (Z.rem n p =? 0).
  - destruct (Z.eqb_spec n p) as [->|]; [left; reflexivity|discriminate].
  - intros Heq. right. apply IH. exact Heq.
Qed.

Lemma Solid_smallLoop_none ps n :
  Forall (fun p => 1 < p) ps ->
  Solid.smallLoop ps n = None -> Forall (fun p => ~ (p | n)) ps.
Proof.
  induction 1 as [|p ps Hp Hps IH]; cbn [Solid.smallLoop]; [constructor|].
  destruct (Z.eqb_spec (Z.rem n p) 0) as [|Hrem]; [discriminate|].
  intros Heq. constructor; [|apply IH; exact Heq].
  intros Hdiv. apply Hrem. apply Z.rem_divide; [lia|exact Hdiv].
Qed.

(** A number below [(b + 1)^2] that no prime up to [b] divides is prime. *)
Lemma no_small_prime_divisor (ps : list Z) n b :
  0 <= b -> 2 <= n -> n < (b + 1) * (b + 1) ->
  (forall p, Z.prime p -> p <= b -> In p ps) ->
  Forall (fun p => ~ (p | n)) ps -> Z.prime n.
Proof.
  intros Hb Hn Hsq Hall Hnone.
  apply prime_iff_no_small_divisor; [exact Hn|].
  intros (d & Hd & Hdsq & Hdiv).
  destruct (prime_divisor_exists (Z.to_nat (d + 1)) d ltac:(lia)) as (p & Hp & Hpd).
  pose proof (Z.prime_ge_2 p Hp).
  pose proof (Z.divide_pos_le p d ltac:(lia) Hpd).
  rewrite Forall_forall in Hnone. apply (Hnone p).
  - apply Hall; [exact Hp|nia].
  - eapply Z.divide_trans; eassumption.
Qed.

Lemma UPE_small_primes p : In p UPE.small <-> Z.prime p /\ p <= 40.
Proof.
  destruct (primesUpTo_spec 40) as (Hin & _ & _).
  replace (UPE.primesUpTo 40) with UPE.small in Hin by (vm_compute; reflexivity).
  exact (Hin p).
Qed.

Lemma Solid_small_primes p : In p Solid.small <-> Z.prime p /\ p <= 30.
Proof.
  destruct (primesUpTo_spec 30) as (Hin & _ & _).
  replace (UPE.primesUpTo 30) with Solid.small in Hin by (vm_compute; reflexivity).
  exact (Hin p).
Qed.

(** X21.  Below 1681, the square of the first prime after the list
    [small], [isProbablePrime] is exact for every round count: it answers
    "probably prime" exactly on the primes. *)
Theorem isProbablePrime_exact_below_1681 (n rounds : Z) :
  n < 1681 ->
  (UPE.isProbablePrime n rounds = true <-> Z.prime n) /\
  (FactoriX.isProbablePrime n rounds = true <-> Z.prime n).
Proof.
  intros Hlt.
  assert (Hiff : UPE.isProbablePrime n rounds = true <-> Z.prime n).
  { split; [|apply UPE_isProbablePrime_prime].
    unfold UPE.isProbablePrime.
    destruct (Z.ltb_spec n 2) as [|Hge]; [discriminate|].
    destruct (UPE.smallLoop UPE.small n) as [[|]|] eqn:Hsmall.
    - intros _. apply UPE_smallLoop_true in Hsmall. apply UPE_small_primes in Hsmall. tauto.
    - discriminate.
    - intros _. apply (no_small_prime_divisor UPE.small n 40); try lia.
      + intros p Hp Hle. apply UPE_small_primes. auto.
      + apply UPE_smallLoop_none; [|exact Hsmall].
        unfold UPE.small. repeat constructor. }
  split; exact Hiff.
Qed.

Lemma isProbablePrime_exact_below_1681_witness :
  1679 < 1681 /\
  (UPE.isProbablePrime 1679 12 = true <-> Z.prime 1679) /\
  (FactoriX.isProbablePrime 1679 12 = true <-> Z.prime 1679).
Proof.
  split; [lia|]. apply (isProbablePrime_exact_below_1681 1679 12). lia.
Defined.

(** X22.  Below 961, the square of the first prime after its list [small],
    [isPrime64] is exact: it answers [true] exactly on the primes. *)
Theorem isPrime64_exact_below_961 (n : Z) :
  n < 961 -> (Solid.isPrime64 n = true <-> Z.prime n).
Proof.
  intros Hlt. split; [|apply Solid_isPrime64_prime].
  unfold Solid.isPrime64.
  destruct (Z.ltb_spec n 2) as [|Hge]; [discriminate|].
  destruct (Solid.smallLoop Solid.small n) as [[|]|] eqn:Hsmall.
  - intros _. apply Solid_smallLoop_true in Hsmall. apply Solid_small_primes in Hsmall. tauto.
  - discriminate.
  - intros _. apply (no_small_prime_divisor Solid.small n 30); try lia.
    + intros p Hp Hle. apply Solid_small_primes. auto.
    + apply Solid_smallLoop_none; [|exact Hsmall].
      unfold Solid.small. repeat constructor.
Qed.

Lemma isPrime64_exact_below_961_witness :
  899 < 961 /\ (Solid.isPrime64 899 = true <-> Z.prime 899).
Proof.
  split; [lia|]. apply (isPrime64_exact_below_961 899). lia.
Defined.

(** ** The recursive factorizer on inputs with small prime factors *)

Lemma find_first {A : Type} (f : A -> bool) (l : list A) (x : A) :
  find f l = Some x ->
  exists pre post, l = pre ++ x :: post /\ f x = true /\ Forall (fun y => f y = false) pre.
Proof.
  induction l as [|a l IH]; cbn [find]; [discriminate|].
  destruct (f a) eqn:Hfa.
  - intros Heq. inversion Heq; subst. exists [], l. auto.
  - intros Heq. destruct (IH Heq) as (pre & post & -> & Hx & Hall).
    exists (a :: pre), post. auto.
Qed.

Lemma sieve47_primes p : In p Solid.sieve47 <-> Z.prime p /\ p <= 47.
Proof.
  destruct (primesUpTo_spec 47) as (Hin & _ & _).
  replace (UPE.primesUpTo 47) with Solid.sieve47 in Hin by (vm_compute; reflexivity).
  exact (Hin p).
Qed.

Lemma sieve47_sorted : StronglySorted Z.lt Solid.sieve47.
Proof.
  destruct (primesUpTo_spec 47) as (_ & Hsorted & _).
  replace (UPE.primesUpTo 47) with Solid.sieve47 in Hsorted by (vm_compute; reflexivity).
  exact Hsorted.
Qed.

(** The sieve of [factor] finds the least prime factor of a number that
    has one up to 47. *)
Lemma sieve47_least n q :
  Z.prime q -> q <= 47 -> (q | n) ->
  exists p, find (fun p => Z.rem n p =? 0) Solid.sieve47 = Some p /\
            Z.prime p /\ (p | n) /\ p <= q.
Proof.
  intros Hq Hle Hdiv.
  pose proof (Z.prime_ge_2 q Hq) as Hq2.
  assert (Hqin : In q Solid.sieve47) by (apply sieve47_primes; auto).
  destruct (find (fun p => Z.rem n p =? 0) Solid.sieve47) as [p|] eqn:Hfind.
  - exists p. split; [reflexivity|].
    destruct (find_first _ _ _ Hfind) as (pre & post & Hsplit & Hrem & Hall).
    assert (Hp : Z.prime p /\ p <= 47).
    { apply sieve47_primes. rewrite Hsplit. apply in_or_app. right. left. reflexivity. }
    pose proof (Z.prime_ge_2 p (proj1 Hp)) as Hp2.
    split; [apply Hp|].
    split; [apply Z.rem_divide; [lia|apply Z.eqb_eq; exact Hrem]|].
    destruct (Z.le_gt_cases p q) as [|Hlt]; [assumption|exfalso].
    pose proof sieve47_sorted as Hsorted. rewrite Hsplit in Hsorted, Hqin.
    assert (Hpre : In q pre).
    { apply (sorted_before Z.lt pre post p q Hsorted Hqin); lia. }
    rewrite Forall_forall in Hall. specialize (Hall q Hpre). cbv beta in Hall.
    apply Z.eqb_neq in Hall. apply Hall. apply Z.rem_divide; [lia|exact Hdiv].
  - exfalso. pose proof (find_none _ _ Hfind q Hqin) as Hnone. cbv beta in Hnone.
    apply Z.eqb_neq in Hnone. apply Hnone. apply Z.rem_divide; [lia|exact Hdiv].
Qed.

(** On a number with a prime factor up to 29, [isPrime64] is decided by the
    list [small]: it accepts primes only. *)
Lemma isPrime64_smooth n :
  2 <= n -> smooth 29 n -> Solid.isPrime64 n = true -> Z.prime n.
Proof.
  intros Hn Hsmooth. unfold Solid.isPrime64.
  destruct (Z.ltb_spec n 2); [lia|].
  destruct (Solid.smallLoop Solid.small n) as [[|]|] eqn:Hsmall.
  - intros _. apply Solid_smallLoop_true in Hsmall. apply Solid_small_primes in Hsmall. tauto.
  - discriminate.
  - exfalso.
    destruct (prime_divisor_exists (Z.to_nat (n + 1)) n ltac:(lia)) as (p & Hp & Hdiv).
    apply Solid_smallLoop_none in Hsmall; [|unfold Solid.small; repeat constructor].
    rewrite Forall_forall in Hsmall. apply (Hsmall p); [|exact Hdiv].
    apply Solid_small_primes. split; [exact Hp|].
    pose proof (Hsmooth p Hp Hdiv). lia.
Qed.

Lemma factor_S rnd fuel n out k :
  Solid.factor rnd (S fuel) n out k =
  if n =? 1 then Ok (out, k)
  else if Solid.isPrime64 n then Ok (out ++ [n], k)
  else
    match find (fun p => Z.rem n p =? 0) Solid.sieve47 with
    | Some p =>
        ('(out1, k1) <- Solid.factor rnd fuel p out k ;;
         Solid.factor rnd fuel (Z.quot n p) out1 k1)%result
    | None =>
        (ff <- Solid.fermatFactor n 2000000 ;;
         match ff with
         | Some (p, q) =>
             '(out1, k1) <- Solid.factor rnd fuel p out k ;;
             Solid.factor rnd fuel q out1 k1
         | None =>
             '(d, k0) <- Solid.split rnd fuel n k ;;
             '(out1, k1) <- Solid.factor rnd fuel d out k0 ;;
             Solid.factor rnd fuel (Z.quot n d) out1 k1
         end)%result
    end.
Proof. reflexivity. Qed.

Lemma factor_smooth rnd :
  forall (fuel : nat) n out k,
    1 <= n < 2 ^ Z.of_nat fuel -> smooth 29 n ->
    exists res,
      Solid.factor rnd (S fuel) n out k = Ok (out ++ res, k) /\
      Solid.product res = n /\
      Forall (fun q => Z.prime q /\ (q | n)) res /\
      StronglySorted Z.le res.
Proof.
  induction fuel as [|fuel IH]; intros n out k Hn Hsmooth.
  { change (2 ^ Z.of_nat 0) with 1 in Hn. lia. }
  rewrite factor_S.
  destruct (Z.eqb_spec n 1) as [->|Hn1].
  { exists []. rewrite app_nil_r. repeat split; constructor. }
  destruct (Solid.isPrime64 n) eqn:Hprime.
  { exists [n]. split; [reflexivity|]. split; [apply product_single|].
    split; [|repeat constructor].
    constructor; [|constructor].
    split; [apply isPrime64_smooth; auto; lia|apply Z.divide_refl]. }
  destruct (prime_divisor_exists (Z.to_nat (n + 1)) n ltac:(lia)) as (q & Hq & Hqdiv).
  destruct (sieve47_least n q Hq ltac:(pose proof (Hsmooth q Hq Hqdiv); lia) Hqdiv)
    as (p & Hfind & Hp & Hpdiv & _).
  rewrite Hfind.
  pose proof (Z.prime_ge_2 p Hp) as Hp2.
  assert (Hfp : Solid.factor rnd (S fuel) p out k = Ok (out ++ [p], k)).
  { rewrite factor_S. destruct (Z.eqb_spec p 1); [lia|].
    rewrite (Solid_isPrime64_prime p Hp). reflexivity. }
  rewrite Hfp. cbn [bind].
  destruct Hpdiv as [m Hm].
  assert (Hquot : Z.quot n p = m) by (subst n; apply Z.quot_mul; lia).
  rewrite Hquot.
  assert (Hm1 : 1 <= m < 2 ^ Z.of_nat fuel).
  { rewrite pow2_S in Hn. nia. }
  assert (Hmsmooth : smooth 29 m).
  { intros r Hr Hrdiv. apply (Hsmooth r Hr). subst n. apply Z.divide_mul_l. exact Hrdiv. }
  destruct (IH m (out ++ [p]) k Hm1 Hmsmooth) as (res & Hres & Hprod & Hall & Hsorted).
  exists (p :: res). split.
  { rewrite Hres. rewrite <- app_assoc. reflexivity. }
  split.
  { change (p :: res) with ([p] ++ res). rewrite product_app, product_single, Hprod. lia. }
  assert (Hall' : Forall (fun q0 => Z.prime q0 /\ (q0 | n)) res).
  { eapply Forall_impl; [|exact Hall]. cbv beta. intros r [Hr Hrdiv].
    split; [exact Hr|]. subst n. apply Z.divide_mul_l. exact Hrdiv. }
  split.
  { constructor; [|exact Hall']. split; [exact Hp|]. exists m. exact Hm. }
  constructor; [exact Hsorted|].
  eapply Forall_impl; [|exact Hall']. cbv beta. intros r [Hr Hrdiv].
  destruct (sieve47_least n r Hr ltac:(pose proof (Hsmooth r Hr Hrdiv); lia) Hrdiv)
    as (p' & Hfind' & _ & _ & Hle).
  rewrite Hfind in Hfind'. inversion Hfind'; subst p'. exact Hle.
Qed.

(** X23.  On [N >= 1] all of whose prime factors are at most 29,
    [factorizeBigInt] returns, within a recursion depth of the bit length of
    [N] plus one and without drawing a random number, the prime
    factorization of [N]: primes in non-decreasing order whose product is
    [N]. *)
Theorem factorizeBigInt_smooth (rnd : nat -> Z) (fuel : nat) (N : Z) :
  1 <= N < 2 ^ Z.of_nat fuel -> smooth 29 N ->
  exists res,
    Solid.factor rnd (S fuel) N [] 0%nat = Ok (res, 0%nat) /\
    Solid.factorizeBigInt rnd (S fuel) N = Ok res /\
    Solid.product res = N /\ Forall Z.prime res /\ StronglySorted Z.le res.
Proof.
  intros HN Hsmooth.
  destruct (factor_smooth rnd fuel N [] 0%nat HN Hsmooth) as (res & Hres & Hprod & Hall & Hs).
  exists res. cbn [app] in Hres.
  split; [exact Hres|].
  split; [unfold Solid.factorizeBigInt; rewrite Hres; reflexivity|].
  split; [exact Hprod|]. split; [|exact Hs].
  eapply Forall_impl; [|exact Hall]. cbv beta. tauto.
Qed.

Lemma smooth_360 : smooth 29 360.
Proof.
  intros p Hp Hdiv. pose proof (Z.prime_ge_2 p Hp).
  change 360 with (8 * (9 * 5)) in Hdiv.
  assert (H2 : forall a, (p | a * a) -> (p | a)).
  { intros a Ha. apply (Z.divide_prime_mul _ _ _ Hp) in Ha. tauto. }
  apply (Z.divide_prime_mul _ _ _ Hp) in Hdiv.
  destruct Hdiv as [Hdiv|Hdiv].
  - change 8 with (2 * (2 * 2)) in Hdiv.
    apply (Z.divide_prime_mul _ _ _ Hp) in Hdiv.
    destruct Hdiv as [Hdiv|Hdiv]; [|apply H2 in Hdiv];
      apply Z.divide_pos_le in Hdiv; lia.
  - apply (Z.divide_prime_mul _ _ _ Hp) in Hdiv.
    destruct Hdiv as [Hdiv|Hdiv]; [change 9 with (3 * 3) in Hdiv; apply H2 in Hdiv|];
      apply Z.divide_pos_le in Hdiv; lia.
Qed.

Lemma factorizeBigInt_smooth_witness :
  (1 <= 360 < 2 ^ Z.of_nat 9 /\ smooth 29 360) /\
  exists res,
    Solid.factor (fun _ => 0) 10 360 [] 0%nat = Ok (res, 0%nat) /\
    Solid.factorizeBigInt (fun _ => 0) 10 360 = Ok res /\
    Solid.product res = 360 /\ Forall Z.prime res /\ StronglySorted Z.le res.
Proof.
  split; [split; [simpl; lia|exact smooth_360]|].
  apply (factorizeBigInt_smooth (fun _ => 0) 9 360); [simpl; lia|exact smooth_360].
Defined.

(** ** What a search that found nothing has covered *)

Lemma scanPrime_exhausted X S mrRounds :
  forall offs tested log n log',
    UPE.scanPrime offs X S mrRounds tested log = (UPE.NoPrime n, log') ->
    tested <= n /\
    (n < 3 ->
     Forall (fun u => UPE.admissibleSingle X u S = true ->
                      UPE.isProbablePrime (X + u) mrRounds = false) offs).
Proof.
  induction offs as [|u offs IH]; intros tested log n log' Heq; cbn [UPE.scanPrime] in Heq.
  { inversion Heq; subst. split; [lia|constructor]. }
  destruct (UPE.admissibleSingle X u S) eqn:Hadm; cbn [negb] in Heq.
  - destruct (UPE.isProbablePrime (X + u) mrRounds) eqn:Hprime; [discriminate|].
    destruct (Z.geb_spec (tested + 1) 3).
    + inversion Heq; subst. split; [lia|]. intros; lia.
    + destruct (IH _ _ _ _ Heq) as [Hle Hall]. split; [lia|].
      intros Hn. constructor; [intros _; exact Hprime|apply Hall; exact Hn].
  - destruct (IH _ _ _ _ Heq) as [Hle Hall]. split; [exact Hle|].
    intros Hn. constructor; [congruence|apply Hall; exact Hn].
Qed.

(** X24.  When [runPrimeNearX] reports that it found no prime after fewer
    than three confirmation tests, it has gone through the whole window:
    every offset [u] with [|u|] within the radius in use either fails the
    prefilter or has a candidate [X + u] that fails [isProbablePrime]. *)
Theorem runPrimeNearX_exhausted (rawX : UPE.jsstring)
        (Pauto Tauto Poverride Toverride mrRounds tested : Z) :
  fst (UPE.runPrimeNearX rawX Pauto Tauto Poverride Toverride mrRounds)
    = UPE.NoPrime tested ->
  tested < 3 ->
  exists X lg,
    UPE.parseBigIntExpr rawX = UPE.Big X lg /\
    forall u, Z.abs u <= usedT Tauto Toverride ->
      UPE.admissibleSingle X u (UPE.primesUpTo (usedP Pauto Poverride)) = true ->
      UPE.isProbablePrime (X + u) mrRounds = false.
Proof.
  unfold UPE.runPrimeNearX. fold (usedP Pauto Poverride). fold (usedT Tauto Toverride).
  intros Heq Hlt.
  destruct (UPE.parseBigIntExpr rawX) as [err|X lg|lg op c]; try discriminate.
  destruct (_ && _); [discriminate|].
  destruct (UPE.scanPrime _ X _ mrRounds 0 []) as [r log'] eqn:Hscan.
  cbn [fst] in Heq. subst r.
  destruct (scanPrime_exhausted _ _ _ _ _ _ _ _ Hscan) as [_ Hall].
  exists X, lg. split; [reflexivity|].
  intros u Hu. specialize (Hall Hlt). rewrite Forall_forall in Hall.
  apply Hall. apply symmetricOffsets_In. right. exact Hu.
Qed.

Lemma runPrimeNearX_exhausted_witness :
  (fst (UPE.runPrimeNearX (UPE.units "116") 7 40 3 2 12) = UPE.NoPrime 1 /\ 1 < 3) /\
  exists X lg,
    UPE.parseBigIntExpr (UPE.units "116") = UPE.Big X lg /\
    forall u, Z.abs u <= usedT 40 2 ->
      UPE.admissibleSingle X u (UPE.primesUpTo (usedP 7 3)) = true ->
      UPE.isProbablePrime (X + u) 12 = false.
Proof.
  assert (H : fst (UPE.runPrimeNearX (UPE.units "116") 7 40 3 2 12) = UPE.NoPrime 1)
    by (vm_compute; reflexivity).
  split; [split; [exact H|lia]|].
  apply (runPrimeNearX_exhausted (UPE.units "116") 7 40 3 2 12 1 H). lia.
Defined.

Lemma scanPair_exhausted x S mrRounds :
  forall offs tested log n log',
    UPE.scanPair offs x S mrRounds tested log = (UPE.NoPair n, log') ->
    tested <= n /\
    (n < 3 ->
     Forall (fun t => UPE.admissibleGoldbach x t S = true ->
                      UPE.isProbablePrime (x - t) mrRounds
                      && UPE.isProbablePrime (x + t) mrRounds = false) offs).
Proof.
  induction offs as [|t offs IH]; intros tested log n log' Heq; cbn [UPE.scanPair] in Heq.
  { inversion Heq; subst. split; [lia|constructor]. }
  destruct (UPE.admissibleGoldbach x t S) eqn:Hadm; cbn [negb] in Heq.
  - destruct (UPE.isProbablePrime (x - t) mrRounds && UPE.isProbablePrime (x + t) mrRounds)
      eqn:Hprime; [discriminate|].
    destruct (Z.geb_spec (tested + 1) 3).
    + inversion Heq; subst. split; [lia|]. intros; lia.
    + destruct (IH _ _ _ _ Heq) as [Hle Hall]. split; [lia|].
      intros Hn. constructor; [intros _; exact Hprime|apply Hall; exact Hn].
  - destruct (IH _ _ _ _ Heq) as [Hle Hall]. split; [exact Hle|].
    intros Hn. constructor; [congruence|apply Hall; exact Hn].
Qed.

(** X25.  When [runGoldbach] reports that it found no pair after fewer than
    three confirmation tests, it has gone through the whole window: the
    input is an even [E], and every offset [t] with [|t|] within the radius
    in use either fails the pair prefilter or has a member of
    [(E/2 - t, E/2 + t)] that fails [isProbablePrime]. *)
Theorem runGoldbach_exhausted (rawE : UPE.jsstring)
        (Pauto Tauto Poverride Toverride mrRounds tested : Z) :
  fst (UPE.runGoldbach rawE Pauto Tauto Poverride Toverride mrRounds)
    = UPE.NoPair tested ->
  tested < 3 ->
  exists E lg,
    UPE.parseBigIntExpr rawE = UPE.Big E lg /\ Z.rem E 2 = 0 /\
    forall t, Z.abs t <= usedT Tauto Toverride ->
      UPE.admissibleGoldbach (Z.quot E 2) t (UPE.primesUpTo (usedP Pauto Poverride)) = true ->
      UPE.isProbablePrime (Z.quot E 2 - t) mrRounds
      && UPE.isProbablePrime (Z.quot E 2 + t) mrRounds = false.
Proof.
  unfold UPE.runGoldbach. fold (usedP Pauto Poverride). fold (usedT Tauto Toverride).
  intros Heq Hlt.
  destruct (UPE.parseBigIntExpr rawE) as [err|E lg|lg op c]; try discriminate.
  destruct (Z.eqb_spec (Z.rem E 2) 0) as [Heven|]; cbn [negb] in Heq; [|discriminate].
  destruct (_ && _); [discriminate|].
  destruct (UPE.scanPair _ (Z.quot E 2) _ mrRounds 0 []) as [r log'] eqn:Hscan.
  cbn [fst] in Heq. subst r.
  destruct (scanPair_exhausted _ _ _ _ _ _ _ _ Hscan) as [_ Hall].
  exists E, lg. split; [reflexivity|]. split; [exact Heven|].
  intros t Ht. specialize (Hall Hlt). rewrite Forall_forall in Hall.
  apply Hall. apply symmetricOffsets_In. right. exact Ht.
Qed.

Lemma runGoldbach_exhausted_witness :
  (fst (UPE.runGoldbach (UPE.units "240") 7 40 3 2 12) = UPE.NoPair 2 /\ 2 < 3) /\
  exists E lg,
    UPE.parseBigIntExpr (UPE.units "240") = UPE.Big E lg /\ Z.rem E 2 = 0 /\
    forall t, Z.abs t <= usedT 40 2 ->
      UPE.admissibleGoldbach (Z.quot E 2) t (UPE.primesUpTo (usedP 7 3)) = true ->
      UPE.isProbablePrime (Z.quot E 2 - t) 12
      && UPE.isProbablePrime (Z.quot E 2 + t) 12 = false.
Proof.
  assert (H : fst (UPE.runGoldbach (UPE.units "240") 7 40 3 2 12) = UPE.NoPair 2)
    by (vm_compute; reflexivity).
  split; [split; [exact H|lia]|].
  apply (runGoldbach_exhausted (UPE.units "240") 7 40 3 2 12 2 H). lia.
Defined.

Lemma probe_next usePrefilter S N ring u hit y checked log checked' log' :
  UPE.probe usePrefilter S N ring u hit y checked log = (UPE.Next checked', log') ->
  UPE.passesPrefilter usePrefilter S y = true -> y <> 0 /\ Z.rem N y <> 0.
Proof.
  unfold UPE.probe. intros Heq Hpass. rewrite Hpass in Heq.
  destruct (Z.eqb_spec y 0); [discriminate|].
  destruct (Z.eqb_spec (Z.rem N y) 0); [discriminate|]. auto.
Qed.

Lemma UPE_scanRing_next usePrefilter S N X T ring :
  forall offs checked log checked' log',
    UPE.scanRing offs usePrefilter S N X T ring checked log = (UPE.Next checked', log') ->
    Forall (fun u => (ring >? 0) && (Z.abs u <? (ring - 1) * T) = false ->
                     UPE.passesPrefilter usePrefilter S (X + u) = true ->
                     X + u <> 0 /\ Z.rem N (X + u) <> 0) offs.
Proof.
  induction offs as [|w offs IH]; intros checked log checked' log' Heq; [constructor|].
  cbn [UPE.scanRing] in Heq.
  destruct ((ring >? 0) && (Z.abs w <? (ring - 1) * T)) eqn:Hskip.
  { constructor; [congruence|apply (IH _ _ _ _ Heq)]. }
  destruct (UPE.probe usePrefilter S N ring w w (X + w) checked log)
    as [[checked1|r] log1] eqn:Ha; [|discriminate].
  constructor.
  { intros _. apply (probe_next _ _ _ _ _ _ _ _ _ _ _ Ha). }
  destruct (negb (w =? 0)).
  - destruct (UPE.probe usePrefilter S N ring w (- w) (X - w) checked1 log1)
      as [[checked2|r] log2] eqn:Hb; [|discriminate].
    destruct ((ring =? 0) && (checked2 >=? 3)); [discriminate|].
    apply (IH _ _ _ _ Heq).
  - destruct ((ring =? 0) && (checked1 >=? 3)); [discriminate|].
    apply (IH _ _ _ _ Heq).
Qed.

Lemma probe_not_nofactor usePrefilter S N ring u hit y checked log r log' c :
  UPE.probe usePrefilter S N ring u hit y checked log = (UPE.Return r, log') ->
  r <> UPE.NoFactor c.
Proof.
  intros Heq. apply probe_found in Heq. destruct r; try contradiction; discriminate.
Qed.

Lemma UPE_scanRing_not_nofactor usePrefilter S N X T ring c :
  forall offs checked log r log',
    UPE.scanRing offs usePrefilter S N X T ring checked log = (UPE.Return r, log') ->
    r <> UPE.NoFactor c.
Proof.
  induction offs as [|w offs IH]; intros checked log r log' Heq;
    cbn [UPE.scanRing] in Heq; [discriminate|].
  destruct ((ring >? 0) && (Z.abs w <? (ring - 1) * T)); [apply (IH _ _ _ _ Heq)|].
  destruct (UPE.probe usePrefilter S N ring w w (X + w) checked log)
    as [[checked1|r1] log1] eqn:Ha.
  - destruct (negb (w =? 0)).
    + destruct (UPE.probe usePrefilter S N ring w (- w) (X - w) checked1 log1)
        as [[checked2|r2] log2] eqn:Hb.
      * destruct ((ring =? 0) && (checked2 >=? 3));
          [inversion Heq; discriminate|apply (IH _ _ _ _ Heq)].
      * inversion Heq; subst. apply (probe_not_nofactor _ _ _ _ _ _ _ _ _ _ _ _ Hb).
    + destruct ((ring =? 0) && (checked1 >=? 3));
        [inversion Heq; discriminate|apply (IH _ _ _ _ Heq)].
  - inversion Heq; subst. apply (probe_not_nofactor _ _ _ _ _ _ _ _ _ _ _ _ Ha).
Qed.

Lemma UPE_scanRings_nofactor usePrefilter S N X T K :
  forall (fuel : nat) ring checked log c log',
    UPE.scanRings fuel usePrefilter S N X T K ring checked log = (UPE.NoFactor c, log') ->
    K + 1 - ring <= Z.of_nat fuel ->
    forall r u, ring <= r <= K ->
      In u (UPE.symmetricOffsets (r * T)) ->
      (r >? 0) && (Z.abs u <? (r - 1) * T) = false ->
      UPE.passesPrefilter usePrefilter S (X + u) = true ->
      X + u <> 0 /\ Z.rem N (X + u) <> 0.
Proof.
  induction fuel as [|fuel IH]; intros ring checked log c log' Heq Hfuel r u Hr Hin Hskip Hpass.
  { cbn in Hfuel. lia. }
  cbn [UPE.scanRings] in Heq.
  destruct (Z.leb_spec ring K); [|lia].
  destruct (UPE.scanRing _ usePrefilter S N X T ring checked log)
    as [[checked1|r1] log1] eqn:Hring.
  - destruct (Z.eq_dec r ring) as [->|Hne].
    + pose proof (UPE_scanRing_next _ _ _ _ _ _ _ _ _ _ _ Hring) as Hall.
      rewrite Forall_forall in Hall. apply (Hall u Hin Hskip Hpass).
    + apply (IH _ _ _ _ _ Heq ltac:(lia) r u ltac:(lia) Hin Hskip Hpass).
  - exfalso. inversion Heq; subst.
    apply (UPE_scanRing_not_nofactor _ _ _ _ _ _ c _ _ _ _ _ Hring). reflexivity.
Qed.

(** X26.  When [runFactorization] reports that it found no factor within
    [K >= 0] rings, the rings have covered the whole window without a gap:
    no value [isqrt(N) + u] with [|u| <= K * T] that passes the prefilter
    divides [N]. *)
Theorem runFactorization_exhausted (rawN : UPE.jsstring) (P T K : Z) (usePrefilter : bool)
        (mrRounds checked : Z) :
  fst (UPE.runFactorization rawN P T K usePrefilter mrRounds) = UPE.NoFactor checked ->
  0 <= K ->
  exists N lg,
    UPE.parseBigIntExpr rawN = UPE.Big N lg /\ 4 <= N /\
    forall u, Z.abs u <= K * T ->
      UPE.passesPrefilter usePrefilter (UPE.primesUpTo P) (Z.sqrt N + u) = true ->
      ~ (Z.sqrt N + u | N).
Proof.
  unfold UPE.runFactorization. intros Heq HK.
  destruct (UPE.parseBigIntExpr rawN) as [err|N lg|lg op c]; try discriminate.
  destruct (Z.ltb_spec N 4); [discriminate|].
  rewrite (proj1 (bitwise_isqrt_sqrt N ltac:(lia))) in Heq.
  destruct (UPE.scanRings _ usePrefilter _ N (Z.sqrt N) T K 0 0 []) as [r log'] eqn:Hscan.
  cbn [fst] in Heq. subst r.
  exists N, lg. split; [reflexivity|]. split; [lia|].
  intros u Hu Hpass Hdiv.
  assert (Hring : exists r, 0 <= r <= K /\ In u (UPE.symmetricOffsets (r * T)) /\
                            (r >? 0) && (Z.abs u <? (r - 1) * T) = false).
  { destruct (Z.eq_dec u 0) as [->|Hu0].
    - exists 0. split; [lia|]. split; [apply symmetricOffsets_In; left; reflexivity|].
      reflexivity.
    - assert (HT : 1 <= T) by nia.
      exists ((Z.abs u + T - 1) / T).
      pose proof (Z.div_mod (Z.abs u + T - 1) T ltac:(lia)) as Hdm.
      pose proof (Z.mod_pos_bound (Z.abs u + T - 1) T ltac:(lia)) as Hmod.
      set (r := (Z.abs u + T - 1) / T) in *.
      assert (Hr1 : 1 <= r) by nia.
      assert (HrK : r <= K) by nia.
      split; [lia|].
      apply ring_window; [lia|lia|]. nia. }
  destruct Hring as (r & Hr & Hin & Hskip).
  destruct (UPE_scanRings_nofactor _ _ _ _ _ _ _ _ _ _ _ _ Hscan
              ltac:(rewrite Z2Nat.id; lia) r u Hr Hin Hskip Hpass) as [Hnz Hrem].
  apply Hrem. apply Z.rem_divide; [exact Hnz|exact Hdiv].
Qed.

Lemma runFactorization_exhausted_witness :
  (fst (UPE.runFactorization (UPE.units "101") 7 2 2 true 12) = UPE.NoFactor 6 /\ 0 <= 2) /\
  exists N lg,
    UPE.parseBigIntExpr (UPE.units "101") = UPE.Big N lg /\ 4 <= N /\
    forall u, Z.abs u <= 2 * 2 ->
      UPE.passesPrefilter true (UPE.primesUpTo 7) (Z.sqrt N + u) = true ->
      ~ (Z.sqrt N + u | N).
Proof.
  assert (H : fst (UPE.runFactorization (UPE.units "101") 7 2 2 true 12) = UPE.NoFactor 6)
    by (vm_compute; reflexivity).
  split; [split; [exact H|lia]|].
  apply (runFactorization_exhausted (UPE.units "101") 7 2 2 true 12 6 H). lia.
Defined.

(** X27.  A stop requested during the first pause of [factorize] cancels the
    run of an odd [N >= 0] with [K >= 0] before any candidate of the window
    is tested: the result is the abort object, whether or not the sweep of
    small factors was asked for and whatever it would have found. *)
Theorem factorize_cancelled (abort : nat -> bool) (N B T K : Z) (prefilter : bool)
        (mrRounds P : Z) :
  Z.rem N 2 <> 0 -> 0 <= N -> 0 <= K -> abort 1%nat = true ->
  FactoriX.factorize abort N B T K prefilter mrRounds P = (Ok FactoriX.Aborted, []).
Proof.
  intros Hodd HN HK Hab. unfold FactoriX.factorize.
  destruct (Z.eqb_spec (Z.rem N 2) 0); [contradiction|].
  rewrite Hab.
  destruct (B >? 0); [reflexivity|].
  unfold FactoriX.window. rewrite (proj2 (bitwise_isqrt_sqrt N HN)).
  destruct (Z.to_nat (K + 1)) as [|fuel] eqn:Hfuel; [lia|].
  cbn [FactoriX.scanRings].
  destruct (Z.leb_spec 0 K); [|lia].
  rewrite Hab. reflexivity.
Qed.

Lemma factorize_cancelled_witness :
  (Z.rem 8051 2 <> 0 /\ 0 <= 8051 /\ 0 <= 3 /\ (fun _ : nat => true) 1%nat = true) /\
  FactoriX.factorize (fun _ => true) 8051 100 10 3 false 12 14 = (Ok FactoriX.Aborted, []).
Proof.
  split; [repeat split; try lia; vm_compute; discriminate|].
  apply (factorize_cancelled (fun _ => true) 8051 100 10 3 false 12 14);
    try lia; try reflexivity. vm_compute. discriminate.
Defined.
